(** * xmldom lexical grammar layer (src/mjs/grammar.mjs)

    A shallow embedding of the pattern algebra of [grammar.mjs]
    ([detectUnicodeSupport], [chars], [chars_without], [reg], [regg]) and of
    the productions built from it, together with a model of the part of the
    ECMAScript [RegExp] object those functions rely on: the constructor
    (flag parsing and pattern syntax check), the [source] and flag
    properties, and [exec] (backtracking matching with capture groups).

    JavaScript strings are sequences of UTF-16 code units; they are modelled
    as [list N].  Exceptions are modelled by the [result] type. *)

From Stdlib Require Import Ascii String.
From Stdlib Require Import List NArith ZArith Bool Lia.
Import ListNotations.

Set Implicit Arguments.

(** ** JavaScript strings *)

Module JS.

Definition jsstring := list N.

(** A string literal of the program text (all literals of the module are
    ASCII). *)
Definition str (s : string) : jsstring :=
  map N_of_ascii (list_ascii_of_string s).

Definition ch (a : ascii) : N := N_of_ascii a.

(** The double quote, which has no direct notation inside a literal. *)
Definition DQ : jsstring := [34%N].

Fixpoint starts_with (p s : jsstring) : bool :=
  match p, s with
  | [], _ => true
  | _ :: _, [] => false
  | a :: p', b :: s' => N.eqb a b && starts_with p' s'
  end.

(** [String.prototype.indexOf(search)]: the least index at which [search]
    occurs, [-1] when there is none. *)
Fixpoint indexOf_from (i : Z) (s search : jsstring) : Z :=
  match s with
  | [] => if starts_with search [] then i else (-1)%Z
  | _ :: t => if starts_with search s then i
              else indexOf_from (i + 1) t search
  end.

Definition indexOf (s search : jsstring) : Z := indexOf_from 0 s search.

(** [String.prototype.lastIndexOf(search)]: the greatest such index. *)
Fixpoint lastIndexOf_from (i best : Z) (s search : jsstring) : Z :=
  match s with
  | [] => if starts_with search [] then i else best
  | _ :: t =>
      lastIndexOf_from (i + 1) (if starts_with search s then i else best)
                       t search
  end.

Definition lastIndexOf (s search : jsstring) : Z :=
  lastIndexOf_from 0 (-1) s search.

(** [String.prototype.slice(start, fin)], negative indices counting from
    the end. *)
Definition slice (s : jsstring) (start fin : Z) : jsstring :=
  let len := Z.of_nat (length s) in
  let from := if (start <? 0)%Z then Z.max (len + start) 0
              else Z.min start len in
  let to := if (fin <? 0)%Z then Z.max (len + fin) 0 else Z.min fin len in
  firstn (Z.to_nat (to - from)) (skipn (Z.to_nat from) s).

(** [String.prototype.replace(search, repl)] for a string [search] and a
    replacement without [$] patterns: the first occurrence is replaced. *)
Definition replace (s search repl : jsstring) : jsstring :=
  let i := indexOf s search in
  if (i =? -1)%Z then s
  else firstn (Z.to_nat i) s ++ repl
       ++ skipn (Z.to_nat i + length search) s.

(** [s[0]]. *)
Definition char0 (s : jsstring) : option N := hd_error s.

(** JavaScript values, as far as [chars_without] inspects its second
    argument. *)
Inductive value :=
| VUndefined
| VNull
| VBoolean (b : bool)
| VNumber (n : Z)
| VString (s : jsstring)
| VObject.

(** ToBoolean. *)
Definition truthy (v : value) : bool :=
  match v with
  | VUndefined | VNull => false
  | VBoolean b => b
  | VNumber n => negb (n =? 0)%Z
  | VString s => match s with [] => false | _ => true end
  | VObject => true
  end.

Definition is_string (v : value) : bool :=
  match v with VString _ => true | _ => false end.

(** Exceptions.  The [Error]s thrown by [grammar.mjs] are told apart by the
    check that raised them instead of by their message text. *)
Inductive usage :=
| chars_not_a_class          (* ... can not be used with chars *)
| chars_without_not_a_class  (* ... can not be used with chars_without *)
| invalid_search             (* ... is not a valid search *)
| search_not_in_source       (* ... is not is /.../ *)
| hyphen_not_first           (* ... is not at the first postion of /.../ *)
| use_regg                   (* use regg instead of reg ... *)
| no_parameters.             (* no parameters provided *)

Inductive exn :=
| Error (u : usage)
| SyntaxError
| TypeError
| OutsideModel.  (* no exception of the runtime: the answer of the model of
                    the constructor for flags or a pattern in a syntax it
                    does not cover, of which it says nothing *)

Inductive result (A : Type) :=
| Ok (a : A)
| Throw (e : exn).
Arguments Ok {A} a.
Arguments Throw {A} e.

Definition bind {A B} (c : result A) (f : A -> result B) : result B :=
  match c with Ok a => f a | Throw e => Throw e end.

Definition is_usage_error {A} (c : result A) : bool :=
  match c with Throw (Error _) => true | _ => false end.

End JS.
Export JS.

Declare Scope js_scope.
Delimit Scope js_scope with js.
Notation "x <- c ;; k" := (bind c (fun x => k))
  (at level 61, c at next level, right associativity) : js_scope.
Notation "c ;;; k" := (bind c (fun _ => k))
  (at level 61, right associativity) : js_scope.

Local Open Scope js_scope.

(** ** The RegExp object of the runtime

    [grammar.mjs] builds every production with [new RegExp(source, flags)]
    and reads patterns back through [.source], which gives the pattern
    text in escaped form.  The model below covers the pattern syntax the
    module writes: pattern characters, [.], the escapes [\xHH], [\uHHHH],
    [\u{H..}] (unicode mode), [\d], control and syntax character escapes,
    character classes with ranges and negation, the assertions [^] and
    [$], alternation, the quantifiers [*], [+], [?] and their lazy forms,
    and non-capturing, capturing and named groups.  Any other syntax
    (braced quantifiers, look-around, back references, word boundaries,
    class escapes other than [\d], class escapes inside a class) is outside
    the model: the parser has no tree for it, and the constructor of the
    model answers [OutsideModel] instead of deciding between a pattern and
    a syntax error. *)

Module RegExpEngine.

Record flagset := {
  global : bool;
  ignoreCase : bool;
  multiline : bool;
  dotAll : bool;
  unicode : bool;
  sticky : bool
}.

Definition no_flags : flagset :=
  {| global := false; ignoreCase := false; multiline := false;
     dotAll := false; unicode := false; sticky := false |}.

(** The flags argument of the constructor: each of [gimsuy] at most once. *)
Fixpoint parse_flags (s : jsstring) (f : flagset) : option flagset :=
  match s with
  | [] => Some f
  | c :: t =>
      if (c =? ch "g")%N then
        if global f then None else
        parse_flags t {| global := true; ignoreCase := ignoreCase f;
                         multiline := multiline f; dotAll := dotAll f;
                         unicode := unicode f; sticky := sticky f |}
      else if (c =? ch "i")%N then
        if ignoreCase f then None else
        parse_flags t {| global := global f; ignoreCase := true;
                         multiline := multiline f; dotAll := dotAll f;
                         unicode := unicode f; sticky := sticky f |}
      else if (c =? ch "m")%N then
        if multiline f then None else
        parse_flags t {| global := global f; ignoreCase := ignoreCase f;
                         multiline := true; dotAll := dotAll f;
                         unicode := unicode f; sticky := sticky f |}
      else if (c =? ch "s")%N then
        if dotAll f then None else
        parse_flags t {| global := global f; ignoreCase := ignoreCase f;
                         multiline := multiline f; dotAll := true;
                         unicode := unicode f; sticky := sticky f |}
      else if (c =? ch "u")%N then
        if unicode f then None else
        parse_flags t {| global := global f; ignoreCase := ignoreCase f;
                         multiline := multiline f; dotAll := dotAll f;
                         unicode := true; sticky := sticky f |}
      else if (c =? ch "y")%N then
        if sticky f then None else
        parse_flags t {| global := global f; ignoreCase := ignoreCase f;
                         multiline := multiline f; dotAll := dotAll f;
                         unicode := unicode f; sticky := true |}
      else None
  end.

(** *** UTF-16 *)

Definition is_high (c : N) : bool := ((0xD800 <=? c) && (c <=? 0xDBFF))%N.
Definition is_low (c : N) : bool := ((0xDC00 <=? c) && (c <=? 0xDFFF))%N.

Definition pair_cp (h l : N) : N :=
  ((h - 0xD800) * 0x400 + (l - 0xDC00) + 0x10000)%N.

(** The code points of a string: a high surrogate followed by a low one is
    one code point, every other code unit stands for itself. *)
Fixpoint decode (s : jsstring) : list N :=
  match s with
  | [] => []
  | h :: t =>
      match t with
      | l :: t' => if is_high h && is_low l then pair_cp h l :: decode t'
                   else h :: decode t
      | [] => [h]
      end
  end.

Definition encode1 (c : N) : jsstring :=
  if (c <? 0x10000)%N then [c]
  else [(0xD800 + (c - 0x10000) / 0x400)%N;
        (0xDC00 + (c - 0x10000) mod 0x400)%N].

Definition encode (cs : list N) : jsstring := flat_map encode1 cs.

(** The characters a pattern is matched against: code points in unicode
    mode, code units otherwise. *)
Definition chars_of (u : bool) (s : jsstring) : list N :=
  if u then decode s else s.

Definition string_of (u : bool) (cs : list N) : jsstring :=
  if u then encode cs else cs.

(** *** Abstract syntax *)

Inductive regex :=
| Empty
| Chr (c : N)
| Any
| Cls (neg : bool) (rs : list (N * N))
| Bol
| Eol
| Seq (r1 r2 : regex)
| Alt (r1 r2 : regex)
| Rep (mn : nat) (mx : option nat) (greedy : bool) (r : regex)
| Grp (i : nat) (name : option jsstring) (r : regex).

Definition seq_ (r1 r2 : regex) : regex :=
  match r2 with Empty => r1 | _ => Seq r1 r2 end.

(** *** Pattern parser *)

Definition hexval (c : N) : option N :=
  if ((48 <=? c) && (c <=? 57))%N then Some (c - 48)%N
  else if ((97 <=? c) && (c <=? 102))%N then Some (c - 87)%N
  else if ((65 <=? c) && (c <=? 70))%N then Some (c - 55)%N
  else None.

Fixpoint parse_hex (n : nat) (acc : N) (s : list N) : option (N * list N) :=
  match n with
  | O => Some (acc, s)
  | S n' =>
      match s with
      | c :: t =>
          match hexval c with
          | Some v => parse_hex n' (acc * 16 + v)%N t
          | None => None
          end
      | [] => None
      end
  end.

(** The digits of [\u{...}] up to the closing brace. *)
Fixpoint parse_hex_braced (acc : N) (seen : bool) (s : list N)
  : option (N * list N) :=
  match s with
  | [] => None
  | c :: t =>
      if (c =? ch "}")%N then
        if seen && (acc <=? 0x10FFFF)%N then Some (acc, t) else None
      else
        match hexval c with
        | Some v =>
            if (acc <=? 0x10FFFF)%N
            then parse_hex_braced (acc * 16 + v)%N true t
            else None
        | None => None
        end
  end.

Definition is_syntax_char (c : N) : bool :=
  existsb (N.eqb c) (str "^$\.*+?()[]{}|/").

(** The character denoted by an escape; [s] is the text after the
    backslash. *)
Definition parse_escape (u in_class : bool) (s : list N)
  : option (N * list N) :=
  match s with
  | [] => None
  | c :: t =>
      if (c =? ch "x")%N then parse_hex 2 0 t
      else if (c =? ch "u")%N then
        match t with
        | d :: t' =>
            if (d =? ch "{")%N then
              if u then parse_hex_braced 0 false t' else None
            else
              match parse_hex 4 0 t with
              | Some (h, t1) =>
                  if u && is_high h then
                    match t1 with
                    | b :: c2 :: t2 =>
                        if ((b =? ch "\") && (c2 =? ch "u"))%N then
                          match parse_hex 4 0 t2 with
                          | Some (l, t3) =>
                              if is_low l then Some (pair_cp h l, t3)
                              else Some (h, t1)
                          | None => Some (h, t1)
                          end
                        else Some (h, t1)
                    | _ => Some (h, t1)
                    end
                  else Some (h, t1)
              | None => None
              end
        | [] => None
        end
      else if (c =? ch "t")%N then Some (9%N, t)
      else if (c =? ch "n")%N then Some (10%N, t)
      else if (c =? ch "v")%N then Some (11%N, t)
      else if (c =? ch "f")%N then Some (12%N, t)
      else if (c =? ch "r")%N then Some (13%N, t)
      else if is_syntax_char c then Some (c, t)
      else if (c =? ch "-")%N && (in_class || negb u) then Some (c, t)
      else None
  end.

Definition parse_class_atom (u : bool) (s : list N) : option (N * list N) :=
  match s with
  | [] => None
  | c :: t => if (c =? ch "\")%N then parse_escape u true t else Some (c, t)
  end.

(** The ranges of a class, up to and including the closing bracket.  A
    hyphen forms a range unless it is first, last, or follows a range. *)
Fixpoint parse_class_items (fuel : nat) (u : bool) (s : list N)
  (acc : list (N * N)) : option (list (N * N) * list N) :=
  match fuel with
  | O => None
  | S f =>
      match s with
      | [] => None
      | c :: t =>
          if (c =? ch "]")%N then Some (rev acc, t)
          else
            match parse_class_atom u s with
            | None => None
            | Some (a, s1) =>
                match s1 with
                | d :: e :: _ =>
                    if (d =? ch "-")%N && negb (e =? ch "]")%N then
                      match parse_class_atom u (tl s1) with
                      | Some (b, s3) =>
                          if (a <=? b)%N
                          then parse_class_items f u s3 ((a, b) :: acc)
                          else None
                      | None => None
                      end
                    else parse_class_items f u s1 ((a, a) :: acc)
                | _ => parse_class_items f u s1 ((a, a) :: acc)
                end
            end
      end
  end.

Definition parse_class (u : bool) (s : list N) : option (regex * list N) :=
  let '(neg, s') :=
    match s with
    | c :: t => if (c =? ch "^")%N then (true, t) else (false, s)
    | [] => (false, s)
    end in
  match parse_class_items (S (length s')) u s' [] with
  | Some (rs, rest) => Some (Cls neg rs, rest)
  | None => None
  end.

Definition is_id_char (c : N) : bool :=
  ((97 <=? c) && (c <=? 122) || (65 <=? c) && (c <=? 90)
   || (48 <=? c) && (c <=? 57) || (c =? ch "_") || (c =? ch "$"))%N.

(** The name of [(?<name>...)] up to the closing [>]. *)
Fixpoint parse_group_name (s acc : list N) : option (jsstring * list N) :=
  match s with
  | [] => None
  | c :: t =>
      if (c =? ch ">")%N then
        match rev acc with
        | [] => None
        | c0 :: _ =>
            if ((48 <=? c0) && (c0 <=? 57))%N then None
            else Some (rev acc, t)
        end
      else if is_id_char c then parse_group_name t (c :: acc)
      else None
  end.

(** An optional quantifier after an atom. *)
Definition parse_quantifier (a : regex) (s : list N) : regex * list N :=
  let lazy (mn : nat) (mx : option nat) (t : list N) :=
    match t with
    | q :: t' => if (q =? ch "?")%N then (Rep mn mx false a, t')
                 else (Rep mn mx true a, t)
    | [] => (Rep mn mx true a, t)
    end in
  match s with
  | c :: t =>
      if (c =? ch "*")%N then lazy 0 None t
      else if (c =? ch "+")%N then lazy 1 None t
      else if (c =? ch "?")%N then lazy 0 (Some 1) t
      else (a, s)
  | [] => (a, s)
  end.

(** Disjunction, alternative and term; [gi] numbers the capturing groups
    by their opening parenthesis. *)
Fixpoint parse_disjunction (fuel : nat) (u : bool) (s : list N) (gi : nat)
  {struct fuel} : option (regex * list N * nat) :=
  match fuel with
  | O => None
  | S f =>
      match parse_alternative f u s gi with
      | Some (r1, s1, g1) =>
          match s1 with
          | c :: s2 =>
              if (c =? ch "|")%N then
                match parse_disjunction f u s2 g1 with
                | Some (r2, s3, g2) => Some (Alt r1 r2, s3, g2)
                | None => None
                end
              else Some (r1, s1, g1)
          | [] => Some (r1, s1, g1)
          end
      | None => None
      end
  end
with parse_alternative (fuel : nat) (u : bool) (s : list N) (gi : nat)
  {struct fuel} : option (regex * list N * nat) :=
  match fuel with
  | O => None
  | S f =>
      match s with
      | [] => Some (Empty, s, gi)
      | c :: _ =>
          if ((c =? ch "|") || (c =? ch ")"))%N then Some (Empty, s, gi)
          else
            match parse_term f u s gi with
            | Some (r1, s1, g1) =>
                match parse_alternative f u s1 g1 with
                | Some (r2, s2, g2) => Some (seq_ r1 r2, s2, g2)
                | None => None
                end
            | None => None
            end
      end
  end
with parse_term (fuel : nat) (u : bool) (s : list N) (gi : nat)
  {struct fuel} : option (regex * list N * nat) :=
  match fuel with
  | O => None
  | S f =>
      let quantified (a : regex) (t : list N) (g : nat) :=
        let '(r, t') := parse_quantifier a t in Some (r, t', g) in
      let closing (r : regex) (t : list N) (g : nat) :=
        match t with
        | c :: t' => if (c =? ch ")")%N then quantified r t' g else None
        | [] => None
        end in
      match s with
      | [] => None
      | c :: t =>
          if (c =? ch "^")%N then Some (Bol, t, gi)
          else if (c =? ch "$")%N then Some (Eol, t, gi)
          else if (c =? ch ".")%N then quantified Any t gi
          else if (c =? ch "\")%N then
            match t with
            | d :: t' =>
                if (d =? ch "d")%N
                then quantified (Cls false [(48%N, 57%N)]) t' gi
                else
                  match parse_escape u false t with
                  | Some (v, t1) => quantified (Chr v) t1 gi
                  | None => None
                  end
            | [] => None
            end
          else if (c =? ch "[")%N then
            match parse_class u t with
            | Some (r, t1) => quantified r t1 gi
            | None => None
            end
          else if (c =? ch "(")%N then
            match t with
            | q :: t1 =>
                if (q =? ch "?")%N then
                  match t1 with
                  | k :: t2 =>
                      if (k =? ch ":")%N then
                        match parse_disjunction f u t2 gi with
                        | Some (r, t3, g) => closing r t3 g
                        | None => None
                        end
                      else if (k =? ch "<")%N then
                        match parse_group_name t2 [] with
                        | Some (name, t3) =>
                            match parse_disjunction f u t3 (S gi) with
                            | Some (r, t4, g) =>
                                closing (Grp gi (Some name) r) t4 g
                            | None => None
                            end
                        | None => None
                        end
                      else None
                  | [] => None
                  end
                else
                  match parse_disjunction f u t (S gi) with
                  | Some (r, t3, g) => closing (Grp gi None r) t3 g
                  | None => None
                  end
            | [] => None
            end
          else if ((c =? ch "*") || (c =? ch "+") || (c =? ch "?")
                   || (c =? ch "{") || (c =? ch ")") || (c =? ch "|"))%N
          then None
          else if ((c =? ch "]") || (c =? ch "}"))%N then
            if u then None else quantified (Chr c) t gi
          else quantified (Chr c) t gi
      end
  end.

(** The capturing groups of a pattern, in the order of their indices. *)
Fixpoint groups_of (r : regex) : list (nat * option jsstring) :=
  match r with
  | Seq r1 r2 | Alt r1 r2 => groups_of r1 ++ groups_of r2
  | Rep _ _ _ r' => groups_of r'
  | Grp i name r' => (i, name) :: groups_of r'
  | _ => []
  end.

Definition jsstring_eqb (a b : jsstring) : bool :=
  (length a =? length b)%nat && starts_with a b.

Fixpoint names_unique (ns : list jsstring) : bool :=
  match ns with
  | [] => true
  | n :: t => negb (existsb (jsstring_eqb n) t) && names_unique t
  end.

Definition group_names (r : regex) : list jsstring :=
  flat_map (fun g => match snd g with Some n => [n] | None => [] end)
           (groups_of r).

(** The syntax check of the constructor. *)
Definition parse (u : bool) (src : jsstring) : option regex :=
  let s := chars_of u src in
  match parse_disjunction (4 * length s + 8) u s 1 with
  | Some (r, [], _) => if names_unique (group_names r) then Some r else None
  | _ => None
  end.

End RegExpEngine.
Export RegExpEngine.

(** *** Matching

    The matcher follows the continuation-passing formulation of the
    language specification: [m r k x] matches [r] at state [x] and hands
    every end state to the continuation [k], in the order of backtracking
    priority, until [k] succeeds. *)

Module Matcher.

Record mstate := {
  pos : nat;                    (* characters consumed so far *)
  prev : option N;              (* the character before the position *)
  rest : list N;                (* the characters from the position on *)
  caps : list (nat * list N)    (* captures, most recent first *)
}.

Definition advance (x : mstate) (a : N) (t : list N) : mstate :=
  {| pos := S (pos x); prev := Some a; rest := t; caps := caps x |}.

Definition set_cap (x : mstate) (i : nat) (v : list N) : mstate :=
  {| pos := pos x; prev := prev x; rest := rest x;
     caps := (i, v) :: caps x |}.

Definition clear_caps (gs : list nat) (x : mstate) : mstate :=
  {| pos := pos x; prev := prev x; rest := rest x;
     caps := filter (fun c => negb (existsb (Nat.eqb (fst c)) gs))
                    (caps x) |}.

Fixpoint get_cap (i : nat) (cs : list (nat * list N)) : option (list N) :=
  match cs with
  | [] => None
  | (j, v) :: t => if (i =? j)%nat then Some v else get_cap i t
  end.

Definition in_ranges (rs : list (N * N)) (a : N) : bool :=
  existsb (fun r => (fst r <=? a)%N && (a <=? snd r)%N) rs.

Definition class_mem (neg : bool) (rs : list (N * N)) (a : N) : bool :=
  xorb neg (in_ranges rs a).

Definition is_line_terminator (c : N) : bool :=
  ((c =? 10) || (c =? 13) || (c =? 0x2028) || (c =? 0x2029))%N.

Definition at_line_start (fl : flagset) (x : mstate) : bool :=
  match prev x with
  | None => true
  | Some c => multiline fl && is_line_terminator c
  end.

Definition at_line_end (fl : flagset) (x : mstate) : bool :=
  match rest x with
  | [] => true
  | c :: _ => multiline fl && is_line_terminator c
  end.

Definition cont := mstate -> option mstate.

Definition orelse (a : option mstate) (b : unit -> option mstate)
  : option mstate :=
  match a with Some z => Some z | None => b tt end.

(** The loop of a quantifier over the matcher [body] of the quantified
    atom.  An iteration that consumes nothing is refused once the minimum
    is reached, so apart from the first [mn] iterations each one consumes a
    character, which bounds their number by the count [n]. *)
Fixpoint rep_loop (body : cont -> cont) (gs : list nat) (greedy : bool)
  (k : cont) (n mn : nat) (mx : option nat) (x : mstate) {struct n}
  : option mstate :=
  match mx with
  | Some O => k x
  | _ =>
      match n with
      | O => if (mn =? 0)%nat then k x else None
      | S n' =>
          let d := fun y =>
            if (mn =? 0)%nat && (pos y =? pos x)%nat then None
            else rep_loop body gs greedy k n' (Nat.pred mn)
                          (option_map Nat.pred mx) y in
          let xr := clear_caps gs x in
          if (mn =? 0)%nat then
            if greedy
            then orelse (body d xr) (fun _ => k x)
            else orelse (k x) (fun _ => body d xr)
          else body d xr
      end
  end.

Fixpoint m (fl : flagset) (r : regex) (k : cont) (x : mstate)
  {struct r} : option mstate :=
  match r with
  | Empty => k x
  | Chr c =>
      match rest x with
      | a :: t => if (a =? c)%N then k (advance x a t) else None
      | [] => None
      end
  | Any =>
      match rest x with
      | a :: t => if dotAll fl || negb (is_line_terminator a)
                  then k (advance x a t) else None
      | [] => None
      end
  | Cls neg rs =>
      match rest x with
      | a :: t => if class_mem neg rs a then k (advance x a t) else None
      | [] => None
      end
  | Bol => if at_line_start fl x then k x else None
  | Eol => if at_line_end fl x then k x else None
  | Seq r1 r2 => m fl r1 (m fl r2 k) x
  | Alt r1 r2 => orelse (m fl r1 k x) (fun _ => m fl r2 k x)
  | Grp i _ r' =>
      m fl r'
        (fun y => k (set_cap y i (firstn (pos y - pos x) (rest x)))) x
  | Rep mn mx greedy r' =>
      rep_loop (m fl r') (map fst (groups_of r')) greedy k
               (mn + length (rest x)) mn mx x
  end.

(** The first position, from [p] on, at which the pattern matches. *)
Fixpoint search (fl : flagset) (r : regex) (p : nat) (pv : option N)
  (rs : list N) {struct rs} : option (mstate * mstate) :=
  let x := {| pos := p; prev := pv; rest := rs; caps := [] |} in
  match m fl r Some x with
  | Some y => Some (x, y)
  | None =>
      if sticky fl then None
      else match rs with
           | [] => None
           | a :: t => search fl r (S p) (Some a) t
           end
  end.

End Matcher.
Export Matcher.

(** *** The object *)

Record RegExp := {
  source : jsstring;
  flags : flagset
}.

(** The [source] property does not give back the pattern text as it was
    passed to the constructor: the runtime escapes it so that it can stand
    between the slashes of a literal.  As Node's engine does it, a [/]
    outside a class gets a backslash, a line terminator is written as its
    escape (a backslash before it is dropped), and what follows any other
    backslash is copied as it stands; [in_class] tells whether an opening
    bracket has been seen since the last closing one. *)
Fixpoint escape_pattern (in_class : bool) (s : jsstring) : jsstring :=
  match s with
  | [] => []
  | c :: t =>
      if (c =? ch "\")%N then
        match t with
        | d :: t' =>
            if is_line_terminator d then escape_pattern in_class t
            else c :: d :: escape_pattern in_class t'
        | [] => [c]
        end
      else if (c =? ch "/")%N && negb in_class then
        ch "\" :: c :: escape_pattern in_class t
      else if (c =? ch "[")%N then c :: escape_pattern true t
      else if (c =? ch "]")%N then c :: escape_pattern false t
      else if (c =? 10)%N then str "\n" ++ escape_pattern in_class t
      else if (c =? 13)%N then str "\r" ++ escape_pattern in_class t
      else if (c =? 0x2028)%N then
        str "\u" ++ str "2028" ++ escape_pattern in_class t
      else if (c =? 0x2029)%N then
        str "\u" ++ str "2029" ++ escape_pattern in_class t
      else c :: escape_pattern in_class t
  end.

(** The value of [.source] for a pattern text: [(?:)] for the empty
    pattern, the escaped text otherwise. *)
Definition EscapeRegExpPattern (pattern : jsstring) : jsstring :=
  match pattern with
  | [] => str "(?:)"
  | _ => escape_pattern false pattern
  end.

(** Whether a text the parser has no tree for is a syntax error: it is
    when it stays inside the syntax of the model, that is, when it holds no
    brace, no escape other than a control escape or an escaped syntax
    character, and no group that opens with [(?] other than [(?:]. *)
Definition is_plain_escape (c : N) : bool :=
  existsb (N.eqb c) (str "tnvfr^$\.*+?()[]|/").

Fixpoint plain_syntax (s : jsstring) : bool :=
  match s with
  | [] => true
  | c :: t =>
      if ((c =? ch "{") || (c =? ch "}"))%N then false
      else if (c =? ch "\")%N then
        match t with
        | d :: t' => is_plain_escape d && plain_syntax t'
        | [] => false
        end
      else if (c =? ch "(")%N then
        match t with
        | q :: t' =>
            if (q =? ch "?")%N then
              match t' with
              | k :: t'' => (k =? ch ":")%N && plain_syntax t''
              | [] => false
              end
            else plain_syntax t
        | [] => true
        end
      else plain_syntax t
  end.

(** The flags [d] and [v] of newer engines are outside the model. *)
Definition plain_flags (s : jsstring) : bool :=
  negb (existsb (fun c => (c =? ch "d") || (c =? ch "v"))%N s).

(** [new RegExp(pattern, flags)]: the flags and the pattern are checked,
    and the [source] of the object is the escaped pattern text.  The
    escaped text denotes the same pattern, so [exec] below reads the
    pattern from [source]. *)
Definition RegExp_new (pattern flagstr : jsstring) : result RegExp :=
  match parse_flags flagstr no_flags with
  | None =>
      if plain_flags flagstr then Throw SyntaxError else Throw OutsideModel
  | Some fl =>
      match parse (unicode fl) pattern with
      | None =>
          if plain_syntax pattern then Throw SyntaxError
          else Throw OutsideModel
      | Some _ =>
          Ok {| source := EscapeRegExpPattern pattern; flags := fl |}
      end
  end.

(** A regular expression literal [/src/] of the program text.  Between the
    slashes of a literal nothing is left to escape, so its [source] is the
    text as written. *)
Definition RegExp_literal (src : jsstring) : RegExp :=
  {| source := src; flags := no_flags |}.

(** The result array of [exec]: [index], element [0], the numbered
    captures and the [groups] object. *)
Record match_result := {
  index : nat;
  matched : jsstring;
  captures : list (option jsstring);
  groups : list (jsstring * option jsstring)
}.

(** [re.exec(s)] on a pattern whose [lastIndex] is [0], without case
    folding. *)
Definition exec (re : RegExp) (s : jsstring) : option match_result :=
  let fl := flags re in
  let u := unicode fl in
  match parse u (source re) with
  | None => None
  | Some r =>
      let cs := chars_of u s in
      match search fl r 0 None cs with
      | None => None
      | Some (x, y) =>
          let cap i := option_map (string_of u) (get_cap i (caps y)) in
          Some {| index := length (string_of u (firstn (pos x) cs));
                  matched := string_of u
                               (firstn (pos y - pos x) (rest x));
                  captures := map (fun g => cap (fst g)) (groups_of r);
                  groups :=
                    flat_map (fun g =>
                                match snd g with
                                | Some n => [(n, cap (fst g))]
                                | None => []
                                end) (groups_of r) |}
      end
  end.

(** [re.test(s)]. *)
Definition test (re : RegExp) (s : jsstring) : bool :=
  match exec re s with Some _ => true | None => false end.

(** ** grammar.mjs *)

(** The [RegExp] class as [detectUnicodeSupport] uses it: a constructor
    that may throw and gives an object whose [exec] may throw. *)
Definition RegExpClass :=
  jsstring -> jsstring -> result (jsstring -> result (option match_result)).

(** The class of the runtime. *)
Definition RegExp_class : RegExpClass :=
  fun pattern flagstr =>
    re <- RegExp_new pattern flagstr ;;
    Ok (fun s => Ok (exec re s)).

(** U+1D306 as a string: one surrogate pair. *)
Definition probe_text : jsstring := [0xD834%N; 0xDF06%N].

(** [detectUnicodeSupport(RegExpImpl)]; [None] is an argument that is not a
    function, for which the runtime's class is taken. *)
Definition detectUnicodeSupport (RegExpImpl : option RegExpClass) : bool :=
  let body :=
    let impl := match RegExpImpl with
                | Some f => f
                | None => RegExp_class
                end in
    re <- impl probe_text (str "u") ;;
    mt <- re probe_text ;;
    Ok (match mt with
        | Some r => (length (matched r) =? 2)%nat
        | None => false
        end) in
  match body with
  | Ok b => b
  | Throw _ => false
  end.

Definition starts_with_bracket (s : jsstring) : bool :=
  match char0 s with
  | Some c => (c =? ch "[")%N
  | None => false
  end.

(** [chars(regexp)] *)
Definition chars (regexp : RegExp) : result jsstring :=
  if negb (starts_with_bracket (source regexp))
  then Throw (Error chars_not_a_class)
  else Ok (slice (source regexp) 1 (lastIndexOf (source regexp) (str "]"))).

(** An argument of [reg] or [regg]: a string or a pattern. *)
Inductive part :=
| PStr (s : jsstring)
| PRe (r : RegExp).

(** The value of [this] inside [reg], which its guard reads: [undefined]
    on a plain call [reg(...)] (the module is strict code), the function
    [regg] when called through [reg.apply(regg, ...)], and some other value
    when [reg] is called as a method, as in [grammar.reg(...)] on the
    imported module object. *)
Inductive receiver :=
| this_undefined
| this_regg
| this_other.

Section Algebra.

(** [UNICODE_SUPPORT = detectUnicodeSupport()], a property of the engine
    the module is loaded on. *)
Variable UNICODE_SUPPORT : bool.

(** [chars_without(regexp, search)] *)
Definition chars_without (regexp : RegExp) (search : value)
  : result RegExp :=
  if negb (starts_with_bracket (source regexp))
  then Throw (Error chars_without_not_a_class)
  else if negb (truthy search) || negb (is_string search)
  then Throw (Error invalid_search)
  else
    match search with
    | VString s =>
        if (indexOf (source regexp) s =? -1)%Z
        then Throw (Error search_not_in_source)
        else if jsstring_eqb s (str "-")
                && negb (indexOf (source regexp) s =? 1)%Z
        then Throw (Error hyphen_not_first)
        else RegExp_new (replace (source regexp) s [])
                        (if UNICODE_SUPPORT then str "u" else [])
    | _ => Throw (Error invalid_search)
    end.

(** The callback of [.map] in [reg]. *)
Definition part_text (self : receiver) (p : part) : result jsstring :=
  match p with
  | PStr s =>
      match self with
      | this_undefined =>
          if jsstring_eqb s (str "|") then Throw (Error use_regg) else Ok s
      | this_regg | this_other => Ok s
      end
  | PRe r => Ok (source r)
  end.

Fixpoint map_parts (self : receiver) (args : list part)
  : result (list jsstring) :=
  match args with
  | [] => Ok []
  | p :: t =>
      s <- part_text self p ;;
      ss <- map_parts self t ;;
      Ok (s :: ss)
  end.

Definition reg_flags : jsstring :=
  if UNICODE_SUPPORT then str "mu" else str "m".

(** The function [reg], with the value of [this] it is called with. *)
Definition reg_this (self : receiver) (args : list part) : result RegExp :=
  ss <- map_parts self args ;;
  RegExp_new (concat ss) reg_flags.

(** The plain call [reg(...args)], as the module writes it everywhere:
    [this] is [undefined]. *)
Definition reg (args : list part) : result RegExp :=
  reg_this this_undefined args.

(** [regg(...args)] *)
Definition regg (args : list part) : result RegExp :=
  match args with
  | [] => Throw (Error no_parameters)
  | _ => reg_this this_regg (PStr (str "(?:") :: args ++ [PStr (str ")")])
  end.

End Algebra.

(** *** Productions

    The production table, in the order of the module text.  A production
    is a [result]: it exists when the calls that build it raise nothing. *)

Module Grammar.

Section Productions.

Variable UNICODE_SUPPORT : bool.

Local Abbreviation reg := (reg UNICODE_SUPPORT).
Local Abbreviation regg := (regg UNICODE_SUPPORT).
Local Abbreviation chars_without := (chars_without UNICODE_SUPPORT).

Definition astral_range : jsstring := str "\u{10000}-\u{10FFFF}".

Definition Char : result RegExp :=
  let lit :=
    RegExp_literal
      (str "[-\x09\x0A\x0D\x20-\x2C\x2E-\uD7FF\uE000-\uFFFD]") in
  if UNICODE_SUPPORT then
    c <- chars lit ;;
    reg [PStr (str "["); PStr c; PStr astral_range; PStr (str "]")]
  else Ok lit.

Definition _SChar : RegExp := RegExp_literal (str "[\x20\x09\x0D\x0A]").
Definition SChar_s : result jsstring := chars _SChar.
Definition S : result RegExp := reg [PRe _SChar; PStr (str "+")].
Definition S_OPT : result RegExp := reg [PRe _SChar; PStr (str "*")].

Definition NameStartChar : result RegExp :=
  let lit :=
    RegExp_literal
      (str "[:_a-zA-Z\xC0-\xD6\xD8-\xF6\xF8-\u02FF\u0370-\u1FFF\u200C-\u200D\u2070-\u218F\u2C00-\u2FEF\u3001-\uD7FF\uF900-\uFDCF\uFDF0-\uFFFD]") in
  if UNICODE_SUPPORT then
    c <- chars lit ;;
    reg [PStr (str "["); PStr c; PStr astral_range; PStr (str "]")]
  else Ok lit.

Definition NameStartChar_s : result jsstring :=
  r <- NameStartChar ;; chars r.

Definition NameChar : result RegExp :=
  a <- NameStartChar_s ;;
  b <- chars (RegExp_literal (str "[-.0-9\xB7]")) ;;
  c <- chars (RegExp_literal (str "[\u0300-\u036F\u203F-\u2040]")) ;;
  reg [PStr (str "["); PStr a; PStr b; PStr c; PStr (str "]")].

Definition Name : result RegExp :=
  a <- NameStartChar ;;
  b <- NameChar ;;
  reg [PRe a; PRe b; PStr (str "*")].

Definition NCNameStartChar : result RegExp :=
  a <- NameStartChar ;; chars_without a (VString (str ":")).

Definition NCNameChar : result RegExp :=
  a <- NameChar ;; chars_without a (VString (str ":")).

Definition NCName : result RegExp :=
  a <- NCNameStartChar ;;
  b <- NCNameChar ;;
  reg [PRe a; PRe b; PStr (str "*")].

Definition QName : result RegExp :=
  n <- NCName ;;
  g <- regg [PStr (str ":"); PRe n] ;;
  reg [PRe n; PRe g; PStr (str "?")].

Definition QName_exact : result RegExp :=
  q <- QName ;; reg [PStr (str "^"); PRe q; PStr (str "$")].

Definition QName_group : result RegExp :=
  q <- QName ;; reg [PStr (str "("); PRe q; PStr (str ")")].

Definition SystemLiteral : result RegExp :=
  regg [PRe (RegExp_literal
               (DQ ++ str "[^" ++ DQ ++ str "]*" ++ DQ ++ str "|'[^']*'"))].

Definition PubidChar : RegExp :=
  RegExp_literal (str "[\x20\x0D\x0Aa-zA-Z0-9-'()+,./:=?;!*#@$_%]").

Definition PubidLiteral : result RegExp :=
  c <- chars_without PubidChar (VString (str "'")) ;;
  regg [PStr DQ; PRe PubidChar; PStr (str "*" ++ DQ); PStr (str "|");
        PStr (str "'"); PRe c; PStr (str "*'")].

Definition SYSTEM : jsstring := str "SYSTEM".
Definition PUBLIC : jsstring := str "PUBLIC".

Definition ExternalID : result RegExp :=
  s <- S ;;
  sl <- SystemLiteral ;;
  pl <- PubidLiteral ;;
  a <- regg [PStr SYSTEM; PRe s; PRe sl] ;;
  b <- regg [PStr PUBLIC; PRe s; PRe pl; PRe s; PRe sl] ;;
  regg [PRe a; PStr (str "|"); PRe b].

Definition ExternalID_match : result RegExp :=
  s <- S ;;
  sl <- SystemLiteral ;;
  pl <- PubidLiteral ;;
  a <- regg [PStr SYSTEM; PRe s; PStr (str "(?<SystemLiteralOnly>");
             PRe sl; PStr (str ")")] ;;
  b <- regg [PStr PUBLIC; PRe s; PStr (str "(?<PubidLiteral>"); PRe pl;
             PStr (str ")"); PRe s; PStr (str "(?<SystemLiteral>"); PRe sl;
             PStr (str ")")] ;;
  g <- regg [PRe a; PStr (str "|"); PRe b] ;;
  reg [PStr (str "^"); PRe g].

(** The remaining productions of the table. *)

Definition Nmtoken : result RegExp :=
  a <- NameChar ;; reg [PRe a; PStr (str "+")].

Definition EntityRef : result RegExp :=
  n <- Name ;; reg [PStr (str "&"); PRe n; PStr (str ";")].

Definition CharRef : result RegExp :=
  regg [PRe (RegExp_literal (str "&#[0-9]+;|&#x[0-9a-fA-F]+;"))].

Definition Reference : result RegExp :=
  e <- EntityRef ;; c <- CharRef ;; regg [PRe e; PStr (str "|"); PRe c].

Definition PEReference : result RegExp :=
  n <- Name ;; reg [PStr (str "%"); PRe n; PStr (str ";")].

Definition EntityValue : result RegExp :=
  pe <- PEReference ;;
  rf <- Reference ;;
  g1 <- regg [PRe (RegExp_literal (str "[^%&" ++ DQ ++ str "]"));
              PStr (str "|"); PRe pe; PStr (str "|"); PRe rf] ;;
  a <- reg [PStr DQ; PRe g1; PStr (str "*"); PStr DQ] ;;
  g2 <- regg [PRe (RegExp_literal (str "[^%&']"));
              PStr (str "|"); PRe pe; PStr (str "|"); PRe rf] ;;
  b <- reg [PStr (str "'"); PRe g2; PStr (str "*"); PStr (str "'")] ;;
  regg [PRe a; PStr (str "|"); PRe b].

Definition AttValue : result RegExp :=
  rf <- Reference ;;
  g1 <- regg [PRe (RegExp_literal (str "[^<&" ++ DQ ++ str "]"));
              PStr (str "|"); PRe rf] ;;
  g2 <- regg [PRe (RegExp_literal (str "[^<&']")); PStr (str "|"); PRe rf] ;;
  regg [PStr DQ; PRe g1; PStr (str "*"); PStr DQ; PStr (str "|");
        PStr (str "'"); PRe g2; PStr (str "*"); PStr (str "'")].

Definition PI : result RegExp :=
  n <- Name ;;
  s <- S ;;
  c <- Char ;;
  g <- regg [PRe s; PStr (str "("); PRe c; PStr (str "*?)")] ;;
  reg [PRe (RegExp_literal (str "^<\?")); PStr (str "("); PRe n;
       PStr (str ")"); PRe g; PStr (str "?");
       PRe (RegExp_literal (str "\?>"))].

Definition COMMENT_START : jsstring := str "<!--".
Definition COMMENT_END : jsstring := str "-->".

Definition Comment : result RegExp :=
  c <- Char ;;
  c1 <- chars_without c (VString (str "-")) ;;
  c2 <- chars_without c (VString (str "-")) ;;
  d <- reg [PStr (str "-"); PRe c2] ;;
  g <- regg [PRe c1; PStr (str "|"); PRe d] ;;
  reg [PStr COMMENT_START; PRe g; PStr (str "*"); PStr COMMENT_END].

Definition PCDATA : jsstring := str "#PCDATA".

Definition Mixed : result RegExp :=
  so <- S_OPT ;;
  q <- QName ;;
  g <- regg [PRe so; PRe (RegExp_literal (str "\|")); PRe so; PRe q] ;;
  a <- reg [PRe (RegExp_literal (str "\(")); PRe so; PStr PCDATA; PRe g;
            PStr (str "*"); PRe so; PRe (RegExp_literal (str "\)\*"))] ;;
  b <- reg [PRe (RegExp_literal (str "\(")); PRe so; PStr PCDATA; PRe so;
            PRe (RegExp_literal (str "\)"))] ;;
  regg [PRe a; PStr (str "|"); PRe b].

Definition _children_quantity : RegExp := RegExp_literal (str "[?*+]?").

Definition children : result RegExp :=
  reg [PRe (RegExp_literal (str "\([^>]+\)")); PRe _children_quantity].

Definition contentspec : result RegExp :=
  mx <- Mixed ;;
  ch <- children ;;
  regg [PStr (str "EMPTY"); PStr (str "|"); PStr (str "ANY"); PStr (str "|");
        PRe mx; PStr (str "|"); PRe ch].

Definition ELEMENTDECL_START : jsstring := str "<!ELEMENT".

Definition elementdecl : result RegExp :=
  s <- S ;;
  so <- S_OPT ;;
  q <- QName ;;
  pe <- PEReference ;;
  cs <- contentspec ;;
  g1 <- regg [PRe q; PStr (str "|"); PRe pe] ;;
  g2 <- regg [PRe cs; PStr (str "|"); PRe pe] ;;
  reg [PStr ELEMENTDECL_START; PRe s; PRe g1; PRe s; PRe g2; PRe so;
       PStr (str ">")].

Definition NotationType : result RegExp :=
  s <- S ;;
  so <- S_OPT ;;
  n <- Name ;;
  g <- regg [PRe so; PRe (RegExp_literal (str "\|")); PRe so; PRe n] ;;
  reg [PStr (str "NOTATION"); PRe s; PRe (RegExp_literal (str "\("));
       PRe so; PRe n; PRe g; PStr (str "*"); PRe so;
       PRe (RegExp_literal (str "\)"))].

Definition Enumeration : result RegExp :=
  so <- S_OPT ;;
  n <- Nmtoken ;;
  g <- regg [PRe so; PRe (RegExp_literal (str "\|")); PRe so; PRe n] ;;
  reg [PRe (RegExp_literal (str "\(")); PRe so; PRe n; PRe g;
       PStr (str "*"); PRe so; PRe (RegExp_literal (str "\)"))].

Definition EnumeratedType : result RegExp :=
  a <- NotationType ;; b <- Enumeration ;;
  regg [PRe a; PStr (str "|"); PRe b].

Definition AttType : result RegExp :=
  e <- EnumeratedType ;;
  regg [PRe (RegExp_literal
               (str "CDATA|ID|IDREF|IDREFS|ENTITY|ENTITIES|NMTOKEN|NMTOKENS"));
        PStr (str "|"); PRe e].

Definition DefaultDecl : result RegExp :=
  s <- S ;;
  av <- AttValue ;;
  f <- regg [PStr (str "#FIXED"); PRe s] ;;
  g <- regg [PRe f; PStr (str "?"); PRe av] ;;
  regg [PRe (RegExp_literal (str "#REQUIRED|#IMPLIED")); PStr (str "|");
        PRe g].

Definition AttDef : result RegExp :=
  s <- S ;;
  n <- Name ;;
  t <- AttType ;;
  d <- DefaultDecl ;;
  regg [PRe s; PRe n; PRe s; PRe t; PRe s; PRe d].

Definition ATTLIST_DECL_START : jsstring := str "<!ATTLIST".

Definition AttlistDecl : result RegExp :=
  s <- S ;;
  so <- S_OPT ;;
  n <- Name ;;
  d <- AttDef ;;
  reg [PStr ATTLIST_DECL_START; PRe s; PRe n; PRe d; PStr (str "*");
       PRe so; PStr (str ">")].

Definition NDataDecl : result RegExp :=
  s <- S ;;
  n <- Name ;;
  regg [PRe s; PStr (str "NDATA"); PRe s; PRe n].

Definition EntityDef : result RegExp :=
  ev <- EntityValue ;;
  x <- ExternalID ;;
  nd <- NDataDecl ;;
  g <- regg [PRe x; PRe nd; PStr (str "?")] ;;
  regg [PRe ev; PStr (str "|"); PRe g].

Definition ENTITY_DECL_START : jsstring := str "<!ENTITY".

Definition GEDecl : result RegExp :=
  s <- S ;;
  so <- S_OPT ;;
  n <- Name ;;
  d <- EntityDef ;;
  reg [PStr ENTITY_DECL_START; PRe s; PRe n; PRe s; PRe d; PRe so;
       PStr (str ">")].

Definition PEDef : result RegExp :=
  ev <- EntityValue ;;
  x <- ExternalID ;;
  regg [PRe ev; PStr (str "|"); PRe x].

Definition PEDecl : result RegExp :=
  s <- S ;;
  so <- S_OPT ;;
  n <- Name ;;
  d <- PEDef ;;
  reg [PStr ENTITY_DECL_START; PRe s; PStr (str "%"); PRe s; PRe n; PRe s;
       PRe d; PRe so; PStr (str ">")].

Definition EntityDecl : result RegExp :=
  a <- GEDecl ;; b <- PEDecl ;; regg [PRe a; PStr (str "|"); PRe b].

Definition PublicID : result RegExp :=
  s <- S ;;
  pl <- PubidLiteral ;;
  reg [PStr PUBLIC; PRe s; PRe pl].

Definition NotationDecl : result RegExp :=
  s <- S ;;
  so <- S_OPT ;;
  n <- Name ;;
  x <- ExternalID ;;
  pid <- PublicID ;;
  g <- regg [PRe x; PStr (str "|"); PRe pid] ;;
  reg [PStr (str "<!NOTATION"); PRe s; PRe n; PRe s; PRe g; PRe so;
       PStr (str ">")].

Definition Eq : result RegExp :=
  so <- S_OPT ;; reg [PRe so; PStr (str "="); PRe so].

Definition VersionNum : RegExp := RegExp_literal (str "1[.]\d+").

Definition VersionInfo : result RegExp :=
  s <- S ;;
  e <- Eq ;;
  g <- regg [PStr (str "'"); PRe VersionNum; PStr (str "'"); PStr (str "|");
             PStr DQ; PRe VersionNum; PStr DQ] ;;
  reg [PRe s; PStr (str "version"); PRe e; PRe g].

Definition EncName : RegExp := RegExp_literal (str "[A-Za-z][-A-Za-z0-9._]*").

Definition EncodingDecl : result RegExp :=
  s <- S ;;
  e <- Eq ;;
  g <- regg [PStr DQ; PRe EncName; PStr DQ; PStr (str "|");
             PStr (str "'"); PRe EncName; PStr (str "'")] ;;
  regg [PRe s; PStr (str "encoding"); PRe e; PRe g].

Definition SDDecl : result RegExp :=
  s <- S ;;
  e <- Eq ;;
  yn1 <- regg [PStr (str "yes"); PStr (str "|"); PStr (str "no")] ;;
  yn2 <- regg [PStr (str "yes"); PStr (str "|"); PStr (str "no")] ;;
  g <- regg [PStr (str "'"); PRe yn1; PStr (str "'"); PStr (str "|");
             PStr DQ; PRe yn2; PStr DQ] ;;
  regg [PRe s; PStr (str "standalone"); PRe e; PRe g].

Definition XMLDecl : result RegExp :=
  v <- VersionInfo ;;
  e <- EncodingDecl ;;
  sd <- SDDecl ;;
  so <- S_OPT ;;
  reg [PRe (RegExp_literal (str "^<\?xml")); PRe v; PRe e; PStr (str "?");
       PRe sd; PStr (str "?"); PRe so; PRe (RegExp_literal (str "\?>"))].

Definition CDATA_START : jsstring := str "<![CDATA[".
Definition CDATA_END : jsstring := str "]]>".
Definition CDStart : RegExp := RegExp_literal (str "<!\[CDATA\[").
Definition CDEnd : RegExp := RegExp_literal (str "\]\]>").

Definition CData : result RegExp :=
  c <- Char ;; reg [PRe c; PStr (str "*?"); PRe CDEnd].

Definition CDSect : result RegExp :=
  d <- CData ;; reg [PRe CDStart; PRe d].

(** Every production of the table, in the order of the module text. *)
Definition productions : list (result RegExp) :=
  [Char; Ok _SChar; S; S_OPT; NameStartChar; NameChar; Name; Nmtoken;
   EntityRef; CharRef; Reference; PEReference; EntityValue; AttValue;
   NCNameStartChar; NCNameChar; NCName; QName; QName_exact; QName_group;
   SystemLiteral; PI; Ok PubidChar; PubidLiteral; Comment; Mixed;
   Ok _children_quantity; children; contentspec; elementdecl; NotationType;
   Enumeration; EnumeratedType; AttType; DefaultDecl; AttDef; AttlistDecl;
   ExternalID; ExternalID_match; NDataDecl; EntityDef; GEDecl; PEDef;
   PEDecl; EntityDecl; PublicID; NotationDecl; Eq; Ok VersionNum;
   VersionInfo; Ok EncName; EncodingDecl; SDDecl; XMLDecl; Ok CDStart;
   Ok CDEnd; CData; CDSect].

End Productions.

End Grammar.

(** Matching against a production of the module, which exists only when
    the module loaded without an exception. *)
Definition exec_on (p : result RegExp) (s : jsstring)
  : result (option match_result) :=
  re <- p ;; Ok (exec re s).

Definition test_on (p : result RegExp) (s : jsstring) : result bool :=
  re <- p ;; Ok (test re s).

(** ** Notions used by the statements *)

(** [p] occurs verbatim in [s]. *)
Definition occurs (p s : jsstring) : Prop :=
  exists pre post, s = pre ++ p ++ post.

(** The text between the opening bracket and the last closing bracket of
    the source, which is what [chars] returns. *)
Definition class_body (re : RegExp) : jsstring :=
  slice (source re) 1 (lastIndexOf (source re) (str "]")).

(** A search token that is a non-empty string. *)
Definition nonempty_string (v : value) : Prop :=
  exists c s, v = VString (c :: s).

(** The text of an argument of [reg] when no check interferes. *)
Definition text_of (p : part) : jsstring :=
  match p with
  | PStr s => s
  | PRe r => source r
  end.

(** The flags every pattern made by [reg] and [regg] carries. *)
Definition composed_flags (u : bool) : flagset :=
  {| global := false; ignoreCase := false; multiline := true;
     dotAll := false; unicode := u; sticky := false |}.

(** The flags of the pattern made by [chars_without]. *)
Definition class_flags (u : bool) : flagset :=
  {| global := false; ignoreCase := false; multiline := false;
     dotAll := false; unicode := u; sticky := false |}.

(** The conditions as the specification words them, with the token looked
    up in the class body: the source does not start with the opening
    bracket, the token is empty or not a string, the token does not occur
    in the class body, or the token is the hyphen and is not the first
    character of the class body. *)
Definition stated_conditions (re : RegExp) (tok : value) : Prop :=
  starts_with_bracket (source re) = false
  \/ ~ nonempty_string tok
  \/ (exists s, tok = VString s /\ ~ occurs s (class_body re))
  \/ (tok = VString (str "-")
      /\ hd_error (class_body re) <> Some (ch "-")).

(** When [chars_without] raises one of its own errors: the source does not
    start with the opening bracket, the token is not a non-empty string,
    the token does not occur in the source, or the token is the hyphen and
    the character after the opening bracket is not a hyphen. *)
Definition usage_conditions (re : RegExp) (tok : value) : Prop :=
  starts_with_bracket (source re) = false
  \/ ~ nonempty_string tok
  \/ (exists s, tok = VString s /\ ~ occurs s (source re))
  \/ (tok = VString (str "-")
      /\ nth_error (source re) 1 <> Some (ch "-")).

(** *** The language of a pattern

    The words a pattern can consume, whatever surrounds them: assertions
    consume nothing and groups are transparent. *)
Fixpoint lang (r : regex) (w : list N) : Prop :=
  match r with
  | Empty | Bol | Eol => w = []
  | Chr c => w = [c]
  | Any => exists a, w = [a]
  | Cls neg rs => exists a, w = [a] /\ class_mem neg rs a = true
  | Seq r1 r2 => exists w1 w2, w = w1 ++ w2 /\ lang r1 w1 /\ lang r2 w2
  | Alt r1 r2 => lang r1 w \/ lang r2 w
  | Rep mn mx _ r' =>
      exists ws, w = concat ws /\ Forall (lang r') ws
                 /\ mn <= length ws
                 /\ match mx with
                    | Some j => length ws <= j
                    | None => True
                    end
  | Grp _ _ r' => lang r' w
  end.

(** The bounds of every quantifier are in order, as the syntax demands. *)
Fixpoint wf (r : regex) : bool :=
  match r with
  | Seq r1 r2 | Alt r1 r2 => wf r1 && wf r2
  | Rep mn mx _ r' =>
      match mx with Some j => (mn <=? j)%nat | None => true end && wf r'
  | Grp _ _ r' => wf r'
  | _ => true
  end.

(** The matcher [body] hands to its continuation only states reached by
    consuming a word of [P]. *)
Definition consumes (P : list N -> Prop) (body : cont -> cont) : Prop :=
  forall k x z, body k x = Some z ->
  exists w y, P w /\ rest x = w ++ rest y
              /\ pos y = pos x + length w /\ k y = Some z.

(** Every element is a 16-bit code unit. *)
Definition utf16 (s : jsstring) : Prop := Forall (fun c => (c < 0x10000)%N) s.

(** *** Committed matching

    [commits fl r x w tail cs]: at a state [x] whose input is [w] followed
    by [tail], the first end state [r] offers to any continuation is the
    one after [w], with captures [cs]. *)
Definition commits (fl : flagset) (r : regex) (x : mstate)
  (w tail : list N) (cs : list (nat * list N)) : Prop :=
  forall k : cont,
  exists y, pos y = pos x + length w /\ rest y = tail /\ caps y = cs
            /\ forall z, k y = Some z -> m fl r k x = Some z.

(** [r] commits to every word of its language, given that what follows
    satisfies [stop]; the captures depend on the word only. *)
Definition det (fl : flagset) (r : regex) (stop : list N -> Prop) : Prop :=
  forall w, lang r w ->
  forall cs0, exists cs,
  forall x tail, rest x = w ++ tail -> caps x = cs0 -> stop tail ->
                 commits fl r x w tail cs.

(** The result [exec] builds for a match of [w] at the start of the subject
    with captures [cs]. *)
Definition match_of (u : bool) (r : regex) (w : list N)
  (cs : list (nat * list N)) : match_result :=
  let cap i := option_map (string_of u) (get_cap i cs) in
  {| index := 0;
     matched := string_of u w;
     captures := map (fun g => cap (fst g)) (groups_of r);
     groups :=
       flat_map (fun g =>
                   match snd g with
                   | Some n => [(n, cap (fst g))]
                   | None => []
                   end) (groups_of r) |}.

(** The state [exec] starts from. *)
Definition start_state (cs : list N) : mstate :=
  {| pos := 0; prev := None; rest := cs; caps := [] |}.

(** The two external identifiers of the examples. *)
Definition system_example : jsstring :=
  str "SYSTEM " ++ DQ ++ str "http://example.org/x.dtd" ++ DQ.

Definition public_example : jsstring :=
  str "PUBLIC " ++ DQ ++ str "-//X//Y" ++ DQ ++ str " "
  ++ DQ ++ str "http://example.org/x.dtd" ++ DQ.

(** What follows a greedy run over a class must not continue the run. *)
Definition stop_cls (neg : bool) (rs : list (N * N)) (tail : list N) : Prop :=
  match tail with
  | [] => True
  | a :: _ => class_mem neg rs a = false
  end.

Definition no_stop (tail : list N) : Prop := True.

(** *** The syntax trees of [ExternalID] and [ExternalID_match] *)

Definition lit_then (s : jsstring) (r : regex) : regex :=
  fold_right (fun c acc => Seq (Chr c) acc) r s.

Definition quoted (q : N) (neg : bool) (rs : list (N * N)) : regex :=
  Seq (Chr q) (Seq (Rep 0 None true (Cls neg rs)) (Chr q)).

Definition S_ranges : list (N * N) :=
  [(32, 32); (9, 9); (13, 13); (10, 10)]%N.

Definition S_ast : regex := Rep 1 None true (Cls false S_ranges).

Definition SystemLiteral_ast : regex :=
  Alt (quoted 34 true [(34, 34)%N]) (quoted 39 true [(39, 39)%N]).

Definition PubidChar_tail : list (N * N) :=
  [(40, 40); (41, 41); (43, 43); (44, 44); (46, 46); (47, 47); (58, 58);
   (61, 61); (63, 63); (59, 59); (33, 33); (42, 42); (35, 35); (64, 64);
   (36, 36); (95, 95); (37, 37)]%N.

Definition PubidChar_head : list (N * N) :=
  [(32, 32); (13, 13); (10, 10); (97, 122); (65, 90); (48, 57);
   (45, 45)]%N.

Definition PubidChar_ranges : list (N * N) :=
  PubidChar_head ++ [(39, 39)%N] ++ PubidChar_tail.

Definition PubidChar_no_apostrophe : list (N * N) :=
  PubidChar_head ++ PubidChar_tail.

Definition PubidLiteral_ast : regex :=
  Alt (quoted 34 false PubidChar_ranges)
      (quoted 39 false PubidChar_no_apostrophe).

Definition ExternalID_ast : regex :=
  Alt (lit_then Grammar.SYSTEM (Seq S_ast SystemLiteral_ast))
      (lit_then Grammar.PUBLIC
         (Seq S_ast (Seq PubidLiteral_ast (Seq S_ast SystemLiteral_ast)))).

Definition ExternalID_match_body : regex :=
  Alt (lit_then Grammar.SYSTEM
         (Seq S_ast
              (Grp 1 (Some (str "SystemLiteralOnly")) SystemLiteral_ast)))
      (lit_then Grammar.PUBLIC
         (Seq S_ast
              (Seq (Grp 2 (Some (str "PubidLiteral")) PubidLiteral_ast)
                   (Seq S_ast
                        (Grp 3 (Some (str "SystemLiteral"))
                             SystemLiteral_ast))))).

Definition ExternalID_match_ast : regex := Seq Bol ExternalID_match_body.

(** *** The syntax tree of [NCName] *)

Definition NameStartChar_ranges (u : bool) : list (N * N) :=
  [(95, 95); (97, 122); (65, 90); (192, 214); (216, 246); (248, 767);
   (880, 8191); (8204, 8205); (8304, 8591); (11264, 12271);
   (12289, 55295); (63744, 64975); (65008, 65533)]%N
  ++ (if u then [(65536, 1114111)%N] else []).

Definition NameChar_extra : list (N * N) :=
  [(45, 45); (46, 46); (48, 57); (183, 183); (768, 879); (8255, 8256)]%N.

Definition NCName_ast (u : bool) : regex :=
  Seq (Cls false (NameStartChar_ranges u))
      (Rep 0 None true
           (Cls false (NameStartChar_ranges u ++ NameChar_extra))).

(** *** More notions and syntax trees *)

(** The white space of the grammar. *)
Definition white (c : N) : Prop :=
  c = 32%N \/ c = 9%N \/ c = 13%N \/ c = 10%N.

(** A production that was built and whose source the engine reads. *)
Definition usable (p : result RegExp) : bool :=
  match p with
  | Ok re =>
      match parse (unicode (flags re)) (source re) with
      | Some _ => true
      | None => false
      end
  | Throw _ => false
  end.

(** A non-empty text without the namespace separator. *)
Definition colon_free (x : jsstring) : Prop := x <> [] /\ ~ In (ch ":") x.

(** A literal in quotes: a quote, a text without that quote, the quote. *)
Definition quoted_literal (a : jsstring) : Prop :=
  exists q body, (q = 34 \/ q = 39)%N /\ a = q :: body ++ [q] /\ ~ In q body.

Definition S_OPT_ast : regex := Rep 0 None true (Cls false S_ranges).

Definition Name_ast (u : bool) : regex :=
  Seq (Cls false ((58, 58)%N :: NameStartChar_ranges u))
      (Rep 0 None true
           (Cls false ((58, 58)%N :: NameStartChar_ranges u
                       ++ NameChar_extra))).

Definition QName_ast (u : bool) : regex :=
  Seq (Cls false (NameStartChar_ranges u))
      (Seq (Rep 0 None true
                (Cls false (NameStartChar_ranges u ++ NameChar_extra)))
           (Rep 0 (Some 1) true (Seq (Chr 58) (NCName_ast u)))).

Definition Char_no_hyphen (u : bool) : list (N * N) :=
  [(9, 9); (10, 10); (13, 13); (32, 44); (46, 55295); (57344, 65533)]%N
  ++ (if u then [(65536, 1114111)%N] else []).

Definition Comment_ast (u : bool) : regex :=
  lit_then Grammar.COMMENT_START
    (Seq (Rep 0 None true
              (Alt (Cls false (Char_no_hyphen u))
                   (Seq (Chr 45) (Cls false (Char_no_hyphen u)))))
         (Seq (Chr 45) (Seq (Chr 45) (Chr 62)))).

Definition CDSect_ast (u : bool) : regex :=
  lit_then Grammar.CDATA_START
    (Seq (Rep 0 None false (Cls false ((45, 45)%N :: Char_no_hyphen u)))
         (Seq (Chr 93) (Seq (Chr 93) (Chr 62)))).

(** Code points that are not surrogates. *)
Definition scalar_ranges : list (N * N) :=
  [(0, 0xD7FF); (0xE000, 0x10FFFF)]%N.

(** [rs] lies within [rs']: every range of [rs] is inside one of [rs']. *)
Definition ranges_within (rs rs' : list (N * N)) : bool :=
  forallb (fun r =>
             existsb (fun r' => (fst r' <=? fst r)%N && (snd r <=? snd r')%N)
                     rs') rs.

(** A piece of a comment body: an optional hyphen, then characters that
    are not hyphens, at least one. *)
Definition comment_piece_spec (y : jsstring) : Prop :=
  exists h y', y = h ++ y' /\ (h = [] \/ h = [45%N])
               /\ y' <> [] /\ ~ In 45%N y'.

(** *** The captures of a word

    [langc r w cs]: [w] is a word of [r] and matching it sets the captures
    [cs], the most recent first.  Patterns with a group inside a quantifier
    are left out: no word is related to them. *)
Fixpoint langc (r : regex) (w : list N) (cs : list (nat * list N)) : Prop :=
  match r with
  | Seq r1 r2 =>
      exists w1 w2 c1 c2,
        w = w1 ++ w2 /\ cs = c2 ++ c1 /\ langc r1 w1 c1 /\ langc r2 w2 c2
  | Alt r1 r2 => langc r1 w cs \/ langc r2 w cs
  | Grp i _ r' => exists cs', cs = (i, w) :: cs' /\ langc r' w cs'
  | _ => cs = [] /\ lang r w
  end.

(** No quantifier of the pattern holds a group. *)
Fixpoint rep_group_free (r : regex) : bool :=
  match r with
  | Seq r1 r2 | Alt r1 r2 => rep_group_free r1 && rep_group_free r2
  | Grp _ _ r' => rep_group_free r'
  | Rep _ _ _ r' =>
      match groups_of r' with [] => rep_group_free r' | _ => false end
  | _ => true
  end.

(** The matcher [body] hands to its continuation only states reached by
    consuming a word and setting captures related by [P]. *)
Definition consumes_c (P : list N -> list (nat * list N) -> Prop)
  (body : cont -> cont) : Prop :=
  forall k x z, body k x = Some z ->
  exists w y cs, P w cs /\ rest x = w ++ rest y
                 /\ pos y = pos x + length w
                 /\ caps y = cs ++ caps x /\ k y = Some z.

(** The captures and the [groups] object [exec] builds from [cs]. *)
Definition captures_of (u : bool) (r : regex) (cs : list (nat * list N))
  : list (option jsstring) :=
  map (fun g => option_map (string_of u) (get_cap (fst g) cs)) (groups_of r).

Definition groups_from (u : bool) (r : regex) (cs : list (nat * list N))
  : list (jsstring * option jsstring) :=
  flat_map (fun g =>
              match snd g with
              | Some n => [(n, option_map (string_of u) (get_cap (fst g) cs))]
              | None => []
              end) (groups_of r).

(** *** Attribute and entity values *)

(** The pattern can never consume the character [c]. *)
Fixpoint never (c : N) (r : regex) : bool :=
  match r with
  | Empty | Bol | Eol => true
  | Chr a => negb (a =? c)%N
  | Any => false
  | Cls neg rs => negb (class_mem neg rs c)
  | Seq r1 r2 | Alt r1 r2 => never c r1 && never c r2
  | Rep _ _ _ r' | Grp _ _ r' => never c r'
  end.

Definition quoted_by (q : N) (r : regex) : regex :=
  Seq (Chr q) (Seq (Rep 0 None true r) (Chr q)).

(** A name and the semicolon that ends a reference. *)
Definition reference_tail (u : bool) : regex :=
  Seq (Cls false ((58, 58)%N :: NameStartChar_ranges u))
      (Seq (Rep 0 None true
                (Cls false ((58, 58)%N :: NameStartChar_ranges u
                            ++ NameChar_extra)))
           (Chr 59)).

Definition Reference_ast (u : bool) : regex :=
  Alt (Seq (Chr 38) (reference_tail u))
      (Alt (Seq (Chr 38)
                (Seq (Chr 35)
                     (Seq (Rep 1 None true (Cls false [(48, 57)%N]))
                          (Chr 59))))
           (Seq (Chr 38)
                (Seq (Chr 35)
                     (Seq (Chr 120)
                          (Seq (Rep 1 None true
                                    (Cls false
                                         [(48, 57); (97, 102); (65, 70)]%N))
                               (Chr 59)))))).

Definition PEReference_ast (u : bool) : regex :=
  Seq (Chr 37) (reference_tail u).

Definition AttValue_piece (u : bool) (q : N) : regex :=
  Alt (Cls true [(60, 60); (38, 38); (q, q)]%N) (Reference_ast u).

Definition AttValue_ast (u : bool) : regex :=
  Alt (quoted_by 34 (AttValue_piece u 34))
      (quoted_by 39 (AttValue_piece u 39)).

Definition EntityValue_piece (u : bool) (q : N) : regex :=
  Alt (Cls true [(37, 37); (38, 38); (q, q)]%N)
      (Alt (PEReference_ast u) (Reference_ast u)).

Definition EntityValue_ast (u : bool) : regex :=
  Alt (quoted_by 34 (EntityValue_piece u 34))
      (quoted_by 39 (EntityValue_piece u 39)).

(** The productions whose pattern begins with the assertion [^]. *)
Definition anchored_productions (u : bool) : list (result RegExp) :=
  [Grammar.QName_exact u; Grammar.PI u; Grammar.ExternalID_match u;
   Grammar.XMLDecl u].

(** ** Strings *)

Section StringFacts.

Lemma starts_with_app (p post : jsstring) : starts_with p (p ++ post) = true.
Proof.
  induction p as [|a p IH]; simpl; [reflexivity|].
  now rewrite N.eqb_refl, IH.
Qed.

Lemma starts_with_inv (p s : jsstring) :
  starts_with p s = true -> exists post, s = p ++ post.
Proof.
  revert s; induction p as [|a p IH]; intros s H.
  - now exists s.
  - destruct s as [|b s]; simpl in H; [discriminate|].
    apply andb_true_iff in H as [Hab Hp].
    apply N.eqb_eq in Hab; subst b.
    destruct (IH _ Hp) as [post ->]. now exists post.
Qed.

Lemma jsstring_eqb_eq (a b : jsstring) : jsstring_eqb a b = true <-> a = b.
Proof.
  unfold jsstring_eqb; split.
  - intros H. apply andb_true_iff in H as [Hl Hs].
    apply Nat.eqb_eq in Hl.
    destruct (starts_with_inv _ _ Hs) as [post ->].
    rewrite length_app in Hl.
    destruct post; [now rewrite app_nil_r | simpl in Hl; lia].
  - intros ->. rewrite Nat.eqb_refl. simpl.
    rewrite <- (app_nil_r b) at 2. apply starts_with_app.
Qed.

Lemma indexOf_from_range (s p : jsstring) (i : Z) :
  indexOf_from i s p = (-1)%Z \/ (i <= indexOf_from i s p)%Z.
Proof.
  revert i; induction s as [|a s IH]; intros i; simpl.
  - destruct (starts_with p []); [right; lia | now left].
  - destruct (starts_with p (a :: s)); [right; lia|].
    destruct (IH (i + 1)%Z) as [->|H]; [now left | right; lia].
Qed.

(** [indexOf] answers [-1] exactly when the text does not occur. *)
Lemma indexOf_from_absent (s p : jsstring) (i : Z) :
  (0 <= i)%Z -> (indexOf_from i s p = (-1)%Z <-> ~ occurs p s).
Proof.
  revert i; induction s as [|a s IH]; intros i Hi; simpl.
  - destruct (starts_with p []) eqn:E.
    + split; [lia|]. intros H; exfalso; apply H.
      destruct (starts_with_inv _ _ E) as [post Hp].
      exists [], post. exact Hp.
    + split; [|reflexivity]. intros _ (pre & post & H).
      destruct pre; [|discriminate].
      simpl in H. rewrite H, starts_with_app in E. discriminate.
  - destruct (starts_with p (a :: s)) eqn:E.
    + split; [lia|]. intros H; exfalso; apply H.
      destruct (starts_with_inv _ _ E) as [post Hp].
      exists [], post. exact Hp.
    + rewrite (IH (i + 1)%Z) by lia. split.
      * intros H (pre & post & Hs). destruct pre as [|b pre].
        -- simpl in Hs. rewrite Hs, starts_with_app in E. discriminate.
        -- injection Hs as _ Hs. apply H. now exists pre, post.
      * intros H (pre & post & Hs). apply H.
        exists (a :: pre), post. now rewrite Hs.
Qed.

Lemma indexOf_absent (s p : jsstring) :
  indexOf s p = (-1)%Z <-> ~ occurs p s.
Proof. apply indexOf_from_absent; lia. Qed.

(** In a source that starts with the opening bracket, the first hyphen is
    at index 1 exactly when it is the character after the bracket. *)
Lemma indexOf_hyphen_first (s : jsstring) :
  starts_with_bracket s = true ->
  (indexOf s (str "-") = 1%Z <-> nth_error s 1 = Some (ch "-")).
Proof.
  destruct s as [|a s]; [discriminate|].
  unfold starts_with_bracket; cbn [char0 hd_error].
  intros Ha. apply N.eqb_eq in Ha; subst a.
  destruct s as [|b s].
  - vm_compute. split; discriminate.
  - unfold indexOf. cbn -[N.eqb].
    change (45 =? 91)%N with false. cbn [andb].
    destruct (N.eqb_spec 45 b) as [<-|Hb]; cbn [andb].
    + split; reflexivity.
    + split.
      * intros H.
        destruct (indexOf_from_range s [45%N] 2) as [H'|H']; lia.
      * intros [= E]. now contradiction Hb.
Qed.

Lemma firstn_exact (A : Type) (a b : list A) :
  firstn (length a) (a ++ b) = a.
Proof.
  now rewrite firstn_app, Nat.sub_diag, firstn_all, firstn_O, app_nil_r.
Qed.

Lemma lastIndexOf_from_last (x : jsstring) (c : N) (i best : Z) :
  lastIndexOf_from i best (x ++ [c]) [c] = (i + Z.of_nat (length x))%Z.
Proof.
  revert i best; induction x as [|a x IH]; intros i best.
  - simpl. rewrite N.eqb_refl. simpl. lia.
  - cbn [app lastIndexOf_from length]. rewrite IH. lia.
Qed.

End StringFacts.

(** ** The constructor *)

Section Constructor.

Lemma RegExp_new_not_usage (p f : jsstring) :
  is_usage_error (RegExp_new p f) = false.
Proof.
  unfold RegExp_new.
  destruct (parse_flags f no_flags) as [fl|];
    [|now destruct (plain_flags f)].
  destruct (parse (unicode fl) p); [reflexivity|].
  now destruct (plain_syntax p).
Qed.

Lemma RegExp_new_flags (p f : jsstring) (r : RegExp) :
  RegExp_new p f = Ok r -> parse_flags f no_flags = Some (flags r).
Proof.
  unfold RegExp_new.
  destruct (parse_flags f no_flags) as [fl|];
    [|now destruct (plain_flags f)].
  destruct (parse (unicode fl) p); [|now destruct (plain_syntax p)].
  now intros [= <-].
Qed.

Lemma reg_flags_parse (u : bool) :
  parse_flags (reg_flags u) no_flags = Some (composed_flags u).
Proof. destruct u; reflexivity. Qed.

Lemma class_flags_parse (u : bool) :
  parse_flags (if u then str "u" else []) no_flags = Some (class_flags u).
Proof. destruct u; reflexivity. Qed.

End Constructor.

(** ** Character-class algebra *)

Section ClassAlgebra.

Lemma slice_interior (X : jsstring) (a b : N) :
  slice (a :: X ++ [b]) 1 (1 + Z.of_nat (length X)) = X.
Proof.
  unfold slice.
  assert (L : Z.of_nat (length (a :: X ++ [b]))
              = (Z.of_nat (length X) + 2)%Z).
  { cbn [length]. rewrite length_app. cbn [length]. lia. }
  rewrite L.
  change (1 <? 0)%Z with false. cbv iota.
  destruct (Z.ltb_spec (1 + Z.of_nat (length X)) 0) as [H|_]; [lia|].
  rewrite Z.min_l by lia. rewrite Z.min_l by lia.
  replace (Z.to_nat (1 + Z.of_nat (length X) - 1)) with (length X) by lia.
  change (Z.to_nat 1) with 1%nat. cbn [skipn].
  rewrite firstn_app, Nat.sub_diag, firstn_all, firstn_O.
  apply app_nil_r.
Qed.

(** C3. [chars] is a left inverse of class construction: on a pattern
    whose source is an opening bracket, an interior [X] and a closing
    bracket it returns exactly [X], whatever [X] is; on a pattern whose
    source does not start with the opening bracket it raises its usage
    error. *)
Theorem chars_left_inverse :
  (forall (X : jsstring) (fl : flagset),
      chars {| source := str "[" ++ X ++ str "]"; flags := fl |} = Ok X)
  /\ (forall re : RegExp,
         char0 (source re) <> Some (ch "[") ->
         chars re = Throw (Error chars_not_a_class)).
Proof.
  split.
  - intros X fl. unfold chars. cbn [source].
    change (str "[" ++ X ++ str "]") with (ch "[" :: X ++ [ch "]"]).
    change (str "]") with [ch "]"].
    change (starts_with_bracket (ch "[" :: X ++ [ch "]"])) with true.
    cbn [negb]. f_equal.
    unfold lastIndexOf. cbn [lastIndexOf_from].
    rewrite lastIndexOf_from_last.
    change (0 + 1)%Z with 1%Z. apply slice_interior.
  - intros re H. unfold chars, starts_with_bracket.
    destruct (char0 (source re)) as [c|]; [|reflexivity].
    destruct (N.eqb_spec c (ch "[")) as [->|_]; [|reflexivity].
    now contradiction H.
Qed.

Lemma chars_left_inverse_witness :
  chars (RegExp_literal (str "abc")) = Throw (Error chars_not_a_class).
Proof.
  apply (proj2 chars_left_inverse). vm_compute. discriminate.
Defined.

(** A pattern returned by [chars_without] comes from the constructor. *)
Lemma chars_without_constructs (u : bool) (re : RegExp) (tok : value)
  (r : RegExp) :
  chars_without u re tok = Ok r ->
  exists s, tok = VString s
            /\ RegExp_new (replace (source re) s [])
                          (if u then str "u" else []) = Ok r.
Proof.
  unfold chars_without.
  destruct (negb (starts_with_bracket (source re))); [discriminate|].
  destruct (negb (truthy tok) || negb (is_string tok)); [discriminate|].
  destruct tok as [| | | |s|]; try discriminate.
  destruct (indexOf (source re) s =? -1)%Z; [discriminate|].
  destruct (jsstring_eqb s (str "-") && _); [discriminate|].
  intros H. now exists s.
Qed.

(** C1, the claim as stated fails.  The token [+] does not occur in the
    class body [ab] of [/[ab]+/], so the stated conditions hold, yet
    [chars_without] raises nothing and returns [/[ab]/]: it looks for the
    token in the whole source.  And for [/[c-ea]/] and the token [e] none
    of the stated conditions holds, yet no pattern is returned: what is left
    holds the range [c-a], which is out of order, and the constructor
    raises a syntax error. *)
Lemma chars_without_searches_whole_source :
  let re := RegExp_literal (str "[ab]+") in
  let re' := RegExp_literal (str "[c-ea]") in
  (stated_conditions re (VString (str "+"))
   /\ chars_without true re (VString (str "+"))
      = Ok {| source := str "[ab]"; flags := class_flags true |}
   /\ chars_without false re (VString (str "+"))
      = Ok {| source := str "[ab]"; flags := class_flags false |})
  /\ (~ stated_conditions re' (VString (str "e"))
      /\ chars_without true re' (VString (str "e")) = Throw SyntaxError
      /\ chars_without false re' (VString (str "e")) = Throw SyntaxError).
Proof.
  cbv zeta. split; (split; [|split; reflexivity]).
  - right; right; left. exists (str "+"). split; [reflexivity|].
    apply indexOf_absent. reflexivity.
  - intros [H|[H|[H|H]]].
    + discriminate.
    + apply H. now exists (ch "e"), [].
    + destruct H as (s0 & [= <-] & H). apply H.
      now exists (str "c-"), (str "a").
    + destruct H as [H _]. discriminate.
Qed.

(** C1, amended.  [chars_without] raises a usage error exactly under
    [usage_conditions]: the source does not start with the opening
    bracket; the token is empty or not a string; the token does not occur
    verbatim in the source of the pattern; or the token is the hyphen and
    is not the character right after the opening bracket.  On every other
    input it raises no usage error and returns what the constructor makes
    of the source with the first occurrence of the token removed. *)
Theorem chars_without_usage_errors (u : bool) (re : RegExp) (tok : value) :
  (usage_conditions re tok ->
   is_usage_error (chars_without u re tok) = true)
  /\ (~ usage_conditions re tok ->
      exists s, tok = VString s
        /\ chars_without u re tok
           = RegExp_new (replace (source re) s [])
                        (if u then str "u" else [])
        /\ is_usage_error (chars_without u re tok) = false).
Proof.
  unfold chars_without.
  destruct (starts_with_bracket (source re)) eqn:B; cbn [negb].
  2:{ split; [reflexivity|]. intros H; exfalso; apply H; now left. }
  assert (D : forall e : usage, forall v,
              (forall c s, v <> VString (c :: s)) ->
              (usage_conditions re v ->
               is_usage_error (@Throw RegExp (Error e)) = true)
              /\ (~ usage_conditions re v ->
                  exists s, v = VString s
                    /\ @Throw RegExp (Error e)
                       = RegExp_new (replace (source re) s [])
                                    (if u then str "u" else [])
                    /\ is_usage_error (@Throw RegExp (Error e)) = false)).
  { intros e v Hv. split; [reflexivity|].
    intros H; exfalso; apply H; right; left.
    intros (c & s & E). exact (Hv c s E). }
  destruct tok as [| |b|n|s|].
  1-4, 6: cbn [is_string negb]; rewrite orb_true_r;
          apply D; intros; discriminate.
  destruct s as [|c s]; [apply D; intros; discriminate|].
  cbn [truthy is_string negb orb].
  destruct (Z.eqb_spec (indexOf (source re) (c :: s)) (-1)) as [E|E].
  { split; [reflexivity|]. intros H; exfalso; apply H.
    right; right; left. exists (c :: s). split; [reflexivity|].
    now apply indexOf_absent. }
  destruct (jsstring_eqb (c :: s) (str "-")) eqn:J; cbn [andb].
  - apply jsstring_eqb_eq in J. rewrite J in *.
    destruct (Z.eqb_spec (indexOf (source re) (str "-")) 1) as [E1|E1];
      cbn [negb].
    + split.
      * intros [H|[H|[H|H]]]; exfalso.
        -- congruence.
        -- apply H. now exists 45%N, [].
        -- destruct H as (s' & [= <-] & H). now apply indexOf_absent in H.
        -- destruct H as [_ H]. apply H. now apply indexOf_hyphen_first.
      * intros _. exists (str "-"). repeat split.
        apply RegExp_new_not_usage.
    + split; [reflexivity|]. intros H; exfalso; apply H.
      right; right; right. split; [reflexivity|].
      intros H1. apply E1. now apply indexOf_hyphen_first.
  - split.
    + intros [H|[H|[H|H]]]; exfalso.
      * congruence.
      * apply H. now exists c, s.
      * destruct H as (s' & [= <-] & H). now apply indexOf_absent in H.
      * destruct H as [[= -> ->] _]. discriminate.
    + intros _. exists (c :: s). repeat split.
      apply RegExp_new_not_usage.
Qed.

Lemma chars_without_usage_errors_witness :
  is_usage_error
    (chars_without true (RegExp_literal (str "[a-z]")) (VString (str "-")))
  = true
  /\ exists s, VString (str "a") = VString s
       /\ chars_without true (RegExp_literal (str "[-az]")) (VString (str "a"))
          = RegExp_new (replace (str "[-az]") s []) (str "u")
       /\ is_usage_error
            (chars_without true (RegExp_literal (str "[-az]"))
                           (VString (str "a"))) = false.
Proof.
  split.
  - apply (proj1 (chars_without_usage_errors true
                    (RegExp_literal (str "[a-z]")) (VString (str "-")))).
    right; right; right. split; [reflexivity|]. vm_compute. discriminate.
  - apply (proj2 (chars_without_usage_errors true
                    (RegExp_literal (str "[-az]")) (VString (str "a")))).
    intros [H|[H|[H|H]]].
    + vm_compute in H. discriminate.
    + apply H. now exists (ch "a"), [].
    + destruct H as (s & [= <-] & H). apply indexOf_absent in H.
      vm_compute in H. discriminate.
    + destruct H as [H _]. vm_compute in H. discriminate.
Defined.

End ClassAlgebra.

(** ** Pattern composition *)

Section Composition.

Variable u : bool.

Lemma map_parts_regg (args : list part) :
  map_parts this_regg args = Ok (map text_of args).
Proof.
  induction args as [|[s|r] args IH]; cbn; [reflexivity| |];
    now rewrite IH.
Qed.

Lemma map_parts_unguarded (self : receiver) (args : list part) :
  self <> this_undefined -> map_parts self args = Ok (map text_of args).
Proof.
  intros N. destruct self; [contradiction| |];
    (induction args as [|[s|r] args IH]; cbn; [reflexivity| |];
     now rewrite IH).
Qed.

Lemma map_parts_plain (args : list part) :
  (forall s, In (PStr s) args -> s <> str "|") ->
  map_parts this_undefined args = Ok (map text_of args).
Proof.
  induction args as [|p args IH]; intros H; [reflexivity|].
  cbn [map_parts map]. rewrite IH by (intros s Hs; apply H; now right).
  destruct p as [s|r]; cbn [part_text bind text_of]; [|reflexivity].
  destruct (jsstring_eqb s (str "|")) eqn:E; [|reflexivity].
  apply jsstring_eqb_eq in E. exfalso. apply (H s); [now left | exact E].
Qed.

Lemma map_parts_bar (args : list part) :
  In (PStr (str "|")) args ->
  map_parts this_undefined args = Throw (Error use_regg).
Proof.
  induction args as [|p args IH]; intros H; [contradiction|].
  cbn [map_parts].
  destruct H as [->|H]; [reflexivity|].
  rewrite (IH H).
  destruct p as [s|r]; cbn [part_text bind]; [|reflexivity].
  destruct (jsstring_eqb s (str "|")); reflexivity.
Qed.

Lemma concat_wrapped (a b : jsstring) (l : list part) :
  concat (map text_of (PStr a :: l ++ [PStr b]))
  = a ++ concat (map text_of l) ++ b.
Proof.
  cbn [map concat text_of]. rewrite map_app, concat_app.
  cbn [map concat text_of]. now rewrite app_nil_r.
Qed.

Lemma reg_this_flags (self : receiver) (args : list part) (r : RegExp) :
  reg_this u self args = Ok r -> flags r = composed_flags u.
Proof.
  unfold reg_this.
  destruct (map_parts self args) as [ss|e]; [|discriminate].
  cbn [bind]. intros H. apply RegExp_new_flags in H.
  rewrite reg_flags_parse in H. now injection H.
Qed.

(** C5, the claim as stated fails on both sides.  The guard of [reg]
    reads [this]: called as a method, as in [grammar.reg('a', '|', 'b')] on
    the imported module object, [reg] takes the alternation operator and
    returns the pattern [a|b].  And [regg] does not take every such
    argument without error: for [(] and [|] the constructor raises a syntax
    error. *)
Lemma reg_guard_reads_receiver :
  reg_this true this_other [PStr (str "a"); PStr (str "|"); PStr (str "b")]
  = Ok {| source := str "a|b"; flags := composed_flags true |}
  /\ reg_this false this_other
       [PStr (str "a"); PStr (str "|"); PStr (str "b")]
     = Ok {| source := str "a|b"; flags := composed_flags false |}
  /\ regg true [PStr (str "("); PStr (str "|")] = Throw SyntaxError
  /\ regg false [PStr (str "("); PStr (str "|")] = Throw SyntaxError.
Proof. repeat split; reflexivity. Qed.

(** C5, amended.  On a plain call, where [this] is undefined, [reg] raises
    its usage error whenever the one-character string of the alternation
    operator is among its arguments.  With any other receiver the guard is
    off: [reg] hands the texts of its arguments, that operator included, to
    the constructor.  [regg] never raises that usage error: without
    arguments it raises the one for missing parameters, and on one or more
    arguments it is what the constructor makes of their texts wrapped in a
    non-capturing group, a pattern as for the arguments [a], [|], [b] or
    the syntax error of the constructor. *)
Theorem reg_guards_alternation :
  (forall args, In (PStr (str "|")) args ->
                reg u args = Throw (Error use_regg))
  /\ (forall self args, self <> this_undefined ->
        reg_this u self args
        = RegExp_new (concat (map text_of args)) (reg_flags u)
        /\ is_usage_error (reg_this u self args) = false)
  /\ regg u [] = Throw (Error no_parameters)
  /\ (forall args, args <> [] ->
        regg u args
        = RegExp_new (str "(?:" ++ concat (map text_of args) ++ str ")")
                     (reg_flags u)
        /\ is_usage_error (regg u args) = false)
  /\ regg u [PStr (str "a"); PStr (str "|"); PStr (str "b")]
     = Ok {| source := str "(?:a|b)"; flags := composed_flags u |}.
Proof.
  split; [|split; [|split; [reflexivity|split]]].
  - intros args H. unfold reg, reg_this. now rewrite map_parts_bar.
  - intros self args H.
    assert (E : reg_this u self args
                = RegExp_new (concat (map text_of args)) (reg_flags u)).
    { unfold reg_this. now rewrite map_parts_unguarded. }
    split; [exact E|]. rewrite E. apply RegExp_new_not_usage.
  - intros args H.
    assert (E : regg u args
                = RegExp_new
                    (str "(?:" ++ concat (map text_of args) ++ str ")")
                    (reg_flags u)).
    { unfold regg. destruct args as [|p args]; [contradiction|].
      unfold reg_this. rewrite map_parts_regg. cbn [bind].
      f_equal. apply concat_wrapped. }
    split; [exact E|]. rewrite E. apply RegExp_new_not_usage.
  - destruct u; reflexivity.
Qed.

(** C9, the claim as stated fails: a string that holds the alternation
    operator together with an opening parenthesis passes the guard but is
    not a pattern, so the constructor raises a syntax error and [reg] does
    not succeed. *)
Lemma reg_multichar_bar_can_fail :
  reg true [PStr (str "(|")] = Throw SyntaxError
  /\ reg false [PStr (str "(|")] = Throw SyntaxError.
Proof. split; reflexivity. Qed.

(** C9, amended.  The guard of [reg] compares each string argument with
    the one-character string of the alternation operator: when no argument
    is that string, [reg] raises no usage error and hands the texts of its
    arguments, concatenated verbatim, to the constructor, whatever else
    they hold; for the argument [a|b] the construction succeeds and the
    source is [a|b]. *)
Theorem reg_guard_is_exact :
  (forall args,
      (forall s, In (PStr s) args -> s <> str "|") ->
      reg u args = RegExp_new (concat (map text_of args)) (reg_flags u)
      /\ is_usage_error (reg u args) = false)
  /\ reg u [PStr (str "a|b")]
     = Ok {| source := str "a|b"; flags := composed_flags u |}.
Proof.
  split.
  - intros args H.
    assert (E : reg u args
                = RegExp_new (concat (map text_of args)) (reg_flags u)).
    { unfold reg, reg_this. now rewrite map_parts_plain. }
    split; [exact E|]. rewrite E. apply RegExp_new_not_usage.
  - destruct u; reflexivity.
Qed.

(** C2, amended.  Every pattern made by [reg] or [regg] carries the
    multiline flag, carries the unicode flag exactly when the capability
    flag is set, and does not carry the case-insensitive flag.  The pattern
    made by [chars_without] carries the unicode flag exactly when the
    capability flag is set and does not carry the case-insensitive flag,
    and it does not carry the multiline flag. *)
Theorem composed_pattern_flags :
  (forall args r, reg u args = Ok r ->
      multiline (flags r) = true /\ unicode (flags r) = u
      /\ ignoreCase (flags r) = false)
  /\ (forall args r, regg u args = Ok r ->
      multiline (flags r) = true /\ unicode (flags r) = u
      /\ ignoreCase (flags r) = false)
  /\ (forall re tok r, chars_without u re tok = Ok r ->
      multiline (flags r) = false /\ unicode (flags r) = u
      /\ ignoreCase (flags r) = false).
Proof.
  split; [|split].
  - intros args r H. apply reg_this_flags in H. now rewrite H.
  - intros args r H. unfold regg in H.
    destruct args; [discriminate|].
    apply reg_this_flags in H. now rewrite H.
  - intros re tok r H.
    apply chars_without_constructs in H as (s & _ & H).
    apply RegExp_new_flags in H.
    rewrite class_flags_parse in H. injection H as <-. now split.
Qed.

End Composition.

Lemma reg_guards_alternation_witness :
  reg true [PStr (str "a"); PStr (str "|"); PStr (str "b")]
  = Throw (Error use_regg)
  /\ (reg_this true this_other
        [PStr (str "a"); PStr (str "|"); PStr (str "b")]
      = RegExp_new (str "a|b") (str "mu")
      /\ is_usage_error
           (reg_this true this_other
              [PStr (str "a"); PStr (str "|"); PStr (str "b")]) = false)
  /\ (regg true [PStr (str "a"); PStr (str "|"); PStr (str "b")]
      = RegExp_new (str "(?:" ++ str "a|b" ++ str ")") (str "mu")
      /\ is_usage_error
           (regg true [PStr (str "a"); PStr (str "|"); PStr (str "b")])
         = false).
Proof.
  split; [|split].
  - apply (proj1 (reg_guards_alternation true)). cbn. right; left.
    reflexivity.
  - apply (proj1 (proj2 (reg_guards_alternation true)) this_other
                 [PStr (str "a"); PStr (str "|"); PStr (str "b")]).
    discriminate.
  - apply (proj1 (proj2 (proj2 (proj2 (reg_guards_alternation true))))
                 [PStr (str "a"); PStr (str "|"); PStr (str "b")]).
    discriminate.
Defined.

Lemma reg_guard_is_exact_witness :
  reg true [PStr (str "a|b"); PRe (RegExp_literal (str "c"))]
  = RegExp_new (str "a|bc") (str "mu")
  /\ is_usage_error
       (reg true [PStr (str "a|b"); PRe (RegExp_literal (str "c"))]) = false.
Proof.
  apply (proj1 (reg_guard_is_exact true)).
  intros s [[= <-]|[H|[]]]; discriminate.
Defined.

(** C2, the claim as stated fails: the pattern [chars_without] returns for
    [/[ab]/] and the token [a] does not carry the multiline flag. *)
Lemma chars_without_pattern_not_multiline :
  exists r,
    chars_without true (RegExp_literal (str "[ab]")) (VString (str "a"))
    = Ok r
    /\ source r = str "[b]"
    /\ multiline (flags r) = false.
Proof. eexists. split; [reflexivity|]. split; reflexivity. Qed.

Lemma composed_pattern_flags_witness :
  let r1 := {| source := str "ab*"; flags := composed_flags true |} in
  let r2 := {| source := str "(?:ab*)"; flags := composed_flags true |} in
  let r3 := {| source := str "[b]"; flags := class_flags true |} in
  (multiline (flags r1) = true /\ unicode (flags r1) = true
   /\ ignoreCase (flags r1) = false)
  /\ (multiline (flags r2) = true /\ unicode (flags r2) = true
      /\ ignoreCase (flags r2) = false)
  /\ (multiline (flags r3) = false /\ unicode (flags r3) = true
      /\ ignoreCase (flags r3) = false).
Proof.
  cbv zeta. split; [|split].
  - apply (proj1 (composed_pattern_flags true)
             [PStr (str "a"); PRe (RegExp_literal (str "b"));
              PStr (str "*")]).
    reflexivity.
  - apply (proj1 (proj2 (composed_pattern_flags true))
             [PStr (str "a"); PRe (RegExp_literal (str "b"));
              PStr (str "*")]).
    reflexivity.
  - apply (proj2 (proj2 (composed_pattern_flags true))
             (RegExp_literal (str "[ab]")) (VString (str "a"))).
    reflexivity.
Defined.

(** ** Capability probe *)

Section Probe.

Variable impl : RegExpClass.

(** C4. With an injected engine whose constructor or whose [exec] throws
    on the probe, [detectUnicodeSupport] returns [false]: the error is
    absorbed.  With an engine that answers the probe with a match, the
    result is [true] when the matched text has length 2, the length of one
    surrogate pair, and [false] when it has any other length; without a
    match it is [false]. *)
Theorem detectUnicodeSupport_probe :
  (forall e, impl probe_text (str "u") = Throw e ->
             detectUnicodeSupport (Some impl) = false)
  /\ (forall re e, impl probe_text (str "u") = Ok re ->
                   re probe_text = Throw e ->
                   detectUnicodeSupport (Some impl) = false)
  /\ (forall re r, impl probe_text (str "u") = Ok re ->
                   re probe_text = Ok (Some r) ->
                   length (matched r) = 2 ->
                   detectUnicodeSupport (Some impl) = true)
  /\ (forall re r, impl probe_text (str "u") = Ok re ->
                   re probe_text = Ok (Some r) ->
                   length (matched r) <> 2 ->
                   detectUnicodeSupport (Some impl) = false)
  /\ (forall re, impl probe_text (str "u") = Ok re ->
                 re probe_text = Ok None ->
                 detectUnicodeSupport (Some impl) = false).
Proof.
  unfold detectUnicodeSupport. repeat split.
  - intros e ->. reflexivity.
  - intros re e -> H. cbn [bind]. now rewrite H.
  - intros re r -> H L. cbn [bind]. rewrite H. cbn [bind].
    now apply Nat.eqb_eq.
  - intros re r -> H L. cbn [bind]. rewrite H. cbn [bind].
    now apply Nat.eqb_neq.
  - intros re -> H. cbn [bind]. now rewrite H.
Qed.

End Probe.

Lemma detectUnicodeSupport_probe_witness :
  detectUnicodeSupport (Some (fun _ _ => Throw SyntaxError)) = false
  /\ detectUnicodeSupport
       (Some (fun _ _ => Ok (fun _ => Throw TypeError))) = false
  /\ detectUnicodeSupport (Some RegExp_class) = true
  /\ detectUnicodeSupport
       (Some (fun _ _ =>
                Ok (fun s => Ok (Some {| index := 0; matched := firstn 1 s;
                                         captures := []; groups := [] |}))))
     = false
  /\ detectUnicodeSupport (Some (fun _ _ => Ok (fun _ => Ok None))) = false.
Proof.
  split; [|split; [|split; [|split]]].
  - eapply (proj1 (detectUnicodeSupport_probe _)). reflexivity.
  - eapply (proj1 (proj2 (detectUnicodeSupport_probe _))); reflexivity.
  - eapply (proj1 (proj2 (proj2 (detectUnicodeSupport_probe _)))).
    + reflexivity.
    + vm_compute. reflexivity.
    + reflexivity.
  - eapply (proj1 (proj2 (proj2 (proj2 (detectUnicodeSupport_probe _))))).
    + reflexivity.
    + reflexivity.
    + vm_compute. discriminate.
  - eapply (proj2 (proj2 (proj2 (proj2 (detectUnicodeSupport_probe _)))));
      reflexivity.
Defined.

(** The engine of the model passes the probe. *)
Example detectUnicodeSupport_model : detectUnicodeSupport None = true.
Proof. vm_compute. reflexivity. Qed.

(** ** The syntax trees are those of the sources *)

Section Trees.

Variable u : bool.

Lemma NCName_parse :
  exists re, Grammar.NCName u = Ok re
             /\ flags re = composed_flags u
             /\ parse u (source re) = Some (NCName_ast u).
Proof. destruct u; eexists; repeat split; vm_compute; reflexivity. Qed.

Lemma ExternalID_parse :
  exists re, Grammar.ExternalID u = Ok re
             /\ flags re = composed_flags u
             /\ parse u (source re) = Some ExternalID_ast.
Proof. destruct u; eexists; repeat split; vm_compute; reflexivity. Qed.

Lemma ExternalID_match_parse :
  exists re, Grammar.ExternalID_match u = Ok re
             /\ flags re = composed_flags u
             /\ parse u (source re) = Some ExternalID_match_ast.
Proof. destruct u; eexists; repeat split; vm_compute; reflexivity. Qed.

End Trees.

(** ** Soundness of the matcher

    Whatever the matcher consumes between a state and the state it hands to
    its continuation is a word of the language of the pattern. *)

Section Soundness.

Variable fl : flagset.

Lemma orelse_some (a : option mstate) (b : unit -> option mstate) z :
  orelse a b = Some z -> a = Some z \/ (a = None /\ b tt = Some z).
Proof. destruct a; cbn; intros H; [left | right]; auto. Qed.

Lemma rep_loop_sound (P : list N -> Prop) (body : cont -> cont)
  (gs : list nat) (greedy : bool) (k : cont) :
  consumes P body ->
  forall n mn mx x z,
    match mx with Some j => mn <= j | None => True end ->
    rep_loop body gs greedy k n mn mx x = Some z ->
    exists ws y, Forall P ws /\ rest x = concat ws ++ rest y
                 /\ pos y = pos x + length (concat ws) /\ k y = Some z
                 /\ mn <= length ws
                 /\ match mx with
                    | Some j => length ws <= j
                    | None => True
                    end.
Proof.
  intros Hb.
  assert (Stop : forall mn mx x z,
             mn = 0 -> k x = Some z ->
             exists ws y, Forall P ws /\ rest x = concat ws ++ rest y
                 /\ pos y = pos x + length (concat ws) /\ k y = Some z
                 /\ mn <= length ws
                 /\ match mx : option nat with
                    | Some j => length ws <= j
                    | None => True
                    end).
  { intros mn mx x z -> Hk. exists [], x. cbn.
    repeat split; auto; try lia. destruct mx; [lia | exact I]. }
  induction n as [|n IH]; intros mn mx x z Hbound H.
  - cbn in H. destruct mx as [[|j]|].
    + apply (Stop mn (Some 0)); [lia | exact H].
    + destruct (Nat.eqb_spec mn 0);
        [now apply (Stop mn (Some (Datatypes.S j))) | discriminate].
    + destruct (Nat.eqb_spec mn 0); [now apply (Stop mn None) | discriminate].
  - assert (Step : forall z',
               body (fun y =>
                       if (mn =? 0)%nat && (pos y =? pos x)%nat then None
                       else rep_loop body gs greedy k n (Nat.pred mn)
                                     (option_map Nat.pred mx) y)
                    (clear_caps gs x) = Some z' ->
               mx <> Some 0 ->
               exists ws y, Forall P ws /\ rest x = concat ws ++ rest y
                 /\ pos y = pos x + length (concat ws) /\ k y = Some z'
                 /\ mn <= length ws
                 /\ match mx with
                    | Some j => length ws <= j
                    | None => True
                    end).
    { intros z' Hz Hmx. apply Hb in Hz as (w & y1 & Pw & Hr & Hp & Hd).
      destruct ((mn =? 0)%nat && (pos y1 =? pos x)%nat); [discriminate|].
      apply IH in Hd as (ws & y & Hws & Hr' & Hp' & Hk & Hmn & Hmx').
      - exists (w :: ws), y. cbn [concat length].
        rewrite length_app, <- app_assoc, <- Hr'.
        cbn in Hr, Hp. repeat split; auto; try lia.
        destruct mx as [[|j]|]; cbn in Hmx'; [congruence | lia | exact I].
      - destruct mx as [[|j]|]; cbn; [congruence | lia | exact I]. }
    cbn in H. destruct mx as [[|j]|].
    + apply (Stop mn (Some 0)); [lia | exact H].
    + destruct (Nat.eqb_spec mn 0) as [E|E].
      * destruct greedy; apply orelse_some in H as [H|[_ H]];
          try (now apply (Stop mn (Some (Datatypes.S j))));
          apply Step; auto; discriminate.
      * apply Step; auto; discriminate.
    + destruct (Nat.eqb_spec mn 0) as [E|E].
      * destruct greedy; apply orelse_some in H as [H|[_ H]];
          try (now apply (Stop mn None)); apply Step; auto; discriminate.
      * apply Step; auto; discriminate.
Qed.

Lemma m_sound (r : regex) :
  wf r = true -> consumes (lang r) (m fl r).
Proof.
  induction r as [|c| |neg rs| | |r1 IH1 r2 IH2|r1 IH1 r2 IH2
                  |mn mx g r IH|i name r IH];
    intros W k x z H; cbn [m] in H; cbn [lang].
  - exists [], x. cbn. repeat split; auto.
  - destruct (rest x) as [|a t] eqn:R; [discriminate|].
    destruct (N.eqb_spec a c) as [->|]; [|discriminate].
    exists [c], (advance x c t). cbn. repeat split; auto. lia.
  - destruct (rest x) as [|a t] eqn:R; [discriminate|].
    destruct (dotAll fl || negb (is_line_terminator a)); [|discriminate].
    exists [a], (advance x a t). cbn. repeat split; eauto. lia.
  - destruct (rest x) as [|a t] eqn:R; [discriminate|].
    destruct (class_mem neg rs a) eqn:C; [|discriminate].
    exists [a], (advance x a t). cbn. repeat split; eauto. lia.
  - destruct (at_line_start fl x); [|discriminate].
    exists [], x. cbn. repeat split; auto.
  - destruct (at_line_end fl x); [|discriminate].
    exists [], x. cbn. repeat split; auto.
  - cbn in W. apply andb_true_iff in W as [W1 W2].
    apply (IH1 W1) in H as (w1 & y1 & L1 & R1 & P1 & H).
    apply (IH2 W2) in H as (w2 & y2 & L2 & R2 & P2 & H).
    exists (w1 ++ w2), y2. rewrite length_app, <- app_assoc, <- R2.
    repeat split; eauto; lia.
  - cbn in W. apply andb_true_iff in W as [W1 W2].
    apply orelse_some in H as [H|[_ H]].
    + apply (IH1 W1) in H as (w & y & L & H). exists w, y. auto.
    + apply (IH2 W2) in H as (w & y & L & H). exists w, y. auto.
  - cbn in W. apply andb_true_iff in W as [Wb W].
    apply (@rep_loop_sound (lang r) (m fl r) _ _ _ (IH W)) in H
      as (ws & y & Hws & Hr & Hp & Hk & Hmn & Hmx).
    + exists (concat ws), y. repeat split; eauto.
    + destruct mx; [now apply Nat.leb_le | exact I].
  - cbn in W. apply (IH W) in H as (w & y & L & R & P & H).
    exists w, (set_cap y i (firstn (pos y - pos x) (rest x))).
    cbn. auto.
Qed.

Lemma search_sound (r : regex) (rs : list N) :
  wf r = true ->
  forall p pv x y,
    search fl r p pv rs = Some (x, y) ->
    exists pre w,
      rs = pre ++ w ++ rest y /\ lang r w
      /\ pos x = p + length pre /\ rest x = w ++ rest y
      /\ pos y = pos x + length w.
Proof.
  intros W. induction rs as [|a rs IH]; intros p pv x y H; cbn [search] in H.
  - destruct (m fl r Some _) as [y'|] eqn:M.
    + injection H as <- <-.
      apply (@m_sound r W) in M as (w & y0 & L & R & P & [= ->]).
      cbn in R, P. exists [], w. cbn. repeat split; auto.
    + destruct (sticky fl); discriminate.
  - destruct (m fl r Some _) as [y'|] eqn:M.
    + injection H as <- <-.
      apply (@m_sound r W) in M as (w & y0 & L & R & P & [= ->]).
      cbn in R, P. exists [], w. cbn. repeat split; auto.
    + destruct (sticky fl); [discriminate|].
      apply IH in H as (pre & w & E & L & Px & Rx & Py).
      exists (a :: pre), w. cbn. rewrite <- E. repeat split; auto. lia.
Qed.

End Soundness.

(** What [exec] reports as matched is a word of the language of the
    pattern, found inside the subject. *)
Lemma exec_sound (re : RegExp) (r : regex) (s : jsstring)
  (res : match_result) :
  parse (unicode (flags re)) (source re) = Some r ->
  wf r = true ->
  exec re s = Some res ->
  exists pre w post,
    chars_of (unicode (flags re)) s = pre ++ w ++ post
    /\ lang r w
    /\ matched res = string_of (unicode (flags re)) w
    /\ index res = length (string_of (unicode (flags re)) pre).
Proof.
  intros P W H. unfold exec in H. rewrite P in H.
  destruct (search _ r 0 None _) as [[x y]|] eqn:S; [|discriminate].
  apply (@search_sound _ r _ W) in S as (pre & w & E & L & Px & Rx & Py).
  cbn in Px. injection H as <-. exists pre, w, (rest y). cbn.
  rewrite Py, Rx, Px, E.
  replace (length pre + length w - length pre) with (length w) by lia.
  now rewrite !firstn_exact.
Qed.

(** ** Names *)

Section Names.

Lemma In_encode (c : N) (w : list N) :
  In c (encode w) -> (c < 0xD800)%N -> In c w.
Proof.
  unfold encode. intros H Hc. apply in_flat_map in H as (x & Hx & H).
  unfold encode1 in H. destruct (N.ltb_spec x 0x10000).
  - destruct H as [<-|[]]. exact Hx.
  - destruct H as [H|[H|[]]]; subst c.
    + generalize dependent ((x - 65536) / 1024)%N. intros; lia.
    + generalize dependent ((x - 65536) mod 1024)%N. intros; lia.
Qed.

Lemma In_string_of (u : bool) (c : N) (w : list N) :
  In c (string_of u w) -> (c < 0xD800)%N -> In c w.
Proof. destruct u; cbn; [apply In_encode | auto]. Qed.

(** The words of a repeated class are runs of characters of the class. *)
Lemma lang_rep_cls (mn : nat) (mx : option nat) (g neg : bool)
  (rs : list (N * N)) (w : list N) :
  lang (Rep mn mx g (Cls neg rs)) w ->
  Forall (fun a => class_mem neg rs a = true) w /\ mn <= length w.
Proof.
  cbn [lang]. intros (ws & -> & F & Hmn & _).
  revert mn Hmn. induction F as [|w ws (a & -> & Ha) F IH]; intros mn Hmn.
  - cbn in *. split; [constructor | lia].
  - cbn [concat app length] in *.
    destruct (IH (Nat.pred mn)) as [IH1 IH2]; [lia|].
    split; [now constructor | lia].
Qed.

Lemma NCName_ast_no_colon (u : bool) (w : list N) :
  lang (NCName_ast u) w -> ~ In (ch ":") w.
Proof.
  unfold NCName_ast. cbn [lang].
  intros (w1 & w2 & -> & (a & -> & Ha) & H2) Hin.
  apply (@lang_rep_cls 0 None true false
           (NameStartChar_ranges u ++ NameChar_extra)) in H2 as [H2 _].
  apply in_app_or in Hin as [[->|[]]|Hin].
  - destruct u; vm_compute in Ha; discriminate.
  - rewrite Forall_forall in H2. apply H2 in Hin.
    destruct u; vm_compute in Hin; discriminate.
Qed.

(** C6, the claim as stated fails: [NCName] is not anchored, so it does
    match in a string that holds the namespace separator; in [a:b] it
    matches the part before the separator. *)
Lemma NCName_matches_beside_colon :
  test_on (Grammar.NCName true) (str "a:b") = Ok true
  /\ test_on (Grammar.NCName false) (str "a:b") = Ok true
  /\ exec_on (Grammar.NCName true) (str "a:b")
     = Ok (Some {| index := 0; matched := str "a"; captures := [];
                   groups := [] |})
  /\ exec_on (Grammar.NCName false) (str "a:b")
     = Ok (Some {| index := 0; matched := str "a"; captures := [];
                   groups := [] |}).
Proof. vm_compute. repeat split. Qed.

(** C6, amended.  No text matched by [NCName] holds the namespace
    separator: the language of the production excludes it, so [NCName]
    never matches in full a string that contains the separator; what it
    matches in such a string is a proper part of it, and it does find one
    in [a:b].  [Name], built from the same classes before the separator is
    subtracted, matches the whole of [a:b]. *)
Theorem NCName_excludes_colon (u : bool) :
  (exists re, Grammar.NCName u = Ok re)
  /\ (forall s res,
        exec_on (Grammar.NCName u) s = Ok (Some res) ->
        ~ In (ch ":") (matched res))
  /\ (forall s res,
        In (ch ":") s ->
        exec_on (Grammar.NCName u) s = Ok (Some res) ->
        matched res <> s)
  /\ exec_on (Grammar.Name u) (str "a:b")
     = Ok (Some {| index := 0; matched := str "a:b";
                   captures := []; groups := [] |})
  /\ test_on (Grammar.NCName u) (str "a:b") = Ok true.
Proof.
  destruct (NCName_parse u) as (re & E & F & P).
  assert (A : forall s res,
             exec_on (Grammar.NCName u) s = Ok (Some res) ->
             ~ In (ch ":") (matched res)).
  { intros s res H. unfold exec_on in H. rewrite E in H. cbn [bind] in H.
    injection H as H.
    assert (U : unicode (flags re) = u) by now rewrite F.
    assert (P' : parse (unicode (flags re)) (source re)
                 = Some (NCName_ast u)) by now rewrite U.
    apply (exec_sound _ _ P') in H as (pre & w & post & _ & L & M & _).
    - rewrite M, U. intros Hin. apply In_string_of in Hin; [|reflexivity].
      eapply NCName_ast_no_colon; eassumption.
    - destruct u; reflexivity. }
  split; [now exists re|]. split; [exact A|]. split; [|split].
  - intros s res Hin H Heq. apply (A s res H). now rewrite Heq.
  - destruct u; vm_compute; reflexivity.
  - destruct u; vm_compute; reflexivity.
Qed.

Lemma NCName_excludes_colon_witness :
  ~ In (ch ":") (str "a")
  /\ str "a" <> str "a:b".
Proof.
  split.
  - apply (proj1 (proj2 (NCName_excludes_colon true)) (str "a:b")
                 {| index := 0; matched := str "a"; captures := [];
                    groups := [] |}).
    vm_compute. reflexivity.
  - apply (proj1 (proj2 (proj2 (NCName_excludes_colon true))) (str "a:b")
                 {| index := 0; matched := str "a"; captures := [];
                    groups := [] |}).
    + cbn. right; left; reflexivity.
    + vm_compute. reflexivity.
Defined.

(** C7. The anchored [QName] matches the whole of [ns:local] and of
    [local], and matches neither [a:b:c] nor [1abc]. *)
Theorem QName_exact_examples (u : bool) :
  exec_on (Grammar.QName_exact u) (str "ns:local")
  = Ok (Some {| index := 0; matched := str "ns:local";
                captures := []; groups := [] |})
  /\ exec_on (Grammar.QName_exact u) (str "local")
     = Ok (Some {| index := 0; matched := str "local";
                   captures := []; groups := [] |})
  /\ test_on (Grammar.QName_exact u) (str "ns:local") = Ok true
  /\ test_on (Grammar.QName_exact u) (str "local") = Ok true
  /\ test_on (Grammar.QName_exact u) (str "a:b:c") = Ok false
  /\ test_on (Grammar.QName_exact u) (str "1abc") = Ok false.
Proof. destruct u; vm_compute; repeat split. Qed.

End Names.

(** ** External identifiers *)

Section ExternalIdentifiers.

(** C8. On the SYSTEM example [ExternalID_match] matches and captures the
    system literal, quotes included, in the group [SystemLiteralOnly],
    the groups [PubidLiteral] and [SystemLiteral] staying undefined; on the
    PUBLIC example it captures both literals, quotes included, in
    [PubidLiteral] and [SystemLiteral]. *)
Theorem ExternalID_match_examples (u : bool) :
  exec_on (Grammar.ExternalID_match u) system_example
  = Ok (Some
          {| index := 0;
             matched := system_example;
             captures :=
               [Some (DQ ++ str "http://example.org/x.dtd" ++ DQ);
                None; None];
             groups :=
               [(str "SystemLiteralOnly",
                 Some (DQ ++ str "http://example.org/x.dtd" ++ DQ));
                (str "PubidLiteral", None);
                (str "SystemLiteral", None)] |})
  /\ exec_on (Grammar.ExternalID_match u) public_example
     = Ok (Some
             {| index := 0;
                matched := public_example;
                captures :=
                  [None;
                   Some (DQ ++ str "-//X//Y" ++ DQ);
                   Some (DQ ++ str "http://example.org/x.dtd" ++ DQ)];
                groups :=
                  [(str "SystemLiteralOnly", None);
                   (str "PubidLiteral", Some (DQ ++ str "-//X//Y" ++ DQ));
                   (str "SystemLiteral",
                    Some (DQ ++ str "http://example.org/x.dtd" ++ DQ))] |}).
Proof. destruct u; vm_compute; split; reflexivity. Qed.

End ExternalIdentifiers.

(** ** UTF-16 *)

Section Utf16.

Lemma pair_cp_split (h l : N) :
  is_high h = true -> is_low l = true ->
  (0x10000 <= pair_cp h l)%N
  /\ (0xD800 + (pair_cp h l - 0x10000) / 0x400 = h)%N
  /\ (0xDC00 + (pair_cp h l - 0x10000) mod 0x400 = l)%N.
Proof.
  unfold is_high, is_low, pair_cp. intros Hh Hl.
  apply andb_true_iff in Hh as [H1 H2]. apply andb_true_iff in Hl as [L1 L2].
  apply N.leb_le in H1, H2, L1, L2.
  replace ((h - 0xD800) * 0x400 + (l - 0xDC00) + 0x10000 - 0x10000)%N
    with ((l - 0xDC00) + (h - 0xD800) * 0x400)%N by lia.
  rewrite N.div_add by lia. rewrite N.Div0.mod_add.
  rewrite N.div_small by lia. rewrite N.mod_small by lia.
  repeat split; lia.
Qed.

(** Induction over a list two elements at a time. *)
Lemma pair_induction (A : Type) (P : list A -> Prop) :
  P [] -> (forall a, P [a]) ->
  (forall a b l, P l -> P (b :: l) -> P (a :: b :: l)) ->
  forall l, P l.
Proof.
  intros H0 H1 H2 l.
  assert (H : P l /\ forall a, P (a :: l)).
  { induction l as [|b l [IH1 IH2]]; [now split|].
    split; [apply IH2|]. intros a. apply H2; auto. }
  apply H.
Qed.

Lemma decode_cons2 (a b : N) (l : jsstring) :
  decode (a :: b :: l)
  = if is_high a && is_low b then pair_cp a b :: decode l
    else a :: decode (b :: l).
Proof. reflexivity. Qed.

Lemma encode_cons (c : N) (l : list N) :
  encode (c :: l) = encode1 c ++ encode l.
Proof. reflexivity. Qed.

Lemma encode1_unit (c : N) : (c < 0x10000)%N -> encode1 c = [c].
Proof. intros H. unfold encode1. apply N.ltb_lt in H. now rewrite H. Qed.

Lemma encode_decode (s : jsstring) : utf16 s -> encode (decode s) = s.
Proof.
  induction s as [|a|a b l IH1 IH2] using pair_induction; intros U.
  - reflexivity.
  - inversion_clear U as [|? ? Ha _]. cbn. now rewrite encode1_unit.
  - inversion U as [|? ? Ha U1]; subst.
    rewrite decode_cons2.
    destruct (is_high a && is_low b) eqn:E.
    + apply andb_true_iff in E as [Ea Eb].
      destruct (pair_cp_split _ _ Ea Eb) as (G & Dh & Dl).
      inversion_clear U1 as [|? ? _ U2].
      rewrite encode_cons, (IH1 U2).
      unfold encode1. destruct (N.ltb_spec (pair_cp a b) 0x10000); [lia|].
      cbn [app]. now rewrite Dh, Dl.
    + rewrite encode_cons, (IH2 U1), encode1_unit by exact Ha.
      reflexivity.
Qed.

Lemma decode_cons_low (c : N) (b : jsstring) :
  is_high c = false -> decode (c :: b) = c :: decode b.
Proof.
  intros Hc. destruct b as [|l b]; [reflexivity|].
  rewrite decode_cons2, Hc. reflexivity.
Qed.

Lemma decode_app_boundary (a : jsstring) :
  forall c b, is_high c = false ->
              decode (a ++ c :: b) = decode (a ++ [c]) ++ decode b.
Proof.
  induction a as [|x|x y l IH1 IH2] using pair_induction; intros c b Hc.
  - cbn [app]. now rewrite !decode_cons_low.
  - cbn [app]. rewrite !decode_cons2.
    destruct (is_high x && is_low c); [reflexivity|].
    now rewrite !decode_cons_low.
  - change ((x :: y :: l) ++ c :: b) with (x :: y :: (l ++ c :: b)).
    change ((x :: y :: l) ++ [c]) with (x :: y :: (l ++ [c])).
    rewrite !decode_cons2.
    destruct (is_high x && is_low y).
    + cbn [app]. f_equal. now apply IH1.
    + cbn [app]. f_equal.
      change (y :: l ++ c :: b) with ((y :: l) ++ c :: b).
      change (y :: l ++ [c]) with ((y :: l) ++ [c]).
      now apply IH2.
Qed.

Lemma encode_app (a b : list N) : encode (a ++ b) = encode a ++ encode b.
Proof. apply flat_map_app. Qed.

Lemma encode_length (a : list N) : length a <= length (encode a).
Proof.
  induction a as [|c a IH]; [cbn; lia|].
  change (encode (c :: a)) with (encode1 c ++ encode a).
  rewrite length_app. unfold encode1.
  destruct (c <? 0x10000)%N; cbn; lia.
Qed.

(** A match that is the whole subject leaves nothing before or after. *)
Lemma whole_match (u : bool) (p : jsstring) (pre w post : list N) :
  utf16 p ->
  chars_of u p = pre ++ w ++ post ->
  string_of u w = p ->
  chars_of u p = w.
Proof.
  intros U C M.
  assert (L : length pre + length post = 0).
  { destruct u; cbn in C, M.
    - pose proof (encode_decode U) as R. rewrite C in R.
      rewrite !encode_app, M in R.
      apply (f_equal (@length N)) in R. rewrite !length_app in R.
      pose proof (encode_length pre). pose proof (encode_length post). lia.
    - rewrite M in C. apply (f_equal (@length N)) in C.
      rewrite !length_app in C. lia. }
  destruct pre; [|cbn in L; lia]. destruct post; [|cbn in L; lia].
  now rewrite C, app_nil_r.
Qed.

(** Text appended after a final character that is not a high surrogate does
    not change the characters before it. *)
Lemma chars_of_app (u : bool) (p t : jsstring) (X : list N) (q : N) :
  string_of u (X ++ [q]) = p ->
  (q < 0xD800)%N ->
  chars_of u (p ++ t) = chars_of u p ++ chars_of u t.
Proof.
  destruct u; cbn; [|reflexivity].
  intros M Hq.
  assert (E : p = encode X ++ [q]).
  { rewrite <- M, encode_app. cbn [encode flat_map].
    rewrite encode1_unit by lia. now rewrite app_nil_r. }
  rewrite E at 1 2. rewrite <- app_assoc. cbn [app].
  rewrite decode_app_boundary; [reflexivity|].
  unfold is_high. apply andb_false_iff. left. apply N.leb_gt. exact Hq.
Qed.

End Utf16.

(** ** Committed matching of the external identifier *)

Section Determinism.

Variable fl : flagset.

Lemma clear_caps_nil (x : mstate) : clear_caps [] x = x.
Proof.
  destruct x as [p pv rs cs]. unfold clear_caps. cbn. f_equal.
  induction cs as [|c cs IH]; cbn; [reflexivity | now rewrite IH].
Qed.

Lemma det_weaken (r : regex) (stop stop' : list N -> Prop) :
  det fl r stop -> (forall t, stop' t -> stop t) -> det fl r stop'.
Proof.
  intros D H w L cs0. destruct (D w L cs0) as [cs Hcs].
  exists cs. intros x tail R C St. apply Hcs; auto.
Qed.

Lemma det_chr (c : N) : det fl (Chr c) no_stop.
Proof.
  intros w L cs0. cbn in L. subst w. exists cs0.
  intros x tail R C _ k. cbn in R.
  exists (advance x c tail). cbn. repeat split; [lia | exact C |].
  intros z Hk. cbn [m]. rewrite R, N.eqb_refl. exact Hk.
Qed.

Lemma m_cls_step (neg : bool) (rs : list (N * N)) (k : cont) (x : mstate)
  (a : N) (t : list N) :
  rest x = a :: t -> class_mem neg rs a = true ->
  m fl (Cls neg rs) k x = k (advance x a t).
Proof. intros R H. cbn [m]. now rewrite R, H. Qed.

(** A greedy loop over a class runs to the end of a run of the class. *)
Lemma rep_loop_run (neg : bool) (rs : list (N * N)) (k : cont) :
  forall w n mn x tail,
    rest x = w ++ tail ->
    Forall (fun a => class_mem neg rs a = true) w ->
    mn <= length w -> length w <= n ->
    stop_cls neg rs tail ->
    exists y, pos y = pos x + length w /\ rest y = tail
              /\ caps y = caps x
              /\ forall z, k y = Some z ->
                   rep_loop (m fl (Cls neg rs)) [] true k n mn None x
                   = Some z.
Proof.
  induction w as [|a w IH]; intros n mn x tail R F Hmn Hn St.
  - cbn in R, Hmn. exists x. cbn [length]. repeat split; [lia | exact R |].
    intros z Hk. assert (mn = 0) as -> by lia.
    destruct n as [|n]; cbn [rep_loop Nat.eqb]; [exact Hk|].
    cbn [m]. rewrite clear_caps_nil, R.
    destruct tail as [|b tail]; [exact Hk|].
    cbn in St. rewrite St. exact Hk.
  - cbn [app length] in R, Hmn, Hn.
    destruct n as [|n]; [lia|].
    inversion_clear F as [|? ? Ha F'].
    destruct (IH n (Nat.pred mn) (advance x a (w ++ tail)) tail)
      as (y & Py & Ry & Cy & Hy); auto; try lia.
    exists y. cbn in Py, Cy. repeat split; [cbn; lia | exact Ry | exact Cy |].
    intros z Hk. apply Hy in Hk.
    cbn [rep_loop]. rewrite clear_caps_nil.
    rewrite (@m_cls_step neg rs _ x a (w ++ tail) R Ha).
    cbn [advance pos option_map].
    replace (Datatypes.S (pos x) =? pos x)%nat with false
      by (symmetry; apply Nat.eqb_neq; lia).
    rewrite andb_false_r. rewrite Hk.
    destruct (mn =? 0)%nat; reflexivity.
Qed.

Lemma det_rep_cls (mn : nat) (neg : bool) (rs : list (N * N)) :
  det fl (Rep mn None true (Cls neg rs)) (stop_cls neg rs).
Proof.
  intros w L cs0. apply lang_rep_cls in L as [F Hmn]. exists cs0.
  intros x tail R C St k.
  destruct (@rep_loop_run neg rs k w (mn + length (rest x)) mn x tail)
    as (y & Py & Ry & Cy & Hy); auto.
  { rewrite R, length_app. lia. }
  exists y. split; [exact Py|]. split; [exact Ry|]. split; [congruence|].
  intros z Hk. cbn [m groups_of map]. now apply Hy.
Qed.

Lemma det_seq (r1 r2 : regex) (stop1 stop2 stop : list N -> Prop) :
  det fl r1 stop1 -> det fl r2 stop2 ->
  (forall w2 tail, lang r2 w2 -> stop tail -> stop1 (w2 ++ tail)) ->
  (forall tail, stop tail -> stop2 tail) ->
  det fl (Seq r1 r2) stop.
Proof.
  intros D1 D2 H1 H2 w L cs0. cbn [lang] in L.
  destruct L as (w1 & w2 & -> & L1 & L2).
  destruct (D1 w1 L1 cs0) as [cs1 C1].
  destruct (D2 w2 L2 cs1) as [cs2 C2].
  exists cs2. intros x tail R C St k.
  rewrite <- app_assoc in R.
  destruct (C1 x (w2 ++ tail) R C (H1 _ _ L2 St) (m fl r2 k))
    as (y1 & P1 & R1 & K1 & M1).
  destruct (C2 y1 tail R1 K1 (H2 _ St) k) as (y2 & P2 & R2 & K2 & M2).
  exists y2. rewrite length_app.
  split; [lia|]. split; [exact R2|]. split; [exact K2|].
  intros z Hk. cbn [m]. apply M1, M2, Hk.
Qed.

Lemma det_alt (r1 r2 : regex) (stop : list N -> Prop) :
  det fl r1 stop -> det fl r2 stop ->
  (forall w, lang r2 w ->
             forall k x tail, rest x = w ++ tail -> m fl r1 k x = None) ->
  det fl (Alt r1 r2) stop.
Proof.
  intros D1 D2 Hd w L cs0. cbn [lang] in L. destruct L as [L|L].
  - destruct (D1 w L cs0) as [cs C1]. exists cs.
    intros x tail R C St k.
    destruct (C1 x tail R C St k) as (y & Py & Ry & Ky & My).
    exists y. split; [exact Py|]. split; [exact Ry|]. split; [exact Ky|].
    intros z Hk. cbn [m]. now rewrite (My z Hk).
  - destruct (D2 w L cs0) as [cs C2]. exists cs.
    intros x tail R C St k.
    destruct (C2 x tail R C St k) as (y & Py & Ry & Ky & My).
    exists y. split; [exact Py|]. split; [exact Ry|]. split; [exact Ky|].
    intros z Hk. cbn [m]. rewrite (Hd w L k x tail R). cbn.
    now apply My.
Qed.

Lemma det_grp (i : nat) (name : option jsstring) (r : regex)
  (stop : list N -> Prop) :
  det fl r stop -> det fl (Grp i name r) stop.
Proof.
  intros D w L cs0. cbn [lang] in L.
  destruct (D w L cs0) as [cs C1]. exists ((i, w) :: cs).
  intros x tail R C St k.
  destruct (C1 x tail R C St
              (fun y => k (set_cap y i (firstn (pos y - pos x) (rest x)))))
    as (y & Py & Ry & Ky & My).
  exists (set_cap y i (firstn (pos y - pos x) (rest x))).
  cbn. split; [exact Py|]. split; [exact Ry|]. split.
  - rewrite Py, R, Ky.
    replace (pos x + length w - pos x) with (length w) by lia.
    now rewrite firstn_exact.
  - intros z Hk. now apply My.
Qed.

Lemma det_lit_then (s : jsstring) (r : regex) (stop : list N -> Prop) :
  det fl r stop -> det fl (lit_then s r) stop.
Proof.
  intros D. induction s as [|c s IH]; [exact D|].
  cbn [lit_then fold_right]. fold (lit_then s r).
  apply det_seq with (stop1 := no_stop) (stop2 := stop);
    [apply det_chr | exact IH | intros; exact I | auto].
Qed.

Lemma det_quoted (q : N) (neg : bool) (rs : list (N * N)) :
  class_mem neg rs q = false -> det fl (quoted q neg rs) no_stop.
Proof.
  intros Hq. unfold quoted.
  apply det_seq with (stop1 := no_stop) (stop2 := no_stop);
    [apply det_chr | | intros; exact I | auto].
  apply det_seq with (stop1 := stop_cls neg rs) (stop2 := no_stop);
    [apply det_rep_cls | apply det_chr | | auto].
  intros w2 tail L _. cbn in L. subst w2. exact Hq.
Qed.

Lemma lang_quoted_head (q : N) (neg : bool) (rs : list (N * N))
  (w : list N) :
  lang (quoted q neg rs) w -> exists w', w = q :: w'.
Proof.
  cbn. intros (w1 & w2 & -> & -> & _). now exists w2.
Qed.

Lemma quoted_refuses (q a : N) (neg : bool) (rs : list (N * N))
  (k : cont) (x : mstate) (t : list N) :
  rest x = a :: t -> a <> q -> m fl (quoted q neg rs) k x = None.
Proof.
  intros R H. cbn [m quoted]. rewrite R.
  now destruct (N.eqb_spec a q).
Qed.

Lemma det_quoted_pair (neg1 neg2 : bool) (rs1 rs2 : list (N * N)) :
  class_mem neg1 rs1 34 = false -> class_mem neg2 rs2 39 = false ->
  det fl (Alt (quoted 34 neg1 rs1) (quoted 39 neg2 rs2)) no_stop.
Proof.
  intros H1 H2.
  apply det_alt; [now apply det_quoted | now apply det_quoted |].
  intros w L k x tail R. apply lang_quoted_head in L as [w' ->].
  apply quoted_refuses with (a := 39%N) (t := w' ++ tail);
    [exact R | discriminate].
Qed.

Lemma lang_quoted_pair_head (neg1 neg2 : bool) (rs1 rs2 : list (N * N))
  (w : list N) :
  lang (Alt (quoted 34 neg1 rs1) (quoted 39 neg2 rs2)) w ->
  exists q w', w = q :: w' /\ (q = 34 \/ q = 39)%N.
Proof.
  intros [L|L]; apply lang_quoted_head in L as [w' ->]; eauto.
Qed.

Lemma det_SystemLiteral : det fl SystemLiteral_ast no_stop.
Proof. now apply det_quoted_pair. Qed.

Lemma det_PubidLiteral : det fl PubidLiteral_ast no_stop.
Proof. now apply det_quoted_pair. Qed.

(** White space before a quoted literal stops at the quote. *)
Lemma S_then_quoted (r : regex) :
  (forall w, lang r w -> exists q w', w = q :: w' /\ (q = 34 \/ q = 39)%N) ->
  forall w2 tail, lang r w2 -> no_stop tail ->
                  stop_cls false S_ranges (w2 ++ tail).
Proof.
  intros H w2 tail L _. destruct (H w2 L) as (q & w' & -> & [->| ->]);
    reflexivity.
Qed.

Lemma det_S_then (r : regex) :
  det fl r no_stop ->
  (forall w, lang r w -> exists q w', w = q :: w' /\ (q = 34 \/ q = 39)%N) ->
  det fl (Seq S_ast r) no_stop.
Proof.
  intros D H.
  apply det_seq with (stop1 := stop_cls false S_ranges) (stop2 := no_stop);
    [apply det_rep_cls | exact D | now apply S_then_quoted | auto].
Qed.

Lemma det_ExternalID_match_body : det fl ExternalID_match_body no_stop.
Proof.
  unfold ExternalID_match_body. apply det_alt.
  - apply det_lit_then, det_S_then.
    + apply det_grp, det_SystemLiteral.
    + intros w L. now apply lang_quoted_pair_head in L.
  - apply det_lit_then, det_S_then.
    + apply det_seq with (stop1 := no_stop) (stop2 := no_stop);
        [apply det_grp, det_PubidLiteral | | intros; exact I | auto].
      apply det_S_then; [apply det_grp, det_SystemLiteral|].
      intros w L. now apply lang_quoted_pair_head in L.
    + intros w (w1 & w2 & -> & L & _).
      apply lang_quoted_pair_head in L as (q & w' & -> & Hq).
      now exists q, (w' ++ w2).
  - intros w L k x tail R. cbn in L.
    destruct L as (w1 & w2 & -> & -> & _). cbn in R.
    cbn. now rewrite R.
Qed.

(** The tree of [ExternalID] and the body of [ExternalID_match] differ by
    the capturing groups only. *)
Lemma lang_ExternalID_match_body (w : list N) :
  lang ExternalID_ast w -> lang ExternalID_match_body w.
Proof. intros H. exact H. Qed.

Lemma lang_ExternalID_last (w : list N) :
  lang ExternalID_ast w ->
  exists X q, w = X ++ [q] /\ (q < 0xD800)%N.
Proof.
  assert (Q : forall q neg rs w, (q < 0xD800)%N ->
              lang (quoted q neg rs) w ->
              exists X q, w = X ++ [q] /\ (q < 0xD800)%N).
  { intros q neg rs w0 Hq (w1 & w2 & -> & _ & (w3 & w4 & -> & _ & ->)).
    exists (w1 ++ w3), q. now rewrite <- app_assoc. }
  assert (SL : forall w, lang SystemLiteral_ast w ->
              exists X q, w = X ++ [q] /\ (q < 0xD800)%N).
  { intros w0 [L|L]; apply Q in L; auto; reflexivity. }
  assert (A : forall w1 w2 : list N,
              (exists X q, w2 = X ++ [q] /\ (q < 0xD800)%N) ->
              exists X q, w1 ++ w2 = X ++ [q] /\ (q < 0xD800)%N).
  { intros w1 w2 (X & q & -> & Hq). exists (w1 ++ X), q.
    now rewrite <- app_assoc. }
  intros [L|L]; cbn in L;
    repeat (let w1 := fresh "w" in let w2 := fresh "w" in
            destruct L as (w1 & w2 & -> & _ & L); apply A);
    apply SL; exact L.
Qed.

End Determinism.

Section TrailingText.

Lemma search_first (fl : flagset) (r : regex) (p : nat) (pv : option N)
  (rs : list N) (y : mstate) :
  m fl r Some {| pos := p; prev := pv; rest := rs; caps := [] |} = Some y ->
  search fl r p pv rs
  = Some ({| pos := p; prev := pv; rest := rs; caps := [] |}, y).
Proof. intros H. destruct rs; cbn [search]; now rewrite H. Qed.

Lemma commits_bol (fl : flagset) (r : regex) (x : mstate)
  (w tail : list N) (cs : list (nat * list N)) :
  prev x = None -> commits fl r x w tail cs ->
  commits fl (Seq Bol r) x w tail cs.
Proof.
  intros Hp H k. destruct (H k) as (y & Py & Ry & Cy & My).
  exists y. split; [exact Py|]. split; [exact Ry|]. split; [exact Cy|].
  intros z Hk. cbn [m]. unfold at_line_start. rewrite Hp. now apply My.
Qed.

(** A pattern that commits to [w] at the start of the subject makes [exec]
    report [w], whatever follows. *)
Lemma exec_commits (re : RegExp) (r : regex) (s : jsstring)
  (w tail : list N) (cs : list (nat * list N)) :
  parse (unicode (flags re)) (source re) = Some r ->
  chars_of (unicode (flags re)) s = w ++ tail ->
  commits (flags re) r (start_state (w ++ tail)) w tail cs ->
  exec re s = Some (match_of (unicode (flags re)) r w cs).
Proof.
  intros P C H. destruct (H Some) as (y & Py & Ry & Cy & My).
  specialize (My y eq_refl). unfold exec. rewrite P, C.
  unfold start_state in My. rewrite (search_first _ _ _ _ _ My).
  unfold match_of. cbn [pos rest]. rewrite Py, Cy.
  unfold start_state. cbn [pos Nat.add].
  rewrite Nat.sub_0_r, firstn_exact. cbn [firstn].
  f_equal. f_equal. now destruct (unicode (flags re)).
Qed.

End TrailingText.

(** ** The model at work

    A few evaluations that show how the model of the engine reads the
    patterns of the module. *)

Section Evaluations.

(** Searching with [NCName] in [a:b] finds the part before the separator. *)
Example NCName_search :
  exec_on (Grammar.NCName true) (str "a:b")
  = Ok (Some {| index := 0; matched := str "a"; captures := [];
                groups := [] |}).
Proof. vm_compute. reflexivity. Qed.

(** Every pattern of [reg] carries the [m] flag, so the start anchor of
    [ExternalID_match] also holds after a line terminator. *)
Example ExternalID_match_second_line :
  exec_on (Grammar.ExternalID_match true) (str "x" ++ [10%N] ++ str "SYSTEM 'a'")
  = Ok (Some {| index := 2; matched := str "SYSTEM 'a'";
                captures := [Some (str "'a'"); None; None];
                groups := [(str "SystemLiteralOnly", Some (str "'a'"));
                           (str "PubidLiteral", None);
                           (str "SystemLiteral", None)] |}).
Proof. vm_compute. reflexivity. Qed.

(** An astral character is one character of a name in unicode mode and two
    code units, neither of them a name character, otherwise. *)
Example Name_astral :
  test_on (Grammar.Name true) probe_text = Ok true
  /\ test_on (Grammar.Name false) probe_text = Ok false.
Proof. vm_compute. split; reflexivity. Qed.

(** The source of a pattern is its text in escaped form: a [/] outside a
    class gets a backslash, inside a class it does not, and a line
    terminator is written as its escape.  So a pattern nested in [reg] can
    carry backslashes its text did not have. *)
Example source_is_escaped :
  RegExp_new (str "a/b[/]") []
  = Ok {| source := str "a\/b[/]"; flags := no_flags |}
  /\ RegExp_new (str "a" ++ [10%N] ++ str "b") []
     = Ok {| source := str "a\nb"; flags := no_flags |}
  /\ reg true [PStr (str "\"); PStr (str "/")]
     = Ok {| source := str "\/"; flags := composed_flags true |}
  /\ (r <- reg true [PStr (str "/")] ;; reg true [PStr (str "\"); PRe r])
     = Ok {| source := str "\\\/"; flags := composed_flags true |}
  /\ chars_without true (RegExp_literal (str "[a]\/")) (VString (str "\"))
     = Ok {| source := str "[a]\/"; flags := class_flags true |}.
Proof. vm_compute. repeat split. Qed.

(** What the constructor refuses, and what the model leaves open. *)
Example RegExp_new_refuses :
  RegExp_new (str "[a") [] = Throw SyntaxError
  /\ RegExp_new (str "[c-a]") [] = Throw SyntaxError
  /\ RegExp_new (str "(|") [] = Throw SyntaxError
  /\ RegExp_new (str "a]") (str "u") = Throw SyntaxError
  /\ RegExp_new (str "a") (str "mm") = Throw SyntaxError
  /\ RegExp_new (str "a{2}") [] = Throw OutsideModel
  /\ RegExp_new (str "\s") [] = Throw OutsideModel
  /\ RegExp_new (str "(?=a)") [] = Throw OutsideModel
  /\ RegExp_new (str "a") (str "d") = Throw OutsideModel.
Proof. vm_compute. repeat split. Qed.

(** The module loads: every production of the table is built without an
    exception, whatever the capability flag. *)
Example productions_load (u : bool) :
  forallb (fun p => match p with Ok _ => true | Throw _ => false end)
          [Grammar.Char u; Grammar.S u; Grammar.S_OPT u;
           Grammar.NameStartChar u; Grammar.NameChar u; Grammar.Name u;
           Grammar.NCNameStartChar u; Grammar.NCNameChar u; Grammar.NCName u;
           Grammar.QName u; Grammar.QName_exact u; Grammar.QName_group u;
           Grammar.SystemLiteral u; Grammar.PubidLiteral u;
           Grammar.ExternalID u; Grammar.ExternalID_match u]
  = true.
Proof. destruct u; vm_compute; reflexivity. Qed.

End Evaluations.

(** ** More on the character-class algebra *)

Section ClassAlgebraMore.

Lemma lastIndexOf_from_absent (c : N) (q : jsstring) (i best : Z) :
  ~ In c q -> lastIndexOf_from i best q [c] = best.
Proof.
  revert i best; induction q as [|a q IH]; intros i best H; [reflexivity|].
  cbn [lastIndexOf_from starts_with].
  destruct (N.eqb_spec c a) as [->|_]; [exfalso; apply H; now left|].
  cbn [andb]. apply IH. intros Hq. apply H. now right.
Qed.

Lemma lastIndexOf_from_then (c : N) (x q : jsstring) (i best : Z) :
  ~ In c q ->
  lastIndexOf_from i best (x ++ c :: q) [c] = (i + Z.of_nat (length x))%Z.
Proof.
  intros H. revert i best; induction x as [|a x IH]; intros i best.
  - cbn [app lastIndexOf_from starts_with length]. rewrite N.eqb_refl.
    cbn [andb]. rewrite lastIndexOf_from_absent by exact H. cbn. lia.
  - cbn [app lastIndexOf_from length]. rewrite IH. lia.
Qed.

Lemma slice_body (X rest : jsstring) (a : N) :
  slice (a :: X ++ rest) 1 (1 + Z.of_nat (length X)) = X.
Proof.
  unfold slice.
  assert (L : Z.of_nat (length (a :: X ++ rest))
              = (Z.of_nat (length X) + Z.of_nat (length rest) + 1)%Z).
  { cbn [length]. rewrite length_app. lia. }
  rewrite L.
  change (1 <? 0)%Z with false. cbv iota.
  destruct (Z.ltb_spec (1 + Z.of_nat (length X)) 0) as [H|_]; [lia|].
  rewrite Z.min_l by lia. rewrite Z.min_l by lia.
  replace (Z.to_nat (1 + Z.of_nat (length X) - 1)) with (length X) by lia.
  change (Z.to_nat 1) with 1%nat. cbn [skipn].
  apply firstn_exact.
Qed.

Lemma chars_of_class (X Q : jsstring) (fl : flagset) :
  ~ In (ch "]") Q ->
  chars {| source := str "[" ++ X ++ str "]" ++ Q; flags := fl |} = Ok X.
Proof.
  intros H. unfold chars. cbn [source].
  change (str "[" ++ X ++ str "]" ++ Q) with (ch "[" :: X ++ ch "]" :: Q).
  change (starts_with_bracket (ch "[" :: X ++ ch "]" :: Q)) with true.
  cbn [negb]. f_equal.
  unfold lastIndexOf. change (str "]") with [ch "]"].
  cbn [lastIndexOf_from]. rewrite lastIndexOf_from_then by exact H.
  change (0 + 1)%Z with 1%Z. apply slice_body.
Qed.

(** X1. [chars] drops what follows the class, as its documentation says
    of trailing quantifiers: when the source is a class with interior [X]
    followed by a text [Q] without a closing bracket, the result is [X];
    [X] itself may hold closing brackets. *)
Theorem chars_drops_quantifier (X Q : jsstring) (fl : flagset) :
  ~ In (ch "]") Q ->
  chars {| source := str "[" ++ X ++ str "]" ++ Q; flags := fl |} = Ok X.
Proof. apply chars_of_class. Qed.

Lemma chars_drops_quantifier_witness :
  chars (RegExp_literal (str "[?*+]?")) = Ok (str "?*+")
  /\ chars (RegExp_literal (str "[\]a]+?")) = Ok (str "\]a").
Proof.
  split.
  - apply (@chars_drops_quantifier (str "?*+") (str "?") no_flags).
    vm_compute. intros [H|[]]. discriminate.
  - apply (@chars_drops_quantifier (str "\]a") (str "+?") no_flags).
    vm_compute. intros [H|[H|[]]]; discriminate.
Defined.

(** The index [indexOf] answers is that of the first occurrence. *)
Lemma indexOf_from_found (s p : jsstring) (i : Z) :
  indexOf_from i s p <> (-1)%Z ->
  exists pre post,
    s = pre ++ p ++ post
    /\ indexOf_from i s p = (i + Z.of_nat (length pre))%Z
    /\ forall pre' post', s = pre' ++ p ++ post' ->
                          length pre <= length pre'.
Proof.
  revert i; induction s as [|a s IH]; intros i H; cbn [indexOf_from] in *.
  - destruct (starts_with p []) eqn:E; [|contradiction].
    apply starts_with_inv in E as [post E].
    exists [], post. cbn. repeat split; [exact E | lia | intros; lia].
  - destruct (starts_with p (a :: s)) eqn:E.
    + apply starts_with_inv in E as [post E].
      exists [], post. cbn. repeat split; [exact E | lia | intros; lia].
    + destruct (IH _ H) as (pre & post & Es & Ei & Hmin).
      exists (a :: pre), post. cbn [app length].
      repeat split; [now rewrite Es | rewrite Ei; lia |].
      intros pre' post' E'. destruct pre' as [|b pre'].
      * cbn in E'. rewrite E', starts_with_app in E. discriminate.
      * injection E' as _ E'. cbn. apply Hmin in E'. lia.
Qed.

Lemma replace_first (s p r : jsstring) :
  indexOf s p <> (-1)%Z ->
  exists pre post,
    s = pre ++ p ++ post
    /\ indexOf s p = Z.of_nat (length pre)
    /\ replace s p r = pre ++ r ++ post
    /\ forall pre' post', s = pre' ++ p ++ post' ->
                          length pre <= length pre'.
Proof.
  intros H. destruct (indexOf_from_found _ _ _ H)
    as (pre & post & Es & Ei & Hmin).
  exists pre, post. fold (indexOf s p) in Ei. cbn in Ei.
  repeat split; auto.
  unfold replace. destruct (Z.eqb_spec (indexOf s p) (-1)); [contradiction|].
  rewrite Ei, Nat2Z.id. rewrite Es at 1 2.
  rewrite firstn_exact. f_equal. f_equal.
  rewrite app_assoc, <- length_app.
  now rewrite skipn_app, skipn_all, Nat.sub_diag.
Qed.

Lemma RegExp_new_source (p f : jsstring) (r : RegExp) :
  RegExp_new p f = Ok r -> source r = EscapeRegExpPattern p.
Proof.
  unfold RegExp_new.
  destruct (parse_flags f no_flags) as [fl|];
    [|now destruct (plain_flags f)].
  destruct (parse (unicode fl) p); [|now destruct (plain_syntax p)].
  now intros [= <-].
Qed.

(** What a character other than the backslash contributes to the escaped
    text, and the class state after it. *)
Lemma escape_pattern_step (a : N) (b : bool) :
  a <> ch "\" ->
  exists pre b',
    pre <> []
    /\ (forall t, escape_pattern b (a :: t) = pre ++ escape_pattern b' t)
    /\ (forall t, escape_pattern b (pre ++ t) = pre ++ escape_pattern b' t).
Proof.
  intros Hb. apply N.eqb_neq in Hb.
  destruct (N.eqb_spec a (ch "/")) as [->|H1].
  { destruct b.
    - exists [ch "/"], true. split; [discriminate|]. split; reflexivity.
    - exists [ch "\"; ch "/"], false.
      split; [discriminate|]. split; reflexivity. }
  destruct (N.eqb_spec a (ch "[")) as [->|H2].
  { exists [ch "["], true. split; [discriminate|]. split; reflexivity. }
  destruct (N.eqb_spec a (ch "]")) as [->|H3].
  { exists [ch "]"], false. split; [discriminate|]. split; reflexivity. }
  destruct (N.eqb_spec a 10) as [->|H4].
  { exists (str "\n"), b. split; [discriminate|].
    split; intros t; destruct b; reflexivity. }
  destruct (N.eqb_spec a 13) as [->|H5].
  { exists (str "\r"), b. split; [discriminate|].
    split; intros t; destruct b; reflexivity. }
  destruct (N.eqb_spec a 0x2028) as [->|H6].
  { exists (str "\u" ++ str "2028"), b. split; [discriminate|].
    split; intros t; destruct b; reflexivity. }
  destruct (N.eqb_spec a 0x2029) as [->|H7].
  { exists (str "\u" ++ str "2029"), b. split; [discriminate|].
    split; intros t; destruct b; reflexivity. }
  apply N.eqb_neq in H1, H2, H3, H4, H5, H6, H7.
  exists [a], b.
  assert (E : forall t,
             escape_pattern b (a :: t) = [a] ++ escape_pattern b t).
  { intros t. cbn [escape_pattern app].
    now rewrite Hb, H1, H2, H3, H4, H5, H6, H7. }
  split; [discriminate|]. split; exact E.
Qed.

(** Escaping an escaped text changes nothing. *)
Lemma escape_pattern_idempotent (s : jsstring) :
  forall b, escape_pattern b (escape_pattern b s) = escape_pattern b s.
Proof.
  induction s as [|a|a d l IH1 IH2] using pair_induction; intros b.
  - reflexivity.
  - destruct (N.eqb_spec a (ch "\")) as [->|Hb]; [reflexivity|].
    destruct (escape_pattern_step b Hb) as (pre & b' & _ & E1 & E2).
    rewrite E1, E2. reflexivity.
  - destruct (N.eqb_spec a (ch "\")) as [->|Hb].
    + cbn [escape_pattern]. rewrite N.eqb_refl.
      destruct (is_line_terminator d) eqn:L; [apply IH2|].
      cbn [escape_pattern]. rewrite N.eqb_refl, L. now rewrite IH1.
    + destruct (escape_pattern_step b Hb) as (pre & b' & _ & E1 & E2).
      rewrite E1, E2. now rewrite IH2.
Qed.

Lemma escape_pattern_nonempty (s : jsstring) (b : bool) :
  s <> [] -> escape_pattern b s <> [].
Proof.
  assert (St : forall a t, a <> ch "\" -> escape_pattern b (a :: t) <> []).
  { intros a t Ha.
    destruct (escape_pattern_step b Ha) as (pre & b' & N & E1 & _).
    rewrite E1. intros E. apply app_eq_nil in E as [E _]. contradiction. }
  destruct s as [|a t]; [contradiction|]. intros _.
  destruct (N.eqb_spec a (ch "\")) as [->|Hb]; [|now apply St].
  cbn [escape_pattern]. rewrite N.eqb_refl.
  destruct t as [|d t]; [discriminate|].
  destruct (is_line_terminator d) eqn:L; [|discriminate].
  apply St. intros ->. discriminate.
Qed.

Lemma EscapeRegExpPattern_idempotent (p : jsstring) :
  EscapeRegExpPattern (EscapeRegExpPattern p) = EscapeRegExpPattern p.
Proof.
  destruct p as [|a t]; [reflexivity|]. unfold EscapeRegExpPattern.
  destruct (escape_pattern false (a :: t)) eqn:E.
  - exfalso. revert E. now apply escape_pattern_nonempty.
  - rewrite <- E. apply escape_pattern_idempotent.
Qed.

(** The source of a pattern the constructor returns is one that escaping
    leaves as it is. *)
Lemma RegExp_new_source_fixed (p f : jsstring) (r : RegExp) :
  RegExp_new p f = Ok r -> EscapeRegExpPattern (source r) = source r.
Proof.
  intros H. apply RegExp_new_source in H. rewrite H.
  apply EscapeRegExpPattern_idempotent.
Qed.

(** A text without [/] and without line terminator is left as it is. *)
Lemma escape_pattern_plain (t : jsstring) :
  Forall (fun c => c <> ch "/" /\ is_line_terminator c = false) t ->
  forall b, escape_pattern b t = t.
Proof.
  assert (LT : forall c, is_line_terminator c = false ->
                 (c =? 10)%N = false /\ (c =? 13)%N = false
                 /\ (c =? 0x2028)%N = false /\ (c =? 0x2029)%N = false).
  { intros c H. unfold is_line_terminator in H.
    apply orb_false_iff in H as [H H4]. apply orb_false_iff in H as [H H3].
    apply orb_false_iff in H as [H1 H2]. auto. }
  assert (One : forall c t b,
             c <> ch "/" -> is_line_terminator c = false ->
             (c =? ch "\")%N = false ->
             escape_pattern b t = t ->
             escape_pattern true t = t -> escape_pattern false t = t ->
             escape_pattern b (c :: t) = c :: t).
  { intros c t0 b Hs Hl Hb E Et Ef. cbn [escape_pattern]. rewrite Hb.
    apply N.eqb_neq in Hs. rewrite Hs. cbn [andb].
    destruct (LT c Hl) as (-> & -> & -> & ->).
    destruct (c =? ch "[")%N; [now rewrite Et|].
    destruct (c =? ch "]")%N; [now rewrite Ef|].
    now rewrite E. }
  induction t as [|a|a d l IH1 IH2] using pair_induction; intros F b.
  - reflexivity.
  - inversion_clear F as [|? ? [Hs Hl] _].
    destruct (N.eqb_spec a (ch "\")) as [->|Hb]; [reflexivity|].
    apply One; auto. now apply N.eqb_neq.
  - inversion_clear F as [|? ? [Hs Hl] F'].
    destruct (N.eqb_spec a (ch "\")) as [->|Hb].
    + inversion_clear F' as [|? ? [Hs' Hl'] F''].
      cbn [escape_pattern]. rewrite N.eqb_refl, Hl'.
      now rewrite IH1.
    + apply One; auto. now apply N.eqb_neq.
Qed.

Lemma EscapeRegExpPattern_plain (t : jsstring) :
  t <> [] ->
  Forall (fun c => c <> ch "/" /\ is_line_terminator c = false) t ->
  EscapeRegExpPattern t = t.
Proof.
  intros N F. destruct t as [|c t]; [contradiction|].
  unfold EscapeRegExpPattern. now apply escape_pattern_plain.
Qed.

(** X2. A pattern returned by [chars_without] is built from the source of
    its argument with exactly the first occurrence of the token cut out:
    everything before it and everything after it, later occurrences
    included, is kept.  The source of the result is the source the runtime
    gives that text: the text itself when it is not empty and holds no [/]
    and no line terminator, its escaped form in general. *)
Theorem chars_without_cuts_first_occurrence
  (u : bool) (re r : RegExp) (tok : value) :
  chars_without u re tok = Ok r ->
  exists s pre post,
    tok = VString s
    /\ source re = pre ++ s ++ post
    /\ (forall pre' post', source re = pre' ++ s ++ post' ->
                           length pre <= length pre')
    /\ source r = EscapeRegExpPattern (pre ++ post)
    /\ (pre ++ post <> [] ->
        Forall (fun c => c <> ch "/" /\ is_line_terminator c = false)
               (pre ++ post) ->
        source r = pre ++ post).
Proof.
  intros H. pose proof H as H0. unfold chars_without in H0.
  destruct (negb (starts_with_bracket (source re))); [discriminate|].
  destruct (negb (truthy tok) || negb (is_string tok)); [discriminate|].
  destruct tok as [| | | |s|]; try discriminate.
  destruct (Z.eqb_spec (indexOf (source re) s) (-1)) as [|E]; [discriminate|].
  destruct (jsstring_eqb s (str "-") && _); [discriminate|].
  destruct (replace_first (source re) s [] E) as (pre & post & Es & _ & Er & M).
  apply RegExp_new_source in H0. rewrite Er in H0. cbn [app] in H0.
  exists s, pre, post.
  split; [reflexivity|]. split; [exact Es|]. split; [exact M|].
  split; [exact H0|].
  intros N F. rewrite H0. now apply EscapeRegExpPattern_plain.
Qed.

Lemma chars_without_cuts_first_occurrence_witness :
  exists s pre post,
    VString (str "a") = VString s
    /\ str "[abab]" = pre ++ s ++ post
    /\ (forall pre' post', str "[abab]" = pre' ++ s ++ post' ->
                           length pre <= length pre')
    /\ str "[bab]" = EscapeRegExpPattern (pre ++ post)
    /\ (pre ++ post <> [] ->
        Forall (fun c => c <> ch "/" /\ is_line_terminator c = false)
               (pre ++ post) ->
        str "[bab]" = pre ++ post).
Proof.
  apply (@chars_without_cuts_first_occurrence true
           (RegExp_literal (str "[abab]"))
           {| source := str "[bab]"; flags := class_flags true |}
           (VString (str "a"))).
  vm_compute. reflexivity.
Defined.

(** X3. A hyphen is only ever removed from the first position of the
    class: when [chars_without] succeeds for the token [-], the source of
    its argument is an opening bracket, a hyphen and a text [t], and the
    result is built from the opening bracket and [t].  Its source is the
    opening bracket and [t] whenever the source of the argument is one the
    runtime reports (escaping leaves it as it is), which holds of every
    pattern object. *)
Theorem chars_without_hyphen (u : bool) (re r : RegExp) :
  chars_without u re (VString (str "-")) = Ok r ->
  exists t,
    source re = str "[-" ++ t
    /\ source r = EscapeRegExpPattern (str "[" ++ t)
    /\ (EscapeRegExpPattern (source re) = source re ->
        source r = str "[" ++ t).
Proof.
  intros H. pose proof H as H0. unfold chars_without in H0.
  destruct (starts_with_bracket (source re)) eqn:B; [|discriminate].
  cbn [negb truthy is_string str orb] in H0.
  change (map N_of_ascii (list_ascii_of_string "-")) with (str "-") in H0.
  destruct (Z.eqb_spec (indexOf (source re) (str "-")) (-1)) as [|E];
    [discriminate|].
  change (jsstring_eqb (str "-") (str "-")) with true in H0. cbn [andb] in H0.
  destruct (Z.eqb_spec (indexOf (source re) (str "-")) 1) as [E1|];
    [|discriminate].
  cbn [negb] in H0.
  destruct (replace_first (source re) (str "-") [] E)
    as (pre & post & Es & Ei & Er & _).
  rewrite E1 in Ei. destruct pre as [|c [|? ?]]; try (cbn in Ei; lia).
  rewrite Es in B. unfold starts_with_bracket in B. cbn in B.
  apply N.eqb_eq in B. subst c.
  apply RegExp_new_source in H0. rewrite Er in H0.
  exists post. split; [exact Es|]. split; [exact H0|].
  intros G. rewrite H0. rewrite Es in G.
  change (ch "[" :: ch "-" :: escape_pattern true post
          = ch "[" :: ch "-" :: post) in G.
  change (ch "[" :: escape_pattern true post = ch "[" :: post).
  injection G as G. now rewrite G.
Qed.

Lemma chars_without_hyphen_witness :
  exists t,
    str "[-.0-9]" = str "[-" ++ t
    /\ str "[.0-9]" = EscapeRegExpPattern (str "[" ++ t)
    /\ (EscapeRegExpPattern (str "[-.0-9]") = str "[-.0-9]" ->
        str "[.0-9]" = str "[" ++ t).
Proof.
  apply (@chars_without_hyphen false (RegExp_literal (str "[-.0-9]"))
           {| source := str "[.0-9]"; flags := class_flags false |}).
  vm_compute. reflexivity.
Defined.

End ClassAlgebraMore.

Section ClassBody.

Lemma app_split_length (A : Type) (a b c d : list A) :
  a ++ b = c ++ d -> length a = length c -> a = c /\ b = d.
Proof.
  revert c; induction a as [|x a IH]; intros [|y c] H L;
    try discriminate L.
  - now split.
  - injection H as -> H. injection L as L.
    destruct (IH _ H L) as [-> ->]. now split.
Qed.

Lemma app_prefix_within (A : Type) (x r a b : list A) :
  x ++ r = a ++ b -> length a <= length x ->
  exists c, x = a ++ c /\ b = c ++ r.
Proof.
  revert a; induction x as [|h x IH]; intros a H L.
  - destruct a; [|cbn in L; lia]. exists []. now split.
  - destruct a as [|h' a].
    + exists (h :: x). now split.
    + injection H as -> H. cbn in L.
      destruct (IH a H) as (c & -> & ->); [lia|]. now exists c.
Qed.

(** X4. [chars] after [chars_without] gives the class body without the
    first occurrence of the token: for a class with interior [X], followed
    by a text without closing bracket, and a token that occurs in [X] and
    does not begin with the opening bracket, the interior of the pattern
    [chars_without] returns is [X] with its first occurrence of the token
    removed, provided the class so obtained is a source as it stands, that
    is, the runtime has nothing to escape in it (no line terminator, no
    [/] outside a class). *)
Theorem chars_of_chars_without
  (u : bool) (X Q s : jsstring) (fl : flagset) (r : RegExp) :
  ~ In (ch "]") Q ->
  occurs s X ->
  hd_error s <> Some (ch "[") ->
  EscapeRegExpPattern (str "[" ++ replace X s [] ++ str "]" ++ Q)
  = str "[" ++ replace X s [] ++ str "]" ++ Q ->
  chars_without u {| source := str "[" ++ X ++ str "]" ++ Q; flags := fl |}
                (VString s) = Ok r ->
  chars r = Ok (replace X s []).
Proof.
  intros HQ Hocc Hhd HE H.
  assert (Hs : s <> []).
  { intros ->. unfold chars_without in H. cbn in H. discriminate. }
  assert (EX : indexOf X s <> (-1)%Z).
  { intros E. apply indexOf_absent in E. contradiction. }
  destruct (replace_first X s [] EX) as (pX & qX & EsX & _ & ErX & MX).
  destruct (chars_without_constructs _ _ _ H) as (s0 & [= <-] & Hnew).
  pose proof H as H0. unfold chars_without in H0.
  cbn [source] in *.
  destruct (negb (starts_with_bracket _)); [discriminate|].
  destruct (negb (truthy (VString s)) || negb (is_string (VString s)));
    [discriminate|].
  destruct (Z.eqb_spec (indexOf (str "[" ++ X ++ str "]" ++ Q) s) (-1))
    as [|E]; [discriminate|].
  clear H0.
  destruct (replace_first _ s [] E) as (pre & post & Es & _ & Er & M).
  change (str "[" ++ X ++ str "]" ++ Q) with (ch "[" :: X ++ ch "]" :: Q)
    in *.
  assert (L1 : length pre <= length (ch "[" :: pX)).
  { apply (M (ch "[" :: pX) (qX ++ ch "]" :: Q)).
    rewrite EsX at 1. cbn [app]. now rewrite <- !app_assoc. }
  destruct pre as [|b pre2].
  { exfalso. destruct s as [|c s']; [now apply Hs|].
    cbn in Es. injection Es as <- _. now apply Hhd. }
  cbn [app] in Es. injection Es as <- Es. cbn [length] in L1.
  rewrite app_assoc in Es.
  destruct (app_prefix_within _ _ _ _ Es) as (post2 & EX2 & Epost).
  { rewrite length_app.
    rewrite EsX, !length_app. lia. }
  rewrite <- app_assoc in EX2.
  pose proof (MX _ _ EX2) as L2.
  rewrite EsX in EX2.
  destruct (app_split_length _ _ _ _ EX2) as [<- E2]; [lia|].
  apply app_inv_head in E2. subst post2 post.
  apply RegExp_new_source in Hnew. rewrite Er in Hnew. cbn [app] in Hnew.
  assert (T : str "[" ++ replace X s [] ++ str "]" ++ Q
              = ch "[" :: pX ++ qX ++ ch "]" :: Q).
  { rewrite ErX. cbn [app].
    change (str "[" ++ (pX ++ qX) ++ str "]" ++ Q)
      with (ch "[" :: (pX ++ qX) ++ ch "]" :: Q).
    now rewrite <- app_assoc. }
  rewrite T in HE.
  assert (Hsrc : source r = ch "[" :: pX ++ qX ++ ch "]" :: Q)
    by (rewrite Hnew; exact HE).
  clear Hnew. rename Hsrc into Hnew.
  destruct r as [src flr]. cbn [source] in Hnew. subst src.
  rewrite ErX. cbn [app].
  rewrite (app_assoc pX qX).
  apply (chars_of_class (pX ++ qX) Q flr HQ).
Qed.

Lemma chars_of_chars_without_witness :
  chars {| source := str "[_a-z]*"; flags := class_flags true |}
  = Ok (replace (str ":_a-z") (str ":") []).
Proof.
  apply (@chars_of_chars_without true (str ":_a-z") (str "*") (str ":")
           no_flags).
  - vm_compute. intros [H|[]]. discriminate.
  - now exists [], (str "_a-z").
  - vm_compute. discriminate.
  - vm_compute. reflexivity.
  - vm_compute. reflexivity.
Defined.

End ClassBody.

(** ** More on pattern composition *)

Section CompositionMore.

Variable u : bool.

Lemma map_parts_app (self : receiver) (a b : list part) :
  map_parts self (a ++ b)
  = (l1 <- map_parts self a ;; l2 <- map_parts self b ;; Ok (l1 ++ l2)).
Proof.
  induction a as [|p a IH]; cbn [app map_parts bind].
  - now destruct (map_parts self b).
  - destruct (part_text self p) as [t|e]; cbn [bind]; [|reflexivity].
    rewrite IH. destruct (map_parts self a) as [l1|e]; cbn [bind];
      [|reflexivity].
    now destruct (map_parts self b).
Qed.

Lemma map_parts_ok (self : receiver) (args : list part)
  (ss : list jsstring) :
  map_parts self args = Ok ss -> ss = map text_of args.
Proof.
  revert ss; induction args as [|p args IH]; intros ss H; cbn in H.
  - now injection H as <-.
  - destruct (part_text self p) as [t|e] eqn:T; [|discriminate].
    cbn [bind] in H.
    destruct (map_parts self args) as [l|e]; [|discriminate].
    injection H as <-. cbn [map]. rewrite <- (IH l eq_refl). f_equal.
    destruct p as [s|r]; cbn [part_text text_of] in T |- *.
    + destruct self; [destruct (jsstring_eqb s (str "|"))| |];
        congruence.
    + congruence.
Qed.

(** A succeeding plain [reg] has no bare alternation among its arguments,
    so its arguments pass the callback under either receiver. *)
Lemma map_parts_any_receiver (self : receiver) (args : list part)
  (ss : list jsstring) :
  map_parts this_undefined args = Ok ss -> map_parts self args = Ok ss.
Proof.
  intros H. rewrite (map_parts_ok _ _ H).
  destruct self; [now rewrite <- (map_parts_ok _ _ H)| |];
    now apply map_parts_unguarded.
Qed.

Lemma reg_this_splice (self : receiver) (pre post : list part)
  (mid mid' : list part) :
  map_parts self mid = map_parts self mid' \/
  (exists a b, map_parts self mid = Ok a /\ map_parts self mid' = Ok b
               /\ concat a = concat b) ->
  reg_this u self (pre ++ mid ++ post) = reg_this u self (pre ++ mid' ++ post).
Proof.
  intros H. unfold reg_this. rewrite !map_parts_app.
  destruct (map_parts self pre) as [l1|e]; cbn [bind]; [|reflexivity].
  destruct H as [->|(a & b & -> & -> & E)]; [reflexivity|]. cbn [bind].
  destruct (map_parts self post) as [l3|e]; cbn [bind]; [|reflexivity].
  now rewrite !concat_app, E.
Qed.

Lemma regg_splice (pre post mid mid' : list part) :
  mid <> [] -> mid' <> [] ->
  map_parts this_regg mid = map_parts this_regg mid' \/
  (exists a b, map_parts this_regg mid = Ok a
               /\ map_parts this_regg mid' = Ok b
               /\ concat a = concat b) ->
  regg u (pre ++ mid ++ post) = regg u (pre ++ mid' ++ post).
Proof.
  intros N N' H. unfold regg.
  destruct (pre ++ mid ++ post) eqn:E1.
  { apply app_eq_nil in E1 as [_ E1]. apply app_eq_nil in E1 as [E1 _].
    contradiction. }
  rewrite <- E1.
  destruct (pre ++ mid' ++ post) eqn:E2.
  { apply app_eq_nil in E2 as [_ E2]. apply app_eq_nil in E2 as [E2 _].
    contradiction. }
  rewrite <- E2.
  replace (PStr (str "(?:") :: (pre ++ mid ++ post) ++ [PStr (str ")")])
    with ((PStr (str "(?:") :: pre) ++ mid ++ (post ++ [PStr (str ")")]))
    by (cbn [app]; now rewrite <- !app_assoc).
  replace (PStr (str "(?:") :: (pre ++ mid' ++ post) ++ [PStr (str ")")])
    with ((PStr (str "(?:") :: pre) ++ mid' ++ (post ++ [PStr (str ")")]))
    by (cbn [app]; now rewrite <- !app_assoc).
  now apply reg_this_splice.
Qed.

(** X5. Nesting [reg] is the same as splicing the arguments in: when an
    inner call of [reg] returns a pattern and the text of its arguments is
    a source as it stands (it is not empty, and the runtime has nothing to
    escape in it: no line terminator, no [/] outside a class), a call of
    [reg] or [regg] with that pattern among its arguments returns what it
    returns with the arguments of the inner call in its place. *)
Theorem reg_nested (inner pre post : list part) (r : RegExp) :
  reg u inner = Ok r ->
  EscapeRegExpPattern (concat (map text_of inner))
  = concat (map text_of inner) ->
  reg u (pre ++ PRe r :: post) = reg u (pre ++ inner ++ post)
  /\ regg u (pre ++ PRe r :: post) = regg u (pre ++ inner ++ post).
Proof.
  intros H Hne. unfold reg, reg_this in H.
  destruct (map_parts this_undefined inner) as [ss|e] eqn:Mi;
    [|discriminate].
  cbn [bind] in H. apply RegExp_new_source in H.
  pose proof (map_parts_ok _ _ Mi) as Ess. subst ss.
  rewrite Hne in H.
  assert (Sp : forall self,
             exists a b, map_parts self [PRe r] = Ok a
                         /\ map_parts self inner = Ok b
                         /\ concat a = concat b).
  { intros self. exists [source r], (map text_of inner).
    split; [reflexivity|]. split; [now apply map_parts_any_receiver|].
    cbn [concat]. now rewrite app_nil_r, H. }
  split.
  - unfold reg.
    apply (reg_this_splice this_undefined pre post [PRe r] inner).
    right. apply Sp.
  - apply (@regg_splice pre post [PRe r] inner).
    + discriminate.
    + intros ->. discriminate.
    + right. apply Sp.
Qed.

(** X6. [reg] and [regg] read nothing but the source of a pattern
    argument: two patterns with the same source, whatever their flags, give
    the same result in the same place. *)
Theorem reg_reads_sources_only (pre post : list part) (r1 r2 : RegExp) :
  source r1 = source r2 ->
  reg u (pre ++ PRe r1 :: post) = reg u (pre ++ PRe r2 :: post)
  /\ regg u (pre ++ PRe r1 :: post) = regg u (pre ++ PRe r2 :: post).
Proof.
  intros E.
  assert (Sp : forall self,
             map_parts self [PRe r1] = map_parts self [PRe r2]).
  { intros self. cbn. now rewrite E. }
  split.
  - unfold reg.
    apply (reg_this_splice this_undefined pre post [PRe r1] [PRe r2]).
    left. apply Sp.
  - apply (@regg_splice pre post [PRe r1] [PRe r2]); try discriminate.
    left. apply Sp.
Qed.

End CompositionMore.

Lemma reg_nested_witness :
  reg true [PStr (str "^"); PRe {| source := str "ab";
                                   flags := composed_flags true |};
            PStr (str "$")]
  = reg true [PStr (str "^"); PStr (str "a");
              PRe (RegExp_literal (str "b")); PStr (str "$")]
  /\ regg true [PStr (str "^"); PRe {| source := str "ab";
                                       flags := composed_flags true |};
                PStr (str "$")]
     = regg true [PStr (str "^"); PStr (str "a");
                  PRe (RegExp_literal (str "b")); PStr (str "$")].
Proof.
  apply (@reg_nested true [PStr (str "a"); PRe (RegExp_literal (str "b"))]
           [PStr (str "^")] [PStr (str "$")]).
  - vm_compute. reflexivity.
  - vm_compute. reflexivity.
Defined.

Lemma reg_reads_sources_only_witness :
  reg false [PRe (RegExp_literal (str "[b]")); PStr (str "+")]
  = reg false [PRe {| source := str "[b]"; flags := class_flags true |};
               PStr (str "+")]
  /\ regg false [PRe (RegExp_literal (str "[b]")); PStr (str "+")]
     = regg false [PRe {| source := str "[b]"; flags := class_flags true |};
                   PStr (str "+")].
Proof.
  apply (@reg_reads_sources_only false [] [PStr (str "+")]).
  reflexivity.
Defined.

(** ** The production table *)

Section Table.

Variable u : bool.

(** X7. The module loads: every production of the table is built without
    an exception, with either value of the capability flag, and each has a
    source the engine accepts under the flags it carries.  In particular
    every call of [chars], [chars_without], [reg] and [regg] in the table
    meets the checks of that function. *)
Theorem module_loads : forallb usable (Grammar.productions u) = true.
Proof. destruct u; vm_compute; reflexivity. Qed.

Lemma S_parse :
  exists re, Grammar.S u = Ok re
             /\ flags re = composed_flags u
             /\ parse u (source re) = Some S_ast.
Proof.
  destruct u; eexists; (split; [vm_compute; reflexivity|]);
    split; vm_compute; reflexivity.
Qed.

Lemma S_OPT_parse :
  exists re, Grammar.S_OPT u = Ok re
             /\ flags re = composed_flags u
             /\ parse u (source re) = Some S_OPT_ast.
Proof.
  destruct u; eexists; (split; [vm_compute; reflexivity|]);
    split; vm_compute; reflexivity.
Qed.

Lemma Name_parse :
  exists re, Grammar.Name u = Ok re
             /\ flags re = composed_flags u
             /\ parse u (source re) = Some (Name_ast u).
Proof.
  destruct u; eexists; (split; [vm_compute; reflexivity|]);
    split; vm_compute; reflexivity.
Qed.

Lemma QName_parse :
  exists re, Grammar.QName u = Ok re
             /\ flags re = composed_flags u
             /\ parse u (source re) = Some (QName_ast u).
Proof.
  destruct u; eexists; (split; [vm_compute; reflexivity|]);
    split; vm_compute; reflexivity.
Qed.

Lemma Comment_parse :
  exists re, Grammar.Comment u = Ok re
             /\ flags re = composed_flags u
             /\ parse u (source re) = Some (Comment_ast u).
Proof.
  destruct u; eexists; (split; [vm_compute; reflexivity|]);
    split; vm_compute; reflexivity.
Qed.

Lemma CDSect_parse :
  exists re, Grammar.CDSect u = Ok re
             /\ flags re = composed_flags u
             /\ parse u (source re) = Some (CDSect_ast u).
Proof.
  destruct u; eexists; (split; [vm_compute; reflexivity|]);
    split; vm_compute; reflexivity.
Qed.

End Table.

(** ** Matching with the productions *)

Section ProductionMatching.

Variable u : bool.

Lemma exec_on_sound (p : result RegExp) (re : RegExp) (r : regex)
  (s : jsstring) (res : match_result) :
  p = Ok re -> flags re = composed_flags u ->
  parse u (source re) = Some r -> wf r = true ->
  exec_on p s = Ok (Some res) ->
  exists pre w post,
    chars_of u s = pre ++ w ++ post
    /\ lang r w
    /\ matched res = string_of u w
    /\ index res = length (string_of u pre).
Proof.
  intros -> F P W H. unfold exec_on in H. cbn [bind] in H. injection H as H.
  assert (U : unicode (flags re) = u) by now rewrite F.
  rewrite <- U in P.
  destruct (exec_sound _ _ P W H) as (pre & w & post & C & L & M & I).
  rewrite U in *. now exists pre, w, post.
Qed.

Lemma exec_on_commits (p : result RegExp) (re : RegExp) (r : regex)
  (s : jsstring) (w tail : list N) (cs : list (nat * list N)) :
  p = Ok re -> flags re = composed_flags u ->
  parse u (source re) = Some r ->
  chars_of u s = w ++ tail ->
  commits (composed_flags u) r (start_state (w ++ tail)) w tail cs ->
  exec_on p s = Ok (Some (match_of u r w cs)).
Proof.
  intros -> F P C H. unfold exec_on. cbn [bind]. f_equal.
  assert (U : unicode (flags re) = u) by now rewrite F.
  rewrite <- U in P, C |- *. rewrite <- F in H.
  now apply exec_commits with (tail := tail).
Qed.

Lemma in_ranges_within (rs rs' : list (N * N)) (a : N) :
  ranges_within rs rs' = true ->
  in_ranges rs a = true -> in_ranges rs' a = true.
Proof.
  unfold ranges_within, in_ranges. intros W H.
  apply existsb_exists in H as (r & Hr & Ha).
  rewrite forallb_forall in W. apply W in Hr.
  apply existsb_exists in Hr as (r' & Hr' & Hb).
  apply existsb_exists. exists r'. split; [exact Hr'|].
  apply andb_true_iff in Ha as [A1 A2]. apply andb_true_iff in Hb as [B1 B2].
  apply N.leb_le in A1, A2, B1, B2.
  apply andb_true_iff. split; apply N.leb_le; lia.
Qed.

Lemma white_class (a : N) : class_mem false S_ranges a = true <-> white a.
Proof.
  unfold class_mem, in_ranges, S_ranges, white. cbn [xorb existsb fst snd].
  rewrite !orb_true_iff, !andb_true_iff, !N.leb_le. cbn. lia.
Qed.

Lemma encode_bmp (w : list N) :
  Forall (fun c => (c < 0x10000)%N) w -> encode w = w.
Proof.
  induction 1 as [|c w Hc _ IH]; [reflexivity|].
  now rewrite encode_cons, encode1_unit, IH.
Qed.

Lemma string_of_bmp (w : list N) :
  Forall (fun c => (c < 0x10000)%N) w -> string_of u w = w.
Proof. destruct u; [apply encode_bmp | reflexivity]. Qed.

Lemma white_bmp (w : list N) :
  Forall white w -> Forall (fun c => (c < 0x10000)%N) w.
Proof.
  apply Forall_impl. unfold white. intros a [->|[->|[->| ->]]]; reflexivity.
Qed.

(** X8. Whatever [S] matches is a non-empty run of the four white space
    characters. *)
Theorem S_matches_white_space (s : jsstring) (res : match_result) :
  exec_on (Grammar.S u) s = Ok (Some res) ->
  matched res <> [] /\ Forall white (matched res).
Proof.
  intros H. destruct S_parse with (u := u) as (re & E & F & P).
  destruct (exec_on_sound _ E F P eq_refl H)
    as (pre & w & post & _ & L & M & _).
  apply lang_rep_cls in L as [L1 L2].
  assert (Wh : Forall white w).
  { revert L1. apply Forall_impl. intros a. apply white_class. }
  rewrite M, (string_of_bmp (white_bmp Wh)).
  split; [|exact Wh]. destruct w; [cbn in L2; lia | discriminate].
Qed.

Lemma span_white (s : jsstring) :
  exists ws t, s = ws ++ t /\ Forall white ws
               /\ match t with [] => True | c :: _ => ~ white c end.
Proof.
  induction s as [|a s (ws & t & -> & W & T)].
  - exists [], []. repeat split; constructor.
  - destruct (class_mem false S_ranges a) eqn:C.
    + exists (a :: ws), t. repeat split; auto.
      constructor; [now apply white_class | exact W].
    + exists [], (a :: ws ++ t). repeat split; [constructor|].
      intros Ha. apply white_class in Ha. congruence.
Qed.

Lemma chars_of_white_prefix (ws t : jsstring) :
  Forall white ws -> chars_of u (ws ++ t) = ws ++ chars_of u t.
Proof.
  destruct u; cbn; [|reflexivity].
  induction 1 as [|c ws Hc _ IH]; [reflexivity|].
  cbn [app]. rewrite decode_cons_low, IH; [reflexivity|].
  destruct Hc as [->|[->|[->| ->]]]; reflexivity.
Qed.

Lemma chars_of_stops_white (t : jsstring) :
  match t with [] => True | c :: _ => ~ white c end ->
  stop_cls false S_ranges (chars_of u t).
Proof.
  assert (NW : forall c, ~ white c -> class_mem false S_ranges c = false).
  { intros c Hc. destruct (class_mem false S_ranges c) eqn:E; [|reflexivity].
    apply white_class in E. contradiction. }
  destruct t as [|c t]; [now destruct u|]. intros Hc.
  destruct u; cbn [chars_of]; [|now apply NW].
  destruct t as [|l t]; [now apply NW|].
  rewrite decode_cons2. destruct (is_high c && is_low l) eqn:E;
    [|now apply NW].
  apply andb_true_iff in E as [Eh El].
  destruct (pair_cp_split _ _ Eh El) as (G & _ & _).
  apply NW. unfold white. lia.
Qed.

(** X9. [S_OPT] never fails: on every subject it matches at index 0, and
    what it matches is exactly the leading white space, up to the first
    character that is not white space. *)
Theorem S_OPT_always_matches (s : jsstring) :
  exists ws t,
    s = ws ++ t
    /\ Forall white ws
    /\ match t with [] => True | c :: _ => ~ white c end
    /\ exec_on (Grammar.S_OPT u) s
       = Ok (Some {| index := 0; matched := ws;
                     captures := []; groups := [] |}).
Proof.
  destruct (span_white s) as (ws & t & -> & W & T).
  exists ws, t. repeat split; auto.
  destruct S_OPT_parse with (u := u) as (re & E & F & P).
  assert (L : lang S_OPT_ast ws).
  { exists (map (fun a => [a]) ws). repeat split.
    - clear. induction ws as [|a ws IH]; [reflexivity|].
      cbn. now rewrite <- IH.
    - apply Forall_map. revert W. apply Forall_impl.
      intros a Ha. exists a. split; [reflexivity | now apply white_class].
    - lia. }
  destruct (@det_rep_cls (composed_flags u) 0 false S_ranges ws L [])
    as [cs Hcs].
  rewrite (@exec_on_commits _ re S_OPT_ast (ws ++ t) ws (chars_of u t) cs
             E F P).
  - unfold match_of. cbn. now rewrite (string_of_bmp (white_bmp W)).
  - now apply chars_of_white_prefix.
  - apply Hcs; [reflexivity | reflexivity |].
    now apply chars_of_stops_white.
Qed.

End ProductionMatching.

Lemma S_matches_white_space_witness :
  str "  " <> [] /\ Forall white (str "  ").
Proof.
  apply (@S_matches_white_space true (str "a  b")
           {| index := 1; matched := str "  "; captures := [];
              groups := [] |}).
  vm_compute. reflexivity.
Defined.

(** ** Qualified names *)

Section QualifiedNames.

Variable u : bool.

Lemma string_of_app (a b : list N) :
  string_of u (a ++ b) = string_of u a ++ string_of u b.
Proof. destruct u; [apply encode_app | reflexivity]. Qed.

Lemma string_of_nil_inv (w : list N) : string_of u w = [] -> w = [].
Proof.
  destruct u; cbn; [|auto]. intros H.
  pose proof (encode_length w) as L. rewrite H in L.
  destruct w; [reflexivity | cbn in L; lia].
Qed.

Lemma NCName_ast_nonempty (w : list N) : lang (NCName_ast u) w -> w <> [].
Proof.
  unfold NCName_ast. cbn [lang].
  intros (w1 & w2 & -> & (a & -> & _) & _). discriminate.
Qed.

Lemma NCName_colon_free (w : list N) :
  lang (NCName_ast u) w -> colon_free (string_of u w).
Proof.
  intros L. split.
  - intros E. apply string_of_nil_inv in E. revert E.
    now apply NCName_ast_nonempty.
  - intros Hin. apply In_string_of in Hin; [|reflexivity].
    eapply NCName_ast_no_colon; eassumption.
Qed.

(** A word of [QName] is a word of [NCName], or two of them around the
    separator. *)
Lemma lang_QName_split (w : list N) :
  lang (QName_ast u) w ->
  exists a, lang (NCName_ast u) a
            /\ (w = a \/ exists b, lang (NCName_ast u) b
                                   /\ w = a ++ [58%N] ++ b).
Proof.
  unfold QName_ast. cbn [lang].
  intros (w1 & w2 & -> & L1 & (w3 & w4 & -> & L3 & L4)).
  destruct L4 as (ws & -> & F & _ & Hmx).
  exists (w1 ++ w3). split.
  { unfold NCName_ast. cbn [lang]. now exists w1, w3. }
  destruct ws as [|x [|y ws]]; [| |cbn in Hmx; lia].
  - left. cbn. now rewrite app_nil_r.
  - right. inversion_clear F as [|? ? Hx _].
    destruct Hx as (c & b & -> & -> & Lb).
    exists b. split; [exact Lb|]. cbn. now rewrite app_nil_r, <- app_assoc.
Qed.

(** X10. What [QName] matches is a name without separator, or two such
    names around one separator: the separator occurs at most once, and
    never first or last. *)
Theorem QName_shape (s : jsstring) (res : match_result) :
  exec_on (Grammar.QName u) s = Ok (Some res) ->
  exists a,
    colon_free a
    /\ (matched res = a
        \/ exists b, colon_free b /\ matched res = a ++ str ":" ++ b).
Proof.
  intros H. destruct QName_parse with (u := u) as (re & E & F & P).
  assert (W : wf (QName_ast u) = true) by now destruct u.
  destruct (exec_on_sound _ E F P W H) as (pre & w & post & _ & L & M & _).
  apply lang_QName_split in L as (a & La & [->|(b & Lb & ->)]).
  - exists (string_of u a). split; [now apply NCName_colon_free | now left].
  - exists (string_of u a). split; [now apply NCName_colon_free|].
    right. exists (string_of u b). split; [now apply NCName_colon_free|].
    rewrite M, !string_of_app. f_equal. f_equal.
    now destruct u.
Qed.

(** A run of characters of a class is a word of the repeated class. *)
Lemma lang_class_run (g neg : bool) (rs : list (N * N)) (l : list N) :
  Forall (fun a => class_mem neg rs a = true) l ->
  lang (Rep 0 None g (Cls neg rs)) l.
Proof.
  intros F. exists (map (fun a => [a]) l). repeat split.
  - clear. induction l as [|a l IH]; [reflexivity|]. cbn. now rewrite <- IH.
  - apply Forall_map. revert F. apply Forall_impl. intros a Ha. now exists a.
  - lia.
Qed.

Lemma class_within (rs rs' : list (N * N)) (a : N) :
  ranges_within rs rs' = true ->
  class_mem false rs a = true -> class_mem false rs' a = true.
Proof. unfold class_mem. cbn [xorb]. apply in_ranges_within. Qed.

Lemma NameChar_within :
  ranges_within (NameStartChar_ranges u ++ NameChar_extra)
                ((58, 58)%N :: NameStartChar_ranges u ++ NameChar_extra)
  = true
  /\ ranges_within (NameStartChar_ranges u)
                   ((58, 58)%N :: NameStartChar_ranges u) = true
  /\ ranges_within (NameStartChar_ranges u)
                   ((58, 58)%N :: NameStartChar_ranges u ++ NameChar_extra)
     = true
  /\ ranges_within ((58, 58)%N :: NameStartChar_ranges u ++ NameChar_extra)
                   scalar_ranges = true
  /\ ranges_within ((58, 58)%N :: NameStartChar_ranges u) scalar_ranges
     = true.
Proof. destruct u; vm_compute; repeat split. Qed.

(** The characters of a word of [NCName] are name characters. *)
Lemma NCName_run (w : list N) :
  lang (NCName_ast u) w ->
  exists a t,
    w = a :: t
    /\ class_mem false (NameStartChar_ranges u) a = true
    /\ Forall (fun c =>
                 class_mem false
                   ((58, 58)%N :: NameStartChar_ranges u ++ NameChar_extra) c
                 = true) (a :: t).
Proof.
  destruct NameChar_within as (W1 & _ & W3 & _).
  unfold NCName_ast. cbn [lang].
  intros (w1 & w2 & -> & (a & -> & Ha) & L2).
  apply (@lang_rep_cls 0 None true false
           (NameStartChar_ranges u ++ NameChar_extra)) in L2 as [L2 _].
  exists a, w2. repeat split; auto. constructor.
  - now apply (class_within _ _ _ W3).
  - revert L2. apply Forall_impl. intros c. now apply class_within.
Qed.

(** Every word of [QName] is a word of [Name]. *)
Lemma lang_QName_Name (w : list N) :
  lang (QName_ast u) w ->
  lang (Name_ast u) w
  /\ Forall (fun c => in_ranges scalar_ranges c = true) w.
Proof.
  destruct NameChar_within as (_ & W2 & _ & W4 & _).
  intros L.
  assert (R : exists a t,
             w = a :: t
             /\ class_mem false (NameStartChar_ranges u) a = true
             /\ Forall (fun c =>
                          class_mem false
                            ((58, 58)%N :: NameStartChar_ranges u
                             ++ NameChar_extra) c = true) (a :: t)).
  { apply lang_QName_split in L as (x & Lx & [->|(b & Lb & ->)]).
    - now apply NCName_run.
    - apply NCName_run in Lx as (a & t & -> & Ha & Ft).
      apply NCName_run in Lb as (a' & t' & -> & _ & Ft').
      exists a, (t ++ [58%N] ++ a' :: t'). repeat split; auto.
      change (a :: t ++ [58%N] ++ a' :: t')
        with ((a :: t) ++ [58%N] ++ a' :: t').
      apply Forall_app. split; [exact Ft|].
      apply Forall_app. split; [|exact Ft'].
      constructor; [|constructor]. now destruct u. }
  destruct R as (a & t & -> & Ha & Ft). split.
  - unfold Name_ast. cbn [lang]. exists [a], t. repeat split.
    + exists a. split; [reflexivity|]. now apply (class_within _ _ _ W2).
    + inversion_clear Ft as [|? ? _ Ft'].
      exact (@lang_class_run true false _ _ Ft').
  - revert Ft. apply Forall_impl. intros c Hc.
    apply (in_ranges_within _ _ _ W4). exact Hc.
Qed.

End QualifiedNames.

Lemma QName_shape_witness :
  exists a,
    colon_free a
    /\ (str "ns:local" = a
        \/ exists b, colon_free b /\ str "ns:local" = a ++ str ":" ++ b).
Proof.
  apply (@QName_shape true (str "<ns:local>")
           {| index := 1; matched := str "ns:local"; captures := [];
              groups := [] |}).
  vm_compute. reflexivity.
Defined.

Section NamesInclusion.

Variable u : bool.

Lemma encode1_astral (c : N) :
  (0x10000 <= c)%N -> (c <= 0x10FFFF)%N ->
  exists h l, encode1 c = [h; l] /\ is_high h = true /\ is_low l = true
              /\ pair_cp h l = c.
Proof.
  intros G Hc. unfold encode1.
  destruct (N.ltb_spec c 0x10000); [lia|].
  exists (0xD800 + (c - 0x10000) / 0x400)%N,
         (0xDC00 + (c - 0x10000) mod 0x400)%N.
  pose proof (N.Div0.div_mod (c - 0x10000) 0x400) as D.
  pose proof (N.mod_lt (c - 0x10000) 0x400 ltac:(lia)) as M.
  assert (Q : ((c - 0x10000) / 0x400 < 0x400)%N).
  { apply N.Div0.div_lt_upper_bound. lia. }
  generalize dependent ((c - 0x10000) / 0x400)%N. intros q D Q.
  generalize dependent ((c - 0x10000) mod 0x400)%N. intros r M D.
  split; [reflexivity|]. unfold is_high, is_low, pair_cp.
  repeat split.
  - apply andb_true_iff. split; apply N.leb_le; lia.
  - apply andb_true_iff. split; apply N.leb_le; lia.
  - lia.
Qed.

(** Code points that are not surrogates survive the way to UTF-16 and
    back. *)
Lemma decode_encode (w : list N) :
  Forall (fun c => in_ranges scalar_ranges c = true) w ->
  decode (encode w) = w.
Proof.
  induction 1 as [|c w Hc _ IH]; [reflexivity|].
  rewrite encode_cons.
  unfold in_ranges, scalar_ranges in Hc. cbn [existsb fst snd] in Hc.
  rewrite orb_false_r in Hc.
  apply orb_true_iff in Hc as [Hc|Hc];
    apply andb_true_iff in Hc as [H1 H2]; apply N.leb_le in H1, H2.
  - rewrite encode1_unit by lia. cbn [app].
    rewrite decode_cons_low, IH; [reflexivity|].
    unfold is_high. apply andb_false_iff. left. apply N.leb_gt. lia.
  - destruct (N.ltb_spec c 0x10000) as [Lt|Ge].
    + rewrite encode1_unit by lia. cbn [app].
      rewrite decode_cons_low, IH; [reflexivity|].
      unfold is_high. apply andb_false_iff. right. apply N.leb_gt. lia.
    + destruct (encode1_astral Ge H2) as (h & l & -> & Hh & Hl & Hp).
      cbn [app]. now rewrite decode_cons2, Hh, Hl, Hp, IH.
Qed.

Lemma chars_of_string_of (w : list N) :
  Forall (fun c => in_ranges scalar_ranges c = true) w ->
  chars_of u (string_of u w) = w.
Proof. destruct u; [apply decode_encode | reflexivity]. Qed.

Lemma det_cls (fl : flagset) (neg : bool) (rs : list (N * N)) :
  det fl (Cls neg rs) no_stop.
Proof.
  intros w L cs0. cbn in L. destruct L as (a & -> & Ha). exists cs0.
  intros x tail R C _ k. cbn in R.
  exists (advance x a tail). cbn. repeat split; [lia | exact C |].
  intros z Hk. cbn [m]. now rewrite R, Ha.
Qed.

Lemma det_Name (fl : flagset) :
  det fl (Name_ast u)
      (stop_cls false
         ((58, 58)%N :: NameStartChar_ranges u ++ NameChar_extra)).
Proof.
  unfold Name_ast.
  apply det_seq
    with (stop1 := no_stop)
         (stop2 := stop_cls false
                     ((58, 58)%N :: NameStartChar_ranges u
                      ++ NameChar_extra));
    [apply det_cls | apply det_rep_cls | intros; exact I | auto].
Qed.

(** X11. Every qualified name is a name: whatever [QName] matches, [Name]
    matches in full. *)
Theorem QName_is_Name (s : jsstring) (res : match_result) :
  exec_on (Grammar.QName u) s = Ok (Some res) ->
  exec_on (Grammar.Name u) (matched res)
  = Ok (Some {| index := 0; matched := matched res;
                captures := []; groups := [] |}).
Proof.
  intros H. destruct QName_parse with (u := u) as (re & E & F & P).
  assert (W : wf (QName_ast u) = true) by now destruct u.
  destruct (exec_on_sound _ E F P W H) as (pre & w & post & _ & L & M & _).
  apply lang_QName_Name in L as [L Sc].
  destruct Name_parse with (u := u) as (re' & E' & F' & P').
  destruct (@det_Name (composed_flags u) w L []) as [cs Hcs].
  rewrite (@exec_on_commits u _ re' (Name_ast u) (matched res) w [] cs
             E' F' P').
  - unfold match_of. cbn. now rewrite M.
  - now rewrite M, chars_of_string_of, app_nil_r.
  - apply Hcs; [reflexivity | reflexivity | exact I].
Qed.

End NamesInclusion.

Lemma QName_is_Name_witness :
  exec_on (Grammar.Name true) (str "ns:local")
  = Ok (Some {| index := 0; matched := str "ns:local";
                captures := []; groups := [] |}).
Proof.
  apply (@QName_is_Name true (str "<ns:local>")
           {| index := 1; matched := str "ns:local"; captures := [];
              groups := [] |}).
  vm_compute. reflexivity.
Defined.

(** ** Comments *)

Section Comments.

Variable u : bool.

Lemma lang_lit_then (s : jsstring) (r : regex) (w : list N) :
  lang (lit_then s r) w -> exists w', w = s ++ w' /\ lang r w'.
Proof.
  revert w; induction s as [|c s IH]; intros w L.
  - now exists w.
  - cbn [lit_then fold_right lang] in L. fold (lit_then s r) in L.
    destruct L as (w1 & w2 & -> & -> & L).
    destruct (IH _ L) as (w' & -> & L'). now exists w'.
Qed.

Lemma string_of_concat (xs : list (list N)) :
  string_of u (concat xs) = concat (map (string_of u) xs).
Proof.
  induction xs as [|x xs IH]; [now destruct u|].
  cbn [concat map]. now rewrite string_of_app, IH.
Qed.

Lemma occurs_cons_inv (p : jsstring) (a : N) (l : jsstring) :
  occurs p (a :: l) -> (exists post, a :: l = p ++ post) \/ occurs p l.
Proof.
  intros ([|b pre] & post & E).
  - left. now exists post.
  - right. injection E as _ E. now exists pre, post.
Qed.

Lemma hyphens_cons_other (c : N) (l : jsstring) :
  c <> 45%N -> ~ occurs (str "--") l -> ~ occurs (str "--") (c :: l).
Proof.
  intros Hc Hl H. apply occurs_cons_inv in H as [(post & E)|H]; [|auto].
  injection E as E _. congruence.
Qed.

Lemma hyphens_cons_hyphen (c : N) (l : jsstring) :
  c <> 45%N -> ~ occurs (str "--") (c :: l) ->
  ~ occurs (str "--") (45%N :: c :: l).
Proof.
  intros Hc Hl H. apply occurs_cons_inv in H as [(post & E)|H]; [|auto].
  injection E as E _. congruence.
Qed.

Lemma hyphens_free_run (y l : jsstring) :
  ~ In 45%N y -> ~ occurs (str "--") l -> ~ occurs (str "--") (y ++ l).
Proof.
  induction y as [|c y IH]; intros Hy Hl; [exact Hl|].
  cbn [app]. apply hyphens_cons_other.
  - intros ->. apply Hy. now left.
  - apply IH; [|exact Hl]. intros H. apply Hy. now right.
Qed.

Lemma last_app_ne (y l : jsstring) (d : N) :
  l <> [] -> last (y ++ l) d = last l d.
Proof.
  intros H. induction y as [|c y IH]; [reflexivity|].
  cbn [app]. destruct (y ++ l) eqn:E.
  - apply app_eq_nil in E as [_ E]. contradiction.
  - exact IH.
Qed.

Lemma last_in (y : jsstring) (d : N) : y <> [] -> In (last y d) y.
Proof.
  induction y as [|c [|b y] IH]; intros H; [contradiction | now left |].
  right. apply IH. discriminate.
Qed.

Lemma comment_pieces (ys : list jsstring) :
  Forall comment_piece_spec ys ->
  ~ occurs (str "--") (concat ys) /\ last (concat ys) 0%N <> 45%N.
Proof.
  induction 1 as [|y ys (h & y' & -> & Hh & Hne & H45) _ [IH1 IH2]].
  - split; [|discriminate]. intros ([|? ?] & post & E); discriminate.
  - cbn [concat]. split.
    + rewrite <- app_assoc.
      assert (R : ~ occurs (str "--") (y' ++ concat ys))
        by now apply hyphens_free_run.
      destruct Hh as [->| ->]; [exact R|].
      destruct y' as [|c y'']; [contradiction|].
      cbn [app]. apply hyphens_cons_hyphen; [|exact R].
      intros ->. apply H45. now left.
    + destruct (concat ys) as [|b l] eqn:E.
      * rewrite app_nil_r, last_app_ne by exact Hne.
        intros L. apply H45. rewrite <- L. now apply last_in.
      * rewrite last_app_ne by discriminate. exact IH2.
Qed.

Lemma string_of_not_hyphen (c : N) :
  c <> 45%N -> string_of u [c] <> [] /\ ~ In 45%N (string_of u [c]).
Proof.
  intros Hc. split.
  - intros E. apply (string_of_nil_inv u) in E. discriminate.
  - intros H. apply In_string_of in H; [|reflexivity].
    destruct H as [H|[]]. congruence.
Qed.

Lemma comment_piece (x : list N) :
  lang (Alt (Cls false (Char_no_hyphen u))
            (Seq (Chr 45) (Cls false (Char_no_hyphen u)))) x ->
  comment_piece_spec (string_of u x).
Proof.
  assert (NH : forall c, class_mem false (Char_no_hyphen u) c = true ->
                         c <> 45%N).
  { intros c Hc ->. destruct u; vm_compute in Hc; discriminate. }
  cbn [lang]. intros [(c & -> & Hc)|(w1 & w2 & -> & -> & (c & -> & Hc))].
  - exists [], (string_of u [c]).
    destruct (string_of_not_hyphen (NH _ Hc)). repeat split; auto.
  - exists [45%N], (string_of u [c]).
    destruct (string_of_not_hyphen (NH _ Hc)). repeat split; auto.
    change ([45%N] ++ [c]) with ([45%N] ++ [c])%list.
    rewrite (string_of_app u [45%N] [c]). f_equal. now destruct u.
Qed.

(** X12. What [Comment] matches is the opening delimiter, a body and the
    closing delimiter, where the body holds no two hyphens in a row and
    does not end with a hyphen. *)
Theorem Comment_shape (s : jsstring) (res : match_result) :
  exec_on (Grammar.Comment u) s = Ok (Some res) ->
  exists body,
    matched res = str "<!--" ++ body ++ str "-->"
    /\ ~ occurs (str "--") body
    /\ ~ (exists b, body = b ++ str "-").
Proof.
  intros H. destruct Comment_parse with (u := u) as (re & E & F & P).
  assert (W : wf (Comment_ast u) = true) by now destruct u.
  destruct (exec_on_sound _ E F P W H) as (pre & w & post & _ & L & M & _).
  unfold Comment_ast in L. apply lang_lit_then in L as (w' & -> & L).
  cbn [lang] in L.
  destruct L as (bw & w2 & -> & (xs & -> & Fx & _) & L2).
  destruct L2 as (a1 & w3 & -> & -> & (a2 & a3 & -> & -> & ->)).
  exists (string_of u (concat xs)). split.
  - rewrite M, !string_of_app. f_equal; [now destruct u|].
    f_equal. now destruct u.
  - rewrite string_of_concat.
    destruct (@comment_pieces (map (string_of u) xs)) as [C1 C2].
    { apply Forall_map. revert Fx. apply Forall_impl.
      intros x Hx. now apply comment_piece. }
    split; [exact C1|]. intros (b & Eb). apply C2.
    rewrite Eb. apply last_last.
Qed.

End Comments.

Lemma Comment_shape_witness :
  exists body,
    str "<!-- a-b -->" = str "<!--" ++ body ++ str "-->"
    /\ ~ occurs (str "--") body
    /\ ~ (exists b, body = b ++ str "-").
Proof.
  apply (@Comment_shape true (str "x<!-- a-b -->y")
           {| index := 1; matched := str "<!-- a-b -->"; captures := [];
              groups := [] |}).
  vm_compute. reflexivity.
Defined.

(** ** Soundness of the matcher, with captures *)

Section CaptureSoundness.

Variable fl : flagset.

Lemma langc_lang (r : regex) :
  forall w cs, langc r w cs -> lang r w.
Proof.
  induction r as [|c| |neg rs| | |r1 IH1 r2 IH2|r1 IH1 r2 IH2
                  |mn mx g r IH|i name r IH];
    intros w cs H; cbn [langc] in H; try (destruct H as [_ H]; exact H).
  - destruct H as (w1 & w2 & c1 & c2 & -> & _ & H1 & H2).
    exists w1, w2. eauto.
  - destruct H as [H|H]; [left | right]; eauto.
  - destruct H as (cs' & _ & H). cbn [lang]. eauto.
Qed.

Lemma langc_group_free (r : regex) :
  groups_of r = [] -> forall w cs, langc r w cs -> cs = [].
Proof.
  induction r as [|c| |neg rs| | |r1 IH1 r2 IH2|r1 IH1 r2 IH2
                  |mn mx g r IH|i name r IH];
    intros G w cs H; cbn [langc groups_of] in *;
    try (destruct H as [H _]; exact H).
  - apply app_eq_nil in G as [G1 G2].
    destruct H as (w1 & w2 & c1 & c2 & _ & -> & H1 & H2).
    now rewrite (IH1 G1 _ _ H1), (IH2 G2 _ _ H2).
  - apply app_eq_nil in G as [G1 G2]. destruct H as [H|H]; eauto.
  - discriminate.
Qed.

Lemma rep_loop_sound_c (P : list N -> Prop) (body : cont -> cont)
  (greedy : bool) (k : cont) :
  (forall k x z, body k x = Some z ->
     exists w y, P w /\ rest x = w ++ rest y /\ pos y = pos x + length w
                 /\ caps y = caps x /\ k y = Some z) ->
  forall n mn mx x z,
    match mx with Some j => mn <= j | None => True end ->
    rep_loop body [] greedy k n mn mx x = Some z ->
    exists ws y, Forall P ws /\ rest x = concat ws ++ rest y
                 /\ pos y = pos x + length (concat ws)
                 /\ caps y = caps x /\ k y = Some z
                 /\ mn <= length ws
                 /\ match mx with
                    | Some j => length ws <= j
                    | None => True
                    end.
Proof.
  intros Hb.
  assert (Stop : forall mn (mx : option nat) x z,
             mn = 0 -> k x = Some z ->
             exists ws y, Forall P ws /\ rest x = concat ws ++ rest y
                 /\ pos y = pos x + length (concat ws)
                 /\ caps y = caps x /\ k y = Some z
                 /\ mn <= length ws
                 /\ match mx with
                    | Some j => length ws <= j
                    | None => True
                    end).
  { intros mn mx x z -> Hk. exists [], x. cbn.
    repeat split; auto; try lia. destruct mx; [lia | exact I]. }
  induction n as [|n IH]; intros mn mx x z Hbound H.
  - cbn in H. destruct mx as [[|j]|].
    + apply (Stop mn (Some 0)); [lia | exact H].
    + destruct (Nat.eqb_spec mn 0);
        [now apply (Stop mn (Some (Datatypes.S j))) | discriminate].
    + destruct (Nat.eqb_spec mn 0); [now apply (Stop mn None) | discriminate].
  - assert (Step : forall z',
               body (fun y =>
                       if (mn =? 0)%nat && (pos y =? pos x)%nat then None
                       else rep_loop body [] greedy k n (Nat.pred mn)
                                     (option_map Nat.pred mx) y)
                    x = Some z' ->
               mx <> Some 0 ->
               exists ws y, Forall P ws /\ rest x = concat ws ++ rest y
                 /\ pos y = pos x + length (concat ws)
                 /\ caps y = caps x /\ k y = Some z'
                 /\ mn <= length ws
                 /\ match mx with
                    | Some j => length ws <= j
                    | None => True
                    end).
    { intros z' Hz Hmx. apply Hb in Hz as (w & y1 & Pw & Hr & Hp & Hc & Hd).
      destruct ((mn =? 0)%nat && (pos y1 =? pos x)%nat); [discriminate|].
      apply IH in Hd as (ws & y & Hws & Hr' & Hp' & Hc' & Hk & Hmn & Hmx').
      - exists (w :: ws), y. cbn [concat length].
        rewrite length_app, <- app_assoc, <- Hr'.
        repeat split; auto; try lia; try congruence.
        destruct mx as [[|j]|]; cbn in Hmx'; [congruence | lia | exact I].
      - destruct mx as [[|j]|]; cbn; [congruence | lia | exact I]. }
    cbn [rep_loop] in H. rewrite clear_caps_nil in H.
    destruct mx as [[|j]|].
    + apply (Stop mn (Some 0)); [lia | exact H].
    + destruct (Nat.eqb_spec mn 0) as [E|E].
      * destruct greedy; apply orelse_some in H as [H|[_ H]];
          try (now apply (Stop mn (Some (Datatypes.S j))));
          apply Step; auto; discriminate.
      * apply Step; auto; discriminate.
    + destruct (Nat.eqb_spec mn 0) as [E|E].
      * destruct greedy; apply orelse_some in H as [H|[_ H]];
          try (now apply (Stop mn None)); apply Step; auto; discriminate.
      * apply Step; auto; discriminate.
Qed.

Lemma m_sound_c (r : regex) :
  wf r = true -> rep_group_free r = true ->
  consumes_c (langc r) (m fl r).
Proof.
  induction r as [|c| |neg rs| | |r1 IH1 r2 IH2|r1 IH1 r2 IH2
                  |mn mx g r IH|i name r IH];
    intros W G k x z H; cbn [m] in H; cbn [langc lang].
  - exists [], x, []. cbn. repeat split; auto.
  - destruct (rest x) as [|a t] eqn:R; [discriminate|].
    destruct (N.eqb_spec a c) as [->|]; [|discriminate].
    exists [c], (advance x c t), []. cbn. repeat split; auto. lia.
  - destruct (rest x) as [|a t] eqn:R; [discriminate|].
    destruct (dotAll fl || negb (is_line_terminator a)); [|discriminate].
    exists [a], (advance x a t), []. cbn. repeat split; eauto. lia.
  - destruct (rest x) as [|a t] eqn:R; [discriminate|].
    destruct (class_mem neg rs a) eqn:C; [|discriminate].
    exists [a], (advance x a t), []. cbn. repeat split; eauto. lia.
  - destruct (at_line_start fl x); [|discriminate].
    exists [], x, []. cbn. repeat split; auto.
  - destruct (at_line_end fl x); [|discriminate].
    exists [], x, []. cbn. repeat split; auto.
  - cbn in W, G. apply andb_true_iff in W as [W1 W2].
    apply andb_true_iff in G as [G1 G2].
    apply (IH1 W1 G1) in H as (w1 & y1 & c1 & L1 & R1 & P1 & C1 & H).
    apply (IH2 W2 G2) in H as (w2 & y2 & c2 & L2 & R2 & P2 & C2 & H).
    exists (w1 ++ w2), y2, (c2 ++ c1).
    rewrite length_app, <- !app_assoc, <- R2, <- C1.
    repeat split; eauto; try lia.
    exists w1, w2, c1, c2. auto.
  - cbn in W, G. apply andb_true_iff in W as [W1 W2].
    apply andb_true_iff in G as [G1 G2].
    apply orelse_some in H as [H|[_ H]].
    + apply (IH1 W1 G1) in H as (w & y & cs & L & H). exists w, y, cs. auto.
    + apply (IH2 W2 G2) in H as (w & y & cs & L & H). exists w, y, cs. auto.
  - cbn in W, G. apply andb_true_iff in W as [Wb W].
    destruct (groups_of r) eqn:Gr; [|discriminate]. cbn [map] in H.
    apply (@rep_loop_sound_c (lang r) (m fl r)) in H
      as (ws & y & Hws & Hr & Hp & Hc & Hk & Hmn & Hmx).
    + exists (concat ws), y, []. cbn [app]. repeat split; eauto.
    + intros k0 x0 z0 H0.
      apply (IH W G) in H0 as (w & y & cs & L & R & P & C & K).
      rewrite (langc_group_free _ Gr _ _ L) in C.
      exists w, y. repeat split; auto. now apply langc_lang in L.
    + destruct mx; [now apply Nat.leb_le | exact I].
  - cbn in W, G. apply (IH W G) in H as (w & y & cs & L & R & P & C & H).
    exists w, (set_cap y i (firstn (pos y - pos x) (rest x))),
           ((i, w) :: cs).
    cbn. repeat split; eauto.
    rewrite P, R, C.
    replace (pos x + length w - pos x) with (length w) by lia.
    now rewrite firstn_exact.
Qed.

Lemma search_sound_c (r : regex) (rs : list N) :
  wf r = true -> rep_group_free r = true ->
  forall p pv x y,
    search fl r p pv rs = Some (x, y) ->
    exists pre w cs,
      rs = pre ++ w ++ rest y /\ langc r w cs
      /\ pos x = p + length pre /\ rest x = w ++ rest y
      /\ pos y = pos x + length w /\ caps y = cs.
Proof.
  intros W G. induction rs as [|a rs IH]; intros p pv x y H;
    cbn [search] in H.
  - destruct (m fl r Some _) as [y'|] eqn:M.
    + injection H as <- <-.
      apply (@m_sound_c r W G) in M as (w & y0 & cs & L & R & P & C & [= ->]).
      cbn in R, P, C. rewrite app_nil_r in C.
      exists [], w, cs. cbn. repeat split; auto.
    + destruct (sticky fl); discriminate.
  - destruct (m fl r Some _) as [y'|] eqn:M.
    + injection H as <- <-.
      apply (@m_sound_c r W G) in M as (w & y0 & cs & L & R & P & C & [= ->]).
      cbn in R, P, C. rewrite app_nil_r in C.
      exists [], w, cs. cbn. repeat split; auto.
    + destruct (sticky fl); [discriminate|].
      apply IH in H as (pre & w & cs & E & L & Px & Rx & Py & Cy).
      exists (a :: pre), w, cs. cbn. rewrite <- E. repeat split; auto. lia.
Qed.

End CaptureSoundness.

(** The captures [exec] reports are those of the word it matched. *)
Lemma exec_sound_c (re : RegExp) (r : regex) (s : jsstring)
  (res : match_result) :
  parse (unicode (flags re)) (source re) = Some r ->
  wf r = true -> rep_group_free r = true ->
  exec re s = Some res ->
  exists w cs,
    langc r w cs
    /\ matched res = string_of (unicode (flags re)) w
    /\ captures res = captures_of (unicode (flags re)) r cs
    /\ groups res = groups_from (unicode (flags re)) r cs.
Proof.
  intros P W G H. unfold exec in H. rewrite P in H.
  destruct (search _ r 0 None _) as [[x y]|] eqn:S; [|discriminate].
  apply (@search_sound_c _ r _ W G) in S
    as (pre & w & cs & E & L & Px & Rx & Py & Cy).
  injection H as <-. exists w, cs. cbn.
  rewrite Py, Rx, Cy.
  replace (pos x + length w - pos x) with (length w) by lia.
  now rewrite firstn_exact.
Qed.

(** ** The groups of [ExternalID_match] *)

Section ExternalIdentifierGroups.

Variable u : bool.

Lemma langc_lit_then (s : jsstring) (r : regex) (w : list N)
  (cs : list (nat * list N)) :
  langc (lit_then s r) w cs -> exists w', w = s ++ w' /\ langc r w' cs.
Proof.
  revert w cs; induction s as [|c s IH]; intros w cs L.
  - now exists w.
  - cbn [lit_then fold_right langc] in L. fold (lit_then s r) in L.
    destruct L as (w1 & w2 & c1 & c2 & -> & -> & (-> & L1) & L).
    cbn [lang] in L1. subst w1. rewrite app_nil_r.
    destruct (IH _ _ L) as (w' & -> & L'). now exists w'.
Qed.

Lemma langc_plain (r : regex) (w : list N) (cs : list (nat * list N)) :
  groups_of r = [] -> langc r w cs -> cs = [] /\ lang r w.
Proof.
  intros G L. split; [now apply (langc_group_free _ G _ _ L)|].
  now apply langc_lang in L.
Qed.

Lemma lang_S_white (w : list N) :
  lang S_ast w -> w <> [] /\ Forall white w /\ string_of u w = w.
Proof.
  intros L. apply lang_rep_cls in L as [F N].
  assert (W : Forall white w).
  { revert F. apply Forall_impl. intros a. apply white_class. }
  repeat split; auto.
  - destruct w; [cbn in N; lia | discriminate].
  - apply string_of_bmp. now apply white_bmp.
Qed.

Lemma lang_quoted_literal (q : N) (neg : bool) (rs : list (N * N))
  (w : list N) :
  (q = 34 \/ q = 39)%N -> class_mem neg rs q = false ->
  lang (quoted q neg rs) w -> quoted_literal (string_of u w).
Proof.
  intros Hq C L. unfold quoted in L. cbn [lang] in L.
  destruct L as (w1 & w2 & -> & -> & (body & w3 & -> & L & ->)).
  change (lang (Rep 0 None true (Cls neg rs)) body) in L.
  apply lang_rep_cls in L as [F _].
  assert (B : (q < 0x10000)%N) by (destruct Hq; subst; reflexivity).
  exists q, (string_of u body). split; [exact Hq|]. split.
  - change ([q] ++ body ++ [q]) with ([q] ++ (body ++ [q])).
    rewrite !string_of_app, (@string_of_bmp u [q]); [reflexivity|].
    now constructor.
  - intros I. apply In_string_of in I;
      [|destruct Hq; subst; reflexivity].
    rewrite Forall_forall in F. apply F in I. congruence.
Qed.

Lemma lang_SystemLiteral_quoted (w : list N) :
  lang SystemLiteral_ast w -> quoted_literal (string_of u w).
Proof.
  intros [L|L]; revert L; apply lang_quoted_literal; auto.
Qed.

Lemma lang_PubidLiteral_quoted (w : list N) :
  lang PubidLiteral_ast w -> quoted_literal (string_of u w).
Proof.
  intros [L|L]; revert L; apply lang_quoted_literal; auto.
Qed.

(** The two shapes of a match of [ExternalID_match], with the captures of
    each. *)
Lemma ExternalID_match_shapes (s : jsstring) (res : match_result) :
  exec_on (Grammar.ExternalID_match u) s = Ok (Some res) ->
  (exists ws a,
      ws <> [] /\ Forall white ws /\ quoted_literal a
      /\ matched res = Grammar.SYSTEM ++ ws ++ a
      /\ captures res = [Some a; None; None]
      /\ groups res = [(str "SystemLiteralOnly", Some a);
                       (str "PubidLiteral", None);
                       (str "SystemLiteral", None)])
  \/ (exists ws b ws' c,
         ws <> [] /\ Forall white ws /\ quoted_literal b
         /\ ws' <> [] /\ Forall white ws' /\ quoted_literal c
         /\ matched res = Grammar.PUBLIC ++ ws ++ b ++ ws' ++ c
         /\ captures res = [None; Some b; Some c]
         /\ groups res = [(str "SystemLiteralOnly", None);
                          (str "PubidLiteral", Some b);
                          (str "SystemLiteral", Some c)]).
Proof.
  intros H.
  destruct ExternalID_match_parse with (u := u) as (re & E & F & P).
  rewrite E in H. cbn [exec_on bind] in H. injection H as H.
  assert (U : unicode (flags re) = u) by now rewrite F.
  rewrite <- U in P.
  apply (@exec_sound_c re ExternalID_match_ast s res P) in H;
    [|reflexivity|reflexivity].
  rewrite U in H. clear P.
  destruct H as (w & cs & L & M & C & G).
  unfold ExternalID_match_ast in L. cbn [langc] in L.
  destruct L as (w0 & w1 & c0 & c1 & -> & -> & (-> & L0) & L).
  cbn [lang] in L0. subst w0. rewrite app_nil_r in C, G. cbn [app] in M.
  unfold ExternalID_match_body in L. cbn [langc] in L.
  destruct L as [L|L]; apply langc_lit_then in L as (w' & -> & L);
    cbn [langc] in L.
  - left.
    destruct L as (ws & a & c2 & c3 & -> & -> & (-> & LS)
                   & (c4 & -> & La)).
    apply langc_plain in La as [-> La]; [|reflexivity].
    apply lang_S_white in LS as (N & W & ES).
    exists ws, (string_of u a).
    split; [exact N|]. split; [exact W|].
    split; [now apply lang_SystemLiteral_quoted|].
    split; [|split].
    + rewrite M, !string_of_app, ES. f_equal.
      apply string_of_bmp. repeat constructor.
    + rewrite C. reflexivity.
    + rewrite G. reflexivity.
  - right.
    destruct L as (ws & x1 & c2 & c3 & -> & -> & (-> & LS) & L).
    destruct L as (b & x2 & c4 & c5 & -> & -> & (c6 & -> & Lb) & L).
    destruct L as (ws' & c & c7 & c8 & -> & -> & (-> & LS')
                   & (c9 & -> & Lc)).
    apply langc_plain in Lb as [-> Lb]; [|reflexivity].
    apply langc_plain in Lc as [-> Lc]; [|reflexivity].
    apply lang_S_white in LS as (N & W & ES).
    apply lang_S_white in LS' as (N' & W' & ES').
    exists ws, (string_of u b), ws', (string_of u c).
    split; [exact N|]. split; [exact W|].
    split; [now apply lang_PubidLiteral_quoted|].
    split; [exact N'|]. split; [exact W'|].
    split; [now apply lang_SystemLiteral_quoted|].
    split; [|split].
    + rewrite M, !string_of_app, ES, ES'. f_equal.
      apply string_of_bmp. repeat constructor.
    + rewrite C. reflexivity.
    + rewrite G. reflexivity.
Qed.

(** X13. Every match of [ExternalID_match] is of one of two shapes.  Either
    it is [SYSTEM], white space and a quoted literal, which is then the
    group [SystemLiteralOnly] while the other two groups are undefined; or
    it is [PUBLIC], white space, a quoted literal, white space and a second
    quoted literal, which are the groups [PubidLiteral] and [SystemLiteral]
    while [SystemLiteralOnly] is undefined. *)
Theorem ExternalID_match_groups (s : jsstring) (res : match_result) :
  exec_on (Grammar.ExternalID_match u) s = Ok (Some res) ->
  (exists ws a,
      ws <> [] /\ Forall white ws /\ quoted_literal a
      /\ matched res = Grammar.SYSTEM ++ ws ++ a
      /\ captures res = [Some a; None; None]
      /\ groups res = [(str "SystemLiteralOnly", Some a);
                       (str "PubidLiteral", None);
                       (str "SystemLiteral", None)])
  \/ (exists ws b ws' c,
         ws <> [] /\ Forall white ws /\ quoted_literal b
         /\ ws' <> [] /\ Forall white ws' /\ quoted_literal c
         /\ matched res = Grammar.PUBLIC ++ ws ++ b ++ ws' ++ c
         /\ captures res = [None; Some b; Some c]
         /\ groups res = [(str "SystemLiteralOnly", None);
                          (str "PubidLiteral", Some b);
                          (str "SystemLiteral", Some c)]).
Proof. apply ExternalID_match_shapes. Qed.

End ExternalIdentifierGroups.

Lemma ExternalID_match_groups_witness :
  (exists ws a,
      ws <> [] /\ Forall white ws /\ quoted_literal a
      /\ str "PUBLIC 'p' 's'" = Grammar.SYSTEM ++ ws ++ a
      /\ [None; Some (str "'p'"); Some (str "'s'")] = [Some a; None; None]
      /\ [(str "SystemLiteralOnly", None);
          (str "PubidLiteral", Some (str "'p'"));
          (str "SystemLiteral", Some (str "'s'"))]
         = [(str "SystemLiteralOnly", Some a);
            (str "PubidLiteral", None);
            (str "SystemLiteral", None)])
  \/ (exists ws b ws' c,
         ws <> [] /\ Forall white ws /\ quoted_literal b
         /\ ws' <> [] /\ Forall white ws' /\ quoted_literal c
         /\ str "PUBLIC 'p' 's'" = Grammar.PUBLIC ++ ws ++ b ++ ws' ++ c
         /\ [None; Some (str "'p'"); Some (str "'s'")]
            = [None; Some b; Some c]
         /\ [(str "SystemLiteralOnly", None);
             (str "PubidLiteral", Some (str "'p'"));
             (str "SystemLiteral", Some (str "'s'"))]
            = [(str "SystemLiteralOnly", None);
               (str "PubidLiteral", Some b);
               (str "SystemLiteral", Some c)]).
Proof.
  apply (@ExternalID_match_groups true (str "PUBLIC 'p' 's'>")
           {| index := 0;
              matched := str "PUBLIC 'p' 's'";
              captures := [None; Some (str "'p'"); Some (str "'s'")];
              groups := [(str "SystemLiteralOnly", None);
                         (str "PubidLiteral", Some (str "'p'"));
                         (str "SystemLiteral", Some (str "'s'"))] |}).
  vm_compute. reflexivity.
Defined.

(** ** CDATA sections: the lazy quantifier *)

Section LazyLoop.

Variable fl : flagset.

(** A lazy loop over a class stops at the first position its continuation
    accepts: [Q] describes remainders the continuation never refuses. *)
Lemma lazy_cls_first (neg : bool) (rs : list (N * N)) (k : cont)
  (Q : list N -> Prop) :
  (forall x, Q (rest x) -> k x <> None) ->
  forall n x z,
    rep_loop (m fl (Cls neg rs)) [] false k n 0 None x = Some z ->
    exists w y,
      rest x = w ++ rest y /\ pos y = pos x + length w /\ k y = Some z
      /\ forall w1 w2, w = w1 ++ w2 -> w2 <> [] -> ~ Q (w2 ++ rest y).
Proof.
  intros HQ.
  assert (Stop : forall x z, k x = Some z ->
            exists w y,
              rest x = w ++ rest y /\ pos y = pos x + length w
              /\ k y = Some z
              /\ forall w1 w2, w = w1 ++ w2 -> w2 <> [] ->
                               ~ Q (w2 ++ rest y)).
  { intros x z H. exists [], x. cbn [app length].
    split; [reflexivity|]. split; [lia|]. split; [exact H|].
    intros w1 w2 E N. symmetry in E. apply app_eq_nil in E as [_ E].
    contradiction. }
  induction n as [|n IH]; intros x z H; cbn [rep_loop Nat.eqb] in H.
  - now apply Stop.
  - rewrite clear_caps_nil in H.
    apply orelse_some in H as [H|[Hn H]]; [now apply Stop|].
    cbn [m] in H. destruct (rest x) as [|a t] eqn:R; [discriminate|].
    destruct (class_mem neg rs a); [|discriminate].
    cbn [andb advance pos] in H.
    replace (Datatypes.S (pos x) =? pos x)%nat with false in H
      by (symmetry; apply Nat.eqb_neq; lia).
    cbn [Nat.pred option_map] in H.
    apply IH in H as (w & y & Rw & Pw & K & Min).
    cbn [advance rest pos] in Rw, Pw.
    exists (a :: w), y. cbn [app length].
    split; [now rewrite Rw|]. split; [lia|]. split; [exact K|].
    intros [|b w1] w2 E N.
    + cbn [app] in E. subst w2. cbn [app]. rewrite <- Rw.
      intros HQx. apply (HQ x); [now rewrite R | exact Hn].
    + injection E as _ E. now apply (Min w1 w2).
Qed.

Lemma m_lit_then_inv (s : list N) (r : regex) (k : cont) :
  forall x z,
    m fl (lit_then s r) k x = Some z ->
    exists x', rest x = s ++ rest x' /\ pos x' = pos x + length s
               /\ m fl r k x' = Some z.
Proof.
  induction s as [|c s IH]; intros x z H.
  - exists x. cbn. repeat split; auto.
  - cbn [lit_then fold_right m] in H. fold (lit_then s r) in H.
    destruct (rest x) as [|a t] eqn:R; [discriminate|].
    destruct (N.eqb_spec a c) as [->|]; [|discriminate].
    apply IH in H as (x' & R' & P' & H). cbn [advance rest pos] in R', P'.
    exists x'. cbn [app length]. rewrite R'. repeat split; auto. lia.
Qed.

Lemma search_found (r : regex) (rs : list N) :
  forall p pv x y,
    search fl r p pv rs = Some (x, y) -> m fl r Some x = Some y.
Proof.
  induction rs as [|a rs IH]; intros p pv x y H; cbn [search] in H.
  - destruct (m fl r Some _) as [y'|] eqn:M.
    + now injection H as <- <-.
    + destruct (sticky fl); discriminate.
  - destruct (m fl r Some _) as [y'|] eqn:M.
    + now injection H as <- <-.
    + destruct (sticky fl); [discriminate | eauto].
Qed.

End LazyLoop.

(** What holds of every word the pattern consumes holds of what [exec]
    reports as the match. *)
Lemma exec_matched (re : RegExp) (r : regex) (P : list N -> Prop)
  (s : jsstring) (res : match_result) :
  parse (unicode (flags re)) (source re) = Some r ->
  (forall x y, m (flags re) r Some x = Some y ->
               exists w, rest x = w ++ rest y
                         /\ pos y = pos x + length w /\ P w) ->
  exec re s = Some res ->
  exists w, matched res = string_of (unicode (flags re)) w /\ P w.
Proof.
  intros E HP H. unfold exec in H. rewrite E in H.
  destruct (search _ r 0 None _) as [[x y]|] eqn:S; [|discriminate].
  apply search_found in S. apply HP in S as (w & R & Py & Pw).
  injection H as <-. exists w. cbn [matched]. split; [|exact Pw].
  rewrite Py, R.
  replace (pos x + length w - pos x) with (length w) by lia.
  now rewrite firstn_exact.
Qed.

Section CharacterData.

Variable u : bool.

Lemma cons_eq_inv (A : Type) (a b : A) (l l' : list A) :
  a :: l = b :: l' -> a = b /\ l = l'.
Proof. intros E. now injection E. Qed.

(** An occurrence of characters below the surrogates in the code units is
    an occurrence in the code points. *)
Lemma encode_prefix (s w : list N) (post : jsstring) :
  Forall (fun c => (c < 0xD800)%N) s ->
  encode w = s ++ post -> exists w', w = s ++ w'.
Proof.
  intros F. revert w. induction F as [|c s Hc _ IH]; intros w E.
  - now exists w.
  - destruct w as [|a w]; [discriminate|].
    rewrite encode_cons in E. unfold encode1 in E.
    destruct (N.ltb_spec a 0x10000).
    + apply cons_eq_inv in E as [-> E].
      apply IH in E as (w' & ->). now exists w'.
    + cbn [app] in E. apply cons_eq_inv in E as [E _]. exfalso.
      generalize dependent ((a - 65536) / 1024)%N. intros; lia.
Qed.

Lemma occurs_encode (s w : list N) :
  s <> [] -> Forall (fun c => (c < 0xD800)%N) s ->
  occurs s (encode w) -> occurs s w.
Proof.
  intros N F (pre & post & E). revert pre E.
  induction w as [|a w IH]; intros pre E.
  - cbn in E. symmetry in E. apply app_eq_nil in E as [_ E].
    apply app_eq_nil in E as [E _]. contradiction.
  - destruct pre as [|p pre].
    + cbn [app] in E. apply encode_prefix in E as (w' & ->); [|exact F].
      now exists [], w'.
    + assert (T : exists pre', encode w = pre' ++ s ++ post).
      { rewrite encode_cons in E. unfold encode1 in E.
        destruct (N.ltb_spec a 0x10000).
        - cbn [app] in E. apply cons_eq_inv in E as [_ E]. now exists pre.
        - cbn [app] in E. apply cons_eq_inv in E as [_ E].
          destruct pre as [|l pre].
          + exfalso. destruct s as [|c s]; [contradiction|].
            inversion_clear F as [|? ? Hc _].
            cbn [app] in E. apply cons_eq_inv in E as [E _].
            generalize dependent ((a - 65536) mod 1024)%N. intros; lia.
          + cbn [app] in E. apply cons_eq_inv in E as [_ E].
            now exists pre. }
      destruct T as (pre' & T). apply IH in T as (p1 & p2 & ->).
      now exists (a :: p1), p2.
Qed.

Lemma occurs_string_of (s w : list N) :
  s <> [] -> Forall (fun c => (c < 0xD800)%N) s ->
  occurs s (string_of u w) -> occurs s w.
Proof. destruct u; [apply occurs_encode | auto]. Qed.

Lemma first_close (body tail : list N) :
  (forall w1 w2, body = w1 ++ w2 -> w2 <> [] ->
                 ~ (exists t, w2 ++ str "]]>" ++ tail = str "]]>" ++ t)) ->
  ~ occurs (str "]]>") (body ++ str "]]").
Proof.
  intros Min (pre & post & E).
  assert (L : length pre + 3 + length post = length body + 2).
  { apply (f_equal (@length N)) in E. rewrite !length_app in E.
    cbn [length str] in E. cbn in E. lia. }
  assert (B : body = firstn (length pre) body ++ skipn (length pre) body)
    by (symmetry; apply firstn_skipn).
  assert (Fp : firstn (length pre) body = pre).
  { apply (f_equal (firstn (length pre))) in E.
    rewrite firstn_app, firstn_app in E.
    replace (length pre - length pre) with 0 in E by lia.
    replace (length pre - length body) with 0 in E by lia.
    cbn [firstn] in E. rewrite !app_nil_r in E.
    now rewrite firstn_all in E. }
  rewrite Fp in B.
  apply (Min pre (skipn (length pre) body) B).
  - intros Z. apply (f_equal (@length N)) in Z.
    rewrite length_skipn in Z. cbn in Z. lia.
  - exists (post ++ str ">" ++ tail).
    rewrite B in E at 1. rewrite <- app_assoc in E.
    apply app_inv_head in E.
    change (str "]]>" ++ tail) with (str "]]" ++ (str ">" ++ tail)).
    rewrite app_assoc, E, <- !app_assoc. reflexivity.
Qed.

(** X14. A match of [CDSect] is the opening marker, a body and the closing
    marker, and the closing marker is the first one after the opening: the
    body followed by two closing brackets holds no closing marker. *)
Theorem CDSect_ends_at_first_close (s : jsstring) (res : match_result) :
  exec_on (Grammar.CDSect u) s = Ok (Some res) ->
  exists body,
    matched res = Grammar.CDATA_START ++ body ++ Grammar.CDATA_END
    /\ ~ occurs Grammar.CDATA_END (body ++ str "]]").
Proof.
  intros H.
  destruct CDSect_parse with (u := u) as (re & E & F & P).
  rewrite E in H. cbn [exec_on bind] in H. injection H as H.
  assert (U : unicode (flags re) = u) by now rewrite F.
  assert (P' : parse (unicode (flags re)) (source re)
               = Some (CDSect_ast u)) by (rewrite U; exact P).
  clear P. rename P' into P.
  apply (@exec_matched re (CDSect_ast u)
           (fun w => exists body,
                w = Grammar.CDATA_START ++ body ++ Grammar.CDATA_END
                /\ ~ occurs Grammar.CDATA_END (body ++ str "]]"))
           s res P) in H.
  - destruct H as (w & M & body & -> & Min). rewrite U in M.
    exists (string_of u body). split.
    + rewrite M, !string_of_app. f_equal; [|f_equal].
      * apply string_of_bmp. repeat constructor.
      * apply string_of_bmp. repeat constructor.
    + intros O. apply Min. apply (@occurs_string_of (str "]]>") (body ++ str "]]")).
      * discriminate.
      * repeat constructor.
      * rewrite string_of_app.
        rewrite (@string_of_bmp u (str "]]")); [exact O|].
        repeat constructor.
  - intros x y M. unfold CDSect_ast in M.
    apply m_lit_then_inv in M as (x1 & R1 & P1 & M).
    cbn [m groups_of map] in M. cbn [Nat.add] in M.
    apply (@lazy_cls_first (flags re) _ _ _
             (fun l => exists t, l = str "]]>" ++ t)) in M.
    + destruct M as (body & x2 & R2 & P2 & K & Min).
      destruct (rest x2) as [|a t] eqn:Ra; [discriminate|].
      destruct (N.eqb_spec a 93) as [->|]; [|discriminate].
      cbn [advance rest] in K.
      destruct t as [|b t]; [discriminate|].
      destruct (N.eqb_spec b 93) as [->|]; [|discriminate].
      cbn [advance rest] in K.
      destruct t as [|c t]; [discriminate|].
      destruct (N.eqb_spec c 62) as [->|]; [|discriminate].
      injection K as <-. cbn [advance rest pos].
      exists (Grammar.CDATA_START ++ body ++ Grammar.CDATA_END).
      split; [|split].
      * rewrite R1, R2, <- !app_assoc. reflexivity.
      * rewrite !length_app. cbn [advance pos] in *.
        change (length Grammar.CDATA_END) with 3. lia.
      * exists body. split; [reflexivity|].
        apply (@first_close body t). exact Min.
    + intros x0 (t & R0). rewrite R0. cbn. discriminate.
Qed.

End CharacterData.

Lemma CDSect_ends_at_first_close_witness :
  exists body,
    str "<![CDATA[a]]]>" = Grammar.CDATA_START ++ body ++ Grammar.CDATA_END
    /\ ~ occurs Grammar.CDATA_END (body ++ str "]]").
Proof.
  apply (@CDSect_ends_at_first_close true (str "x<![CDATA[a]]]>b]]>")
           {| index := 1; matched := str "<![CDATA[a]]]>"; captures := [];
              groups := [] |}).
  vm_compute. reflexivity.
Defined.

(** ** Attribute and entity values *)

Lemma lang_never (c : N) (r : regex) :
  never c r = true -> forall w, lang r w -> ~ In c w.
Proof.
  induction r as [|a| |neg rs| | |r1 IH1 r2 IH2|r1 IH1 r2 IH2
                  |mn mx g r IH|i name r IH];
    intros V w L; cbn [never lang] in *.
  - subst w. intros [].
  - subst w. intros [E|[]]. subst a. now rewrite N.eqb_refl in V.
  - discriminate.
  - destruct L as (a & -> & C). intros [E|[]]. subst a.
    now rewrite C in V.
  - subst w. intros [].
  - subst w. intros [].
  - apply andb_true_iff in V as [V1 V2].
    destruct L as (w1 & w2 & -> & L1 & L2). intros I.
    apply in_app_or in I as [I|I]; [now apply (IH1 V1 _ L1) |
                                    now apply (IH2 V2 _ L2)].
  - apply andb_true_iff in V as [V1 V2].
    destruct L as [L|L]; [now apply IH1 | now apply IH2].
  - destruct L as (ws & -> & F & _). intros I.
    apply in_concat in I as (x & Ix & I).
    rewrite Forall_forall in F. now apply (IH V x (F x Ix)).
  - now apply IH.
Qed.

Section Values.

Variable u : bool.

Lemma AttValue_parse :
  exists re, Grammar.AttValue u = Ok re
             /\ flags re = composed_flags u
             /\ parse u (source re) = Some (AttValue_ast u).
Proof.
  destruct u; eexists; (split; [vm_compute; reflexivity|]);
    split; vm_compute; reflexivity.
Qed.

Lemma EntityValue_parse :
  exists re, Grammar.EntityValue u = Ok re
             /\ flags re = composed_flags u
             /\ parse u (source re) = Some (EntityValue_ast u).
Proof.
  destruct u; eexists; (split; [vm_compute; reflexivity|]);
    split; vm_compute; reflexivity.
Qed.

(** A word in quotes whose pieces can consume neither the quote nor the
    characters [cs] is, as a string, the quote, a body without the quote
    and without [cs], and the quote. *)
Lemma lang_quoted_by (q : N) (r : regex) (cs : list N) (w : list N) :
  (q < 0xD800)%N -> never q r = true ->
  Forall (fun c => (c < 0xD800)%N /\ never c r = true) cs ->
  lang (quoted_by q r) w ->
  exists body, string_of u w = q :: body ++ [q]
               /\ ~ In q body /\ Forall (fun c => ~ In c body) cs.
Proof.
  intros Hq Vq Vc L. unfold quoted_by in L. cbn [lang] in L.
  destruct L as (w1 & w2 & -> & -> & (body & w3 & -> & L & ->)).
  change (lang (Rep 0 None true r) body) in L.
  exists (string_of u body). split; [|split].
  - change ([q] ++ body ++ [q]) with ([q] ++ (body ++ [q])).
    rewrite !string_of_app, (@string_of_bmp u [q]); [reflexivity|].
    constructor; [lia | constructor].
  - intros I. apply In_string_of in I; [|exact Hq].
    revert I. now apply (@lang_never q (Rep 0 None true r)).
  - revert Vc. apply Forall_impl. intros c [Hc V] I.
    apply In_string_of in I; [|exact Hc].
    revert I. now apply (@lang_never c (Rep 0 None true r)).
Qed.

(** X15. Whatever [AttValue] matches is a quote, double or single, a body
    and the same quote again; the body holds neither that quote nor the
    character [<]. *)
Theorem AttValue_shape (s : jsstring) (res : match_result) :
  exec_on (Grammar.AttValue u) s = Ok (Some res) ->
  exists q body,
    (q = 34 \/ q = 39)%N
    /\ matched res = q :: body ++ [q]
    /\ ~ In q body /\ ~ In (ch "<") body.
Proof.
  intros H. destruct AttValue_parse as (re & E & F & P).
  destruct (@exec_on_sound u _ re (AttValue_ast u) s res E F P) as
    (pre & w & post & _ & L & M & _);
    [destruct u; vm_compute; reflexivity | exact H |].
  assert (V : forall q, (q = 34 \/ q = 39)%N ->
                lang (quoted_by q (AttValue_piece u q)) w ->
                exists body, string_of u w = q :: body ++ [q]
                             /\ ~ In q body /\ ~ In (ch "<") body).
  { intros q Hq Lq.
    destruct (@lang_quoted_by q (AttValue_piece u q) [ch "<"] w)
      as (body & E' & Nq & Nc).
    - destruct Hq; subst q; reflexivity.
    - destruct Hq; subst q; destruct u; vm_compute; reflexivity.
    - constructor; [|constructor]. split; [reflexivity|].
      destruct Hq; subst q; destruct u; vm_compute; reflexivity.
    - exact Lq.
    - exists body. inversion_clear Nc. auto. }
  rewrite M. destruct L as [L|L].
  - exists 34%N. destruct (V 34%N) as (body & B); auto.
    exists body. split; [now left | exact B].
  - exists 39%N. destruct (V 39%N) as (body & B); auto.
    exists body. split; [now right | exact B].
Qed.

(** X16. Whatever [EntityValue] matches is a quote, double or single, a
    body and the same quote again, and the body does not hold that
    quote. *)
Theorem EntityValue_shape (s : jsstring) (res : match_result) :
  exec_on (Grammar.EntityValue u) s = Ok (Some res) ->
  exists q body,
    (q = 34 \/ q = 39)%N
    /\ matched res = q :: body ++ [q]
    /\ ~ In q body.
Proof.
  intros H. destruct EntityValue_parse as (re & E & F & P).
  destruct (@exec_on_sound u _ re (EntityValue_ast u) s res E F P) as
    (pre & w & post & _ & L & M & _);
    [destruct u; vm_compute; reflexivity | exact H |].
  assert (V : forall q, (q = 34 \/ q = 39)%N ->
                lang (quoted_by q (EntityValue_piece u q)) w ->
                exists body, string_of u w = q :: body ++ [q]
                             /\ ~ In q body).
  { intros q Hq Lq.
    destruct (@lang_quoted_by q (EntityValue_piece u q) [] w)
      as (body & E' & Nq & _).
    - destruct Hq; subst q; reflexivity.
    - destruct Hq; subst q; destruct u; vm_compute; reflexivity.
    - constructor.
    - exact Lq.
    - now exists body. }
  rewrite M. destruct L as [L|L].
  - exists 34%N. destruct (V 34%N) as (body & B); auto.
    exists body. split; [now left | exact B].
  - exists 39%N. destruct (V 39%N) as (body & B); auto.
    exists body. split; [now right | exact B].
Qed.

End Values.

Lemma AttValue_shape_witness :
  exists q body,
    (q = 34 \/ q = 39)%N
    /\ str "'a&amp;b'" = q :: body ++ [q]
    /\ ~ In q body /\ ~ In (ch "<") body.
Proof.
  apply (@AttValue_shape true (str "x='a&amp;b' y='c'")
           {| index := 2; matched := str "'a&amp;b'"; captures := [];
              groups := [] |}).
  vm_compute. reflexivity.
Defined.

Lemma EntityValue_shape_witness :
  exists q body,
    (q = 34 \/ q = 39)%N
    /\ str "'%pe;&#38;b'" = q :: body ++ [q]
    /\ ~ In q body.
Proof.
  apply (@EntityValue_shape true (str "<!ENTITY e '%pe;&#38;b'>")
           {| index := 11; matched := str "'%pe;&#38;b'"; captures := [];
              groups := [] |}).
  vm_compute. reflexivity.
Defined.

(** ** Anchored productions *)

Lemma last_cons (A : Type) (a d : A) (l : list A) :
  last (a :: l) d = last l a.
Proof.
  revert a d. induction l as [|b l IH]; intros a d; [reflexivity|].
  change (last (a :: b :: l) d) with (last (b :: l) d).
  rewrite (IH b d). symmetry. apply IH.
Qed.

Lemma search_prev (fl : flagset) (r : regex) (rs : list N) :
  forall p pv x y,
    search fl r p pv rs = Some (x, y) ->
    exists pre,
      rs = pre ++ rest x /\ pos x = p + length pre
      /\ prev x = last (map Some pre) pv
      /\ m fl r Some x = Some y.
Proof.
  induction rs as [|a rs IH]; intros p pv x y H; cbn [search] in H.
  - destruct (m fl r Some _) as [y'|] eqn:M.
    + injection H as <- <-. exists []. cbn. repeat split; auto.
    + destruct (sticky fl); discriminate.
  - destruct (m fl r Some _) as [y'|] eqn:M.
    + injection H as <- <-. exists []. cbn. repeat split; auto.
    + destruct (sticky fl); [discriminate|].
      apply IH in H as (pre & E & Px & Pv & H).
      exists (a :: pre). cbn [app length map]. rewrite last_cons, <- E.
      repeat split; auto. lia.
Qed.

Lemma line_terminator_bmp (c : N) :
  is_line_terminator c = true -> (c < 0x10000)%N.
Proof.
  unfold is_line_terminator. rewrite !orb_true_iff, !N.eqb_eq. lia.
Qed.

Lemma string_of_chars_of (u : bool) (s : jsstring) :
  utf16 s -> string_of u (chars_of u s) = s.
Proof. destruct u; [apply encode_decode | reflexivity]. Qed.

(** A pattern that begins with [^] matches at the start of the subject or
    right after a line terminator only. *)
Lemma exec_line_start (re : RegExp) (r : regex) (s : jsstring)
  (res : match_result) :
  parse (unicode (flags re)) (source re) = Some (Seq Bol r) ->
  utf16 s ->
  exec re s = Some res ->
  index res = 0
  \/ exists pre c post,
       s = pre ++ c :: post /\ index res = length pre + 1
       /\ is_line_terminator c = true.
Proof.
  intros P U H. unfold exec in H. rewrite P in H.
  destruct (search _ _ 0 None _) as [[x y]|] eqn:S; [|discriminate].
  apply search_prev in S as (pre & E & Px & Pv & M).
  injection H as <-. cbn [index]. cbn [Nat.add] in Px.
  rewrite Px, E, firstn_exact.
  cbn [m] in M. destruct (at_line_start (flags re) x) eqn:A; [|discriminate].
  unfold at_line_start in A. rewrite Pv in A.
  destruct pre as [|a0 pre0].
  - left. now destruct (unicode (flags re)).
  - destruct (@exists_last _ (a0 :: pre0)) as (pre' & c & Ep);
      [discriminate|].
    rewrite Ep in *. clear Ep a0 pre0.
    right. rewrite map_app in A. cbn [map] in A. rewrite last_last in A.
    apply andb_true_iff in A as [_ A].
    pose proof (line_terminator_bmp _ A) as B.
    assert (C : string_of (unicode (flags re)) [c] = [c]).
    { apply string_of_bmp. now constructor. }
    exists (string_of (unicode (flags re)) pre'), c,
           (string_of (unicode (flags re)) (rest x)).
    split; [|split; [|exact A]].
    + rewrite <- (string_of_chars_of (unicode (flags re)) U), E.
      rewrite !string_of_app, C, <- app_assoc. reflexivity.
    + rewrite string_of_app, C, length_app. reflexivity.
Qed.

Lemma anchored_parse (u : bool) (p : result RegExp) :
  In p (anchored_productions u) ->
  exists re r, p = Ok re
               /\ parse (unicode (flags re)) (source re) = Some (Seq Bol r).
Proof.
  intros [<-|[<-|[<-|[<-|[]]]]]; destruct u; eexists; eexists;
    (split; [vm_compute; reflexivity|]); vm_compute; reflexivity.
Qed.

(** X17. The productions that begin with [^] ([QName_exact], [PI],
    [ExternalID_match] and [XMLDecl]) match at the start of the subject or
    right after a line terminator, and nowhere else: [reg] sets the flag
    [m], so [^] is the start of a line. *)
Theorem anchored_productions_start_lines (u : bool) (p : result RegExp)
  (s : jsstring) (res : match_result) :
  In p (anchored_productions u) ->
  utf16 s ->
  exec_on p s = Ok (Some res) ->
  index res = 0
  \/ exists pre c post,
       s = pre ++ c :: post /\ index res = length pre + 1
       /\ is_line_terminator c = true.
Proof.
  intros I U H. destruct (anchored_parse I) as (re & r & -> & P).
  cbn [exec_on bind] in H. injection H as H.
  exact (@exec_line_start re r s res P U H).
Qed.

Lemma anchored_productions_start_lines_witness :
  5 = 0
  \/ exists pre c post,
       str "<a/>" ++ [10%N] ++ str "<?pi x?>" = pre ++ c :: post
       /\ 5 = length pre + 1
       /\ is_line_terminator c = true.
Proof.
  apply (@anchored_productions_start_lines true (Grammar.PI true)
           (str "<a/>" ++ [10%N] ++ str "<?pi x?>")
           {| index := 5; matched := str "<?pi x?>";
              captures := [Some (str "pi"); Some (str "x")];
              groups := [] |}).
  - right. left. reflexivity.
  - repeat constructor.
  - vm_compute. reflexivity.
Defined.

(** ** [ExternalID_match]: anchoring and trailing text *)

(** C10, the claim as stated fails: [ExternalID_match] is not anchored at
    the start of the input only.  Every pattern of [reg] carries the flag
    [m], so its start anchor also holds after a line terminator, and the
    match below begins at index 2. *)
Lemma ExternalID_match_after_line_terminator :
  exec_on (Grammar.ExternalID_match true)
          (str "x" ++ [10%N] ++ str "SYSTEM 'a'")
  = Ok (Some {| index := 2; matched := str "SYSTEM 'a'";
                captures := [Some (str "'a'"); None; None];
                groups := [(str "SystemLiteralOnly", Some (str "'a'"));
                           (str "PubidLiteral", None);
                           (str "SystemLiteral", None)] |})
  /\ exec_on (Grammar.ExternalID_match false)
             (str "x" ++ [10%N] ++ str "SYSTEM 'a'")
     = Ok (Some {| index := 2; matched := str "SYSTEM 'a'";
                   captures := [Some (str "'a'"); None; None];
                   groups := [(str "SystemLiteralOnly", Some (str "'a'"));
                              (str "PubidLiteral", None);
                              (str "SystemLiteral", None)] |}).
Proof. vm_compute. split; reflexivity. Qed.

Section TrailingTextGroups.

Variable u : bool.

(** C10, amended.  [ExternalID_match] is anchored at the start of a line
    and not at the end.  When a string [p] is a well-formed external
    identifier, that is, when the production [ExternalID] matches the whole
    of [p], then on [p] followed by any text [t] the match succeeds at
    index 0, the matched text is [p], the result is the one obtained on [p]
    alone, and the named groups hold the quoted literals of [p]: the group
    [SystemLiteralOnly] that of the SYSTEM form, the groups [PubidLiteral]
    and [SystemLiteral] those of the PUBLIC form, the groups of the other
    form being undefined.  And on any subject a match begins at index 0 or
    right after a line terminator. *)
Theorem ExternalID_match_ignores_trailing_text :
  (forall (p t : jsstring) (r0 : match_result),
      utf16 p ->
      exec_on (Grammar.ExternalID u) p = Ok (Some r0) ->
      matched r0 = p ->
      exists res,
        exec_on (Grammar.ExternalID_match u) (p ++ t) = Ok (Some res)
        /\ exec_on (Grammar.ExternalID_match u) p = Ok (Some res)
        /\ index res = 0
        /\ matched res = p
        /\ ((exists ws a,
                ws <> [] /\ Forall white ws /\ quoted_literal a
                /\ p = Grammar.SYSTEM ++ ws ++ a
                /\ groups res = [(str "SystemLiteralOnly", Some a);
                                 (str "PubidLiteral", None);
                                 (str "SystemLiteral", None)])
            \/ (exists ws b ws' c,
                   ws <> [] /\ Forall white ws /\ quoted_literal b
                   /\ ws' <> [] /\ Forall white ws' /\ quoted_literal c
                   /\ p = Grammar.PUBLIC ++ ws ++ b ++ ws' ++ c
                   /\ groups res = [(str "SystemLiteralOnly", None);
                                    (str "PubidLiteral", Some b);
                                    (str "SystemLiteral", Some c)])))
  /\ (forall (s : jsstring) (res : match_result),
         utf16 s ->
         exec_on (Grammar.ExternalID_match u) s = Ok (Some res) ->
         index res = 0
         \/ exists pre c post,
              s = pre ++ c :: post /\ index res = length pre + 1
              /\ is_line_terminator c = true).
Proof.
  split.
  - intros p t r0 U H Hp.
    assert (R : exists res,
               exec_on (Grammar.ExternalID_match u) (p ++ t) = Ok (Some res)
               /\ exec_on (Grammar.ExternalID_match u) p = Ok (Some res)
               /\ index res = 0
               /\ matched res = p).
    { destruct (ExternalID_parse u) as (re1 & E1 & F1 & P1).
      destruct (ExternalID_match_parse u) as (re2 & E2 & F2 & P2).
      unfold exec_on in *. rewrite E1 in H. rewrite E2. cbn [bind] in *.
      injection H as H.
      assert (U1 : unicode (flags re1) = u) by now rewrite F1.
      assert (U2 : unicode (flags re2) = u) by now rewrite F2.
      rewrite <- U1 in P1.
      apply (exec_sound _ _ P1) in H as (pre & w & post & C & L & M & _);
        [|reflexivity].
      rewrite U1 in C, M. rewrite Hp in M. symmetry in M.
      pose proof (whole_match _ _ _ _ U C M) as W.
      destruct (lang_ExternalID_last L) as (X & q & Ew & Hq).
      assert (A : chars_of u (p ++ t) = w ++ chars_of u t).
      { rewrite <- W. apply chars_of_app with (X := X) (q := q); auto.
        now rewrite <- Ew. }
      destruct (@det_ExternalID_match_body (flags re2) w
                  (lang_ExternalID_match_body L) []) as [cs Hcs].
      rewrite <- U2 in P2, A, W.
      exists (match_of (unicode (flags re2)) ExternalID_match_ast w cs).
      split; [|split; [|split]].
      - f_equal.
        apply exec_commits
          with (tail := chars_of (unicode (flags re2)) t); auto.
        apply commits_bol; [reflexivity|]. now apply Hcs.
      - f_equal. apply exec_commits with (tail := []); auto.
        + now rewrite app_nil_r.
        + apply commits_bol; [reflexivity|]. now apply Hcs.
      - reflexivity.
      - cbn. now rewrite U2. }
    destruct R as (res & H1 & H2 & I & M). exists res.
    split; [exact H1|]. split; [exact H2|]. split; [exact I|].
    split; [exact M|].
    destruct (@ExternalID_match_shapes u (p ++ t) res H1)
      as [(ws & a & N & W & Q & Em & _ & G)
         |(ws & b & ws' & c & N & W & Q & N' & W' & Q' & Em & _ & G)].
    + left. exists ws, a. rewrite <- M. auto.
    + right. exists ws, b, ws', c. rewrite <- M. repeat split; auto.
  - intros s res U H.
    destruct (ExternalID_match_parse u) as (re & E & F & P).
    rewrite E in H. cbn [exec_on bind] in H. injection H as H.
    assert (P' : parse (unicode (flags re)) (source re)
                 = Some (Seq Bol ExternalID_match_body))
      by (rewrite F; exact P).
    exact (@exec_line_start re ExternalID_match_body s res P' U H).
Qed.

End TrailingTextGroups.

Lemma ExternalID_match_ignores_trailing_text_witness :
  (exists res,
      exec_on (Grammar.ExternalID_match true)
              (system_example ++ str " [ <!ELEMENT a ANY> ]>")
      = Ok (Some res)
      /\ exec_on (Grammar.ExternalID_match true) system_example
         = Ok (Some res)
      /\ index res = 0
      /\ matched res = system_example
      /\ ((exists ws a,
              ws <> [] /\ Forall white ws /\ quoted_literal a
              /\ system_example = Grammar.SYSTEM ++ ws ++ a
              /\ groups res = [(str "SystemLiteralOnly", Some a);
                               (str "PubidLiteral", None);
                               (str "SystemLiteral", None)])
          \/ (exists ws b ws' c,
                 ws <> [] /\ Forall white ws /\ quoted_literal b
                 /\ ws' <> [] /\ Forall white ws' /\ quoted_literal c
                 /\ system_example = Grammar.PUBLIC ++ ws ++ b ++ ws' ++ c
                 /\ groups res = [(str "SystemLiteralOnly", None);
                                  (str "PubidLiteral", Some b);
                                  (str "SystemLiteral", Some c)])))
  /\ (2 = 0
      \/ exists pre c post,
           str "x" ++ [10%N] ++ str "SYSTEM 'a'" = pre ++ c :: post
           /\ 2 = length pre + 1
           /\ is_line_terminator c = true).
Proof.
  split.
  - apply (proj1 (ExternalID_match_ignores_trailing_text true)
                 system_example (str " [ <!ELEMENT a ANY> ]>")
                 {| index := 0; matched := system_example;
                    captures := []; groups := [] |}).
    + repeat constructor.
    + vm_compute. reflexivity.
    + reflexivity.
  - apply (proj2 (ExternalID_match_ignores_trailing_text true)
                 (str "x" ++ [10%N] ++ str "SYSTEM 'a'")
                 {| index := 2; matched := str "SYSTEM 'a'";
                    captures := [Some (str "'a'"); None; None];
                    groups := [(str "SystemLiteralOnly", Some (str "'a'"));
                               (str "PubidLiteral", None);
                               (str "SystemLiteral", None)] |}).
    + repeat constructor.
    + vm_compute. reflexivity.
Defined.
